(** * AgentMesh / Squad Klaw: canonical form, identity store and relay queue

    A shallow embedding of the trust and delivery core of the repository:
    the canonical serialisation used for signing, the two identity stores
    (the in-memory [AgentStore] and the SQLite-backed store), the cursor
    pagination of [search], and the HTTP handlers for registration, update,
    deregistration, relay submission and acknowledgment. *)

From Stdlib Require Import String Ascii List ZArith NArith Bool Lia.
From Stdlib Require Import Permutation Sorted DecimalString.
Import ListNotations.
Set Warnings "-register-all".
Local Open Scope string_scope.

(** * Part I: the model *)

(** ** Strings: character predicates and joining *)

Module Str.

Definition dquote : ascii := "034"%char.
Definition backslash : ascii := "092"%char.
Definition space : ascii := " "%char.

(** JSON whitespace: space, tab, line feed, carriage return. *)
Definition is_ws (c : ascii) : bool :=
  match N_of_ascii c with
  | 32%N | 9%N | 10%N | 13%N => true
  | _ => false
  end.

Fixpoint all (p : ascii -> bool) (s : string) : bool :=
  match s with
  | EmptyString => true
  | String c r => p c && all p r
  end.

Definition no_ws (s : string) : bool := all (fun c => negb (is_ws c)) s.

Definition no_space (s : string) : bool :=
  all (fun c => negb (Ascii.eqb c space)) s.

Fixpoint count (p : ascii -> bool) (s : string) : nat :=
  match s with
  | EmptyString => 0
  | String c r => (if p c then 1 else 0) + count p r
  end.

Definition is_space (c : ascii) : bool := Ascii.eqb c space.

(** [Array.prototype.join]. *)
Fixpoint join (sep : string) (l : list string) : string :=
  match l with
  | [] => ""
  | [x] => x
  | x :: r => x ++ sep ++ join sep r
  end.

(** What [join ","] writes after its first element, followed by [rest]. *)
Fixpoint joined_after (l : list string) (rest : string) : string :=
  match l with
  | [] => rest
  | x :: r => "," ++ x ++ joined_after r rest
  end.

End Str.

(** ** Sorting by a string key

    The byte-wise lexicographic order on strings, as SQLite's BINARY
    collation orders a TEXT column.  The sort is stable. *)

Section KeySort.
Context {A : Type} (key : A -> string).

Fixpoint insert_by (x : A) (l : list A) : list A :=
  match l with
  | [] => [x]
  | h :: t =>
      if String.leb (key x) (key h) then x :: l else h :: insert_by x t
  end.

Definition sort_by (l : list A) : list A := fold_right insert_by [] l.

Definition key_le (a b : A) : Prop := String.leb (key a) (key b) = true.

End KeySort.

(** ** JSON values

    The generic tagged-value tree the canonicaliser works on.  An object is
    the list of its fields in the order [Object.keys] enumerates them.  A
    number is carried as the text JavaScript prints for it ([String(x)]:
    [1], [-0.5], [1e+21], [Infinity]); that text identifies the double up
    to the sign of zero, which no serialisation shows.  A string is the
    UTF-8 form of a JavaScript string. *)

Module Json.

Inductive json : Type :=
| JNull
| JBool (b : bool)
| JNum (n : string)
| JStr (s : string)
| JArr (xs : list json)
| JObj (fields : list (string * json)).

Definition field : Type := (string * json)%type.

Section Induction.
Variable P : json -> Prop.
Hypothesis Hnull : P JNull.
Hypothesis Hbool : forall b, P (JBool b).
Hypothesis Hnum : forall n, P (JNum n).
Hypothesis Hstr : forall s, P (JStr s).
Hypothesis Harr : forall xs, Forall P xs -> P (JArr xs).
Hypothesis Hobj :
  forall fs, Forall (fun kv : field => P (snd kv)) fs -> P (JObj fs).

Fixpoint json_ind' (j : json) : P j :=
  match j with
  | JNull => Hnull
  | JBool b => Hbool b
  | JNum n => Hnum n
  | JStr s => Hstr s
  | JArr xs =>
      Harr xs
        ((fix go (l : list json) : Forall P l :=
            match l with
            | [] => Forall_nil _
            | x :: r => Forall_cons x (json_ind' x) (go r)
            end) xs)
  | JObj fs =>
      Hobj fs
        ((fix go (l : list field) : Forall (fun kv => P (snd kv)) l :=
            match l with
            | [] => Forall_nil _
            | kv :: r => Forall_cons kv (json_ind' (snd kv)) (go r)
            end) fs)
  end.
End Induction.

(** Objects have pairwise distinct keys at every level. *)
Inductive wf : json -> Prop :=
| wf_null : wf JNull
| wf_bool b : wf (JBool b)
| wf_num n : wf (JNum n)
| wf_str s : wf (JStr s)
| wf_arr xs : Forall wf xs -> wf (JArr xs)
| wf_obj fs :
    NoDup (map fst fs) -> Forall (fun kv : field => wf (snd kv)) fs ->
    wf (JObj fs).

(** Two values hold the same key/value pairs: scalars are equal, arrays
    agree position by position, objects agree up to the order of their
    fields. *)
Inductive same_pairs : json -> json -> Prop :=
| sp_null : same_pairs JNull JNull
| sp_bool b : same_pairs (JBool b) (JBool b)
| sp_num n : same_pairs (JNum n) (JNum n)
| sp_str s : same_pairs (JStr s) (JStr s)
| sp_arr xs ys : Forall2 same_pairs xs ys -> same_pairs (JArr xs) (JArr ys)
| sp_obj fs fs' gs :
    Forall2 (fun f g : field => fst f = fst g /\ same_pairs (snd f) (snd g))
            fs fs' ->
    Permutation fs' gs ->
    same_pairs (JObj fs) (JObj gs).

(** No key and no string value holds a space character. *)
Fixpoint space_free (j : json) : bool :=
  match j with
  | JStr s => Str.no_space s
  | JArr xs => forallb space_free xs
  | JObj fs =>
      forallb (fun kv : field => Str.no_space (fst kv) && space_free (snd kv)) fs
  | _ => true
  end.

(** The space characters held by the keys and the string values. *)
Fixpoint spaces (j : json) : nat :=
  match j with
  | JStr s => Str.count Str.is_space s
  | JArr xs => list_sum (map spaces xs)
  | JObj fs =>
      list_sum (map (fun kv : field =>
                       Str.count Str.is_space (fst kv) + spaces (snd kv)) fs)
  | _ => 0
  end.

(** Every object of the tree lists its keys in ascending order. *)
Inductive keys_sorted : json -> Prop :=
| ks_null : keys_sorted JNull
| ks_bool b : keys_sorted (JBool b)
| ks_num n : keys_sorted (JNum n)
| ks_str s : keys_sorted (JStr s)
| ks_arr xs : Forall keys_sorted xs -> keys_sorted (JArr xs)
| ks_obj fs :
    StronglySorted (fun a b => String.leb a b = true) (map fst fs) ->
    Forall (fun kv : field => keys_sorted (snd kv)) fs ->
    keys_sorted (JObj fs).

(** *** JSON.stringify (compact form, no indent argument) *)

Definition hex_digit (n : N) : ascii :=
  ascii_of_N (if (n <? 10)%N then 48 + n else 87 + n).

Definition escape_char (c : ascii) : string :=
  let n := N_of_ascii c in
  if Ascii.eqb c Str.dquote then String Str.backslash (String Str.dquote "")
  else if Ascii.eqb c Str.backslash
       then String Str.backslash (String Str.backslash "")
  else if (n =? 8)%N then String Str.backslash "b"
  else if (n =? 12)%N then String Str.backslash "f"
  else if (n =? 10)%N then String Str.backslash "n"
  else if (n =? 13)%N then String Str.backslash "r"
  else if (n =? 9)%N then String Str.backslash "t"
  else if (n <? 32)%N
       then String Str.backslash
              ("u00" ++ String (hex_digit (n / 16))
                          (String (hex_digit (n mod 16)) ""))
  else String c "".

Fixpoint escape (s : string) : string :=
  match s with
  | EmptyString => ""
  | String c r => escape_char c ++ escape r
  end.

Definition quote (s : string) : string :=
  String Str.dquote (escape s ++ String Str.dquote "").

(** A number that is not finite is serialised as [null]. *)
Definition number_text (n : string) : string :=
  if String.eqb n "Infinity" || String.eqb n "-Infinity" || String.eqb n "NaN"
  then "null" else n.

Fixpoint stringify (j : json) : string :=
  match j with
  | JNull => "null"
  | JBool true => "true"
  | JBool false => "false"
  | JNum n => number_text n
  | JStr s => quote s
  | JArr xs => "[" ++ Str.join "," (map stringify xs) ++ "]"
  | JObj fs =>
      "{" ++ Str.join ","
               (map (fun kv : field =>
                       quote (fst kv) ++ ":" ++ stringify (snd kv)) fs)
          ++ "}"
  end.

(** One member of a serialised object. *)
Definition member (kv : field) : string :=
  quote (fst kv) ++ ":" ++ stringify (snd kv).

Definition fields_of (j : json) : list field :=
  match j with
  | JObj fs => fs
  | _ => []
  end.

(** The characters of the text of a finite number: digits, the sign, the
    decimal point and the exponent mark. *)
Definition number_char (c : ascii) : bool :=
  let n := N_of_ascii c in
  ((48 <=? n) && (n <=? 57))%N
  || Ascii.eqb c "-"%char || Ascii.eqb c "+"%char
  || Ascii.eqb c "."%char || Ascii.eqb c "e"%char.

Definition is_number (n : string) : bool :=
  match n with
  | EmptyString => false
  | String _ _ => Str.all number_char n
  end.

(** *** Reading a serialisation: its first character and its escapes *)

Definition hex_value (c : ascii) : N :=
  let n := N_of_ascii c in
  if (n <? 58)%N then (n - 48)%N else (n - 87)%N.

(** The character that the escape at the head of [s] stands for, and what
    follows the escape. *)
Definition unescape_head (s : string) : option (ascii * string) :=
  match s with
  | EmptyString => None
  | String c r =>
      if Ascii.eqb c Str.backslash then
        match r with
        | String e r' =>
            if Ascii.eqb e "u"%char then
              match r' with
              | String _ (String _ (String h (String l r''))) =>
                  Some (ascii_of_N (16 * hex_value h + hex_value l), r'')
              | _ => None
              end
            else if Ascii.eqb e "b"%char then Some (ascii_of_N 8, r')
            else if Ascii.eqb e "f"%char then Some (ascii_of_N 12, r')
            else if Ascii.eqb e "n"%char then Some (ascii_of_N 10, r')
            else if Ascii.eqb e "r"%char then Some (ascii_of_N 13, r')
            else if Ascii.eqb e "t"%char then Some (ascii_of_N 9, r')
            else Some (e, r')
        | EmptyString => None
        end
      else Some (c, r)
  end.

(** The kind of value a first character announces, and the kind of a
    value. *)
Definition kind (c : ascii) : nat :=
  if Ascii.eqb c "n"%char then 0
  else if Ascii.eqb c "t"%char then 1
  else if Ascii.eqb c "f"%char then 2
  else if number_char c then 3
  else if Ascii.eqb c Str.dquote then 4
  else if Ascii.eqb c "["%char then 5
  else if Ascii.eqb c "{"%char then 6
  else 7.

Definition jkind (j : json) : nat :=
  match j with
  | JNull => 0
  | JBool true => 1
  | JBool false => 2
  | JNum _ => 3
  | JStr _ => 4
  | JArr _ => 5
  | JObj _ => 6
  end.

(** The text ends a number: it is empty or starts with a character no
    number holds. *)
Definition ends_number (r : string) : bool :=
  match r with
  | EmptyString => true
  | String c _ => negb (number_char c)
  end.

(** Every number of the tree is finite. *)
Fixpoint finite (j : json) : bool :=
  match j with
  | JNum n => is_number n
  | JArr xs => forallb finite xs
  | JObj fs => forallb (fun kv : field => finite (snd kv)) fs
  | _ => true
  end.

End Json.

(** ** The canonical form (core/src/crypto.ts) *)

Module Canonical.
Import Json.

(** Modelled from the spec: rule (2) for one object of [canonicalize]
    (core/src/crypto.ts is not among the sources, only its tests are): the
    fields in the lexicographic order of their keys. *)
Definition sort_fields (l : list field) : list field := sort_by fst l.

(** Modelled from the spec: rules (2) and (3), the recursive key sort that
    leaves sequences in their order. *)
Fixpoint sortKeys (j : json) : json :=
  match j with
  | JArr xs => JArr (map sortKeys xs)
  | JObj fs =>
      JObj (sort_fields (map (fun kv : field => (fst kv, sortKeys (snd kv))) fs))
  | _ => j
  end.

(** Modelled from the spec: rule (1), the top-level [signature] field is
    dropped before serialising. *)
Definition strip_signature (obj : list field) : list field :=
  filter (fun kv : field => negb (String.eqb (fst kv) "signature")) obj.

(** Modelled from the spec: the value that [canonicalize] serialises, the
    object without its [signature], keys sorted throughout. *)
Definition canonical_tree (obj : list field) : json :=
  sortKeys (JObj (strip_signature obj)).

(** Modelled from the spec: [canonicalize(obj)], the compact serialisation
    of the sorted, signature-free tree (rule (4)). *)
Definition canonicalize (obj : list field) : string :=
  stringify (canonical_tree obj).

(** The same object written in two orders. *)
Definition order_a : list field :=
  [("b", JObj [("z", JNum "1"); ("a", JArr [JStr "x"; JNull])]);
   ("signature", JStr "c2ln"); ("a", JBool true)].

Definition order_b : list field :=
  [("a", JBool true); ("signature", JStr "c2ln");
   ("b", JObj [("a", JArr [JStr "x"; JNull]); ("z", JNum "1")])].

End Canonical.

(** ** Base64 as Node's [Buffer] does it

    [Buffer.from(s).toString("base64")], the base64 text of the UTF-8 bytes
    of [s], and [Buffer.from(s, "base64")], the bytes a base64 text stands
    for.  The decoder is the lenient one: characters outside the alphabet
    are skipped, the URL-safe [-] and [_] are accepted, and the first [=]
    ends the input. *)

Module Base64.

Definition char_of_sextet (n : N) : ascii :=
  if (n <? 26)%N then ascii_of_N (65 + n)
  else if (n <? 52)%N then ascii_of_N (97 + (n - 26))
  else if (n <? 62)%N then ascii_of_N (48 + (n - 52))
  else if (n =? 62)%N then "+"%char
  else "/"%char.

Definition sextet_of_char (c : ascii) : option N :=
  let n := N_of_ascii c in
  if ((65 <=? n) && (n <=? 90))%N then Some (n - 65)%N
  else if ((97 <=? n) && (n <=? 122))%N then Some (n - 71)%N
  else if ((48 <=? n) && (n <=? 57))%N then Some (n + 4)%N
  else if ((n =? 43) || (n =? 45))%N then Some 62%N
  else if ((n =? 47) || (n =? 95))%N then Some 63%N
  else None.

Fixpoint encode_bytes (l : list N) : string :=
  match l with
  | [] => ""
  | [a] =>
      String (char_of_sextet (a / 4))
        (String (char_of_sextet ((a mod 4) * 16)) "==")
  | [a; b] =>
      String (char_of_sextet (a / 4))
        (String (char_of_sextet ((a mod 4) * 16 + b / 16))
           (String (char_of_sextet ((b mod 16) * 4)) "="))
  | a :: b :: c :: r =>
      String (char_of_sextet (a / 4))
        (String (char_of_sextet ((a mod 4) * 16 + b / 16))
           (String (char_of_sextet ((b mod 16) * 4 + c / 64))
              (String (char_of_sextet (c mod 64)) (encode_bytes r))))
  end.

(** The legal characters of the input, up to the first [=]. *)
Fixpoint sextets (s : string) : list N :=
  match s with
  | EmptyString => []
  | String c r =>
      if Ascii.eqb c "="%char then []
      else match sextet_of_char c with
           | Some n => n :: sextets r
           | None => sextets r
           end
  end.

Fixpoint decode_sextets (l : list N) : list N :=
  match l with
  | s1 :: s2 :: s3 :: s4 :: r =>
      ((s1 * 4 + s2 / 16) mod 256)%N
        :: (((s2 mod 16) * 16 + s3 / 4) mod 256)%N
        :: (((s3 mod 4) * 64 + s4) mod 256)%N
        :: decode_sextets r
  | [s1; s2; s3] =>
      [((s1 * 4 + s2 / 16) mod 256)%N; (((s2 mod 16) * 16 + s3 / 4) mod 256)%N]
  | [s1; s2] => [((s1 * 4 + s2 / 16) mod 256)%N]
  | _ => []
  end.

Definition bytes_of_string (s : string) : list N :=
  map N_of_ascii (list_ascii_of_string s).

Definition string_of_bytes (l : list N) : string :=
  string_of_list_ascii (map ascii_of_N l).

Definition encode (s : string) : string := encode_bytes (bytes_of_string s).

Definition decode (s : string) : string :=
  string_of_bytes (decode_sextets (sextets s)).

End Base64.

(** ** Bytes to text as Node's [Buffer] does it

    [buf.toString()] decodes UTF-8.  A string of the model is the UTF-8
    form of a JavaScript string, so a well-formed sequence stays as it is.
    Every maximal ill-formed part (a byte that can start no sequence, a
    sequence cut short, an overlong or a surrogate form) becomes U+FFFD,
    and the byte that broke a sequence is read again as a first byte.  A
    byte order mark is kept. *)

Module Utf8.

(** U+FFFD. *)
Definition replacement : string :=
  String (ascii_of_N 239) (String (ascii_of_N 191) (String (ascii_of_N 189) "")).

Definition between (lo hi : N) (c : ascii) : bool :=
  ((lo <=? N_of_ascii c) && (N_of_ascii c <=? hi))%N.

(** A byte that continues a sequence. *)
Definition continuation (c : ascii) : bool := between 128 191 c.

(** The byte that may follow the first byte [b] of a sequence of three or
    four bytes: after E0 and F0 the overlong forms are excluded, after ED
    the surrogates, after F4 what lies beyond U+10FFFF. *)
Definition second (b : N) (c : ascii) : bool :=
  between (if (b =? 224)%N then 160 else if (b =? 240)%N then 144 else 128)
          (if (b =? 237)%N then 159 else if (b =? 244)%N then 143 else 191) c.

Fixpoint toString (s : string) : string :=
  match s with
  | EmptyString => EmptyString
  | String b r =>
      let n := N_of_ascii b in
      if (n <? 128)%N then String b (toString r)
      else if ((194 <=? n) && (n <=? 223))%N then
        match r with
        | String c1 r1 =>
            if continuation c1 then String b (String c1 (toString r1))
            else replacement ++ toString r
        | EmptyString => replacement
        end
      else if ((224 <=? n) && (n <=? 239))%N then
        match r with
        | String c1 r1 =>
            if second n c1 then
              match r1 with
              | String c2 r2 =>
                  if continuation c2
                  then String b (String c1 (String c2 (toString r2)))
                  else replacement ++ toString r1
              | EmptyString => replacement
              end
            else replacement ++ toString r
        | EmptyString => replacement
        end
      else if ((240 <=? n) && (n <=? 244))%N then
        match r with
        | String c1 r1 =>
            if second n c1 then
              match r1 with
              | String c2 r2 =>
                  if continuation c2 then
                    match r2 with
                    | String c3 r3 =>
                        if continuation c3
                        then String b (String c1 (String c2 (String c3
                                                       (toString r3))))
                        else replacement ++ toString r2
                    | EmptyString => replacement
                    end
                  else replacement ++ toString r1
              | EmptyString => replacement
              end
            else replacement ++ toString r
        | EmptyString => replacement
        end
      else replacement ++ toString r
  end.

(** The string is well-formed UTF-8, the form of a JavaScript string:
    decoding its bytes gives it back. *)
Definition is_text (s : string) : Prop := toString s = s.

(** [Buffer.from(c, "base64").toString()]. *)
Definition of_base64 (c : string) : string := toString (Base64.decode c).

End Utf8.

(** ** Agent cards, stored records and messages (core/src/types.ts) *)

Module Model.
Import Json.

Record Owner : Type := {
  owner_name : string;
  owner_contact : option string
}.

Record Availability : Type := {
  timezone : option string;
  hours : option string;
  response_sla : option string
}.

Inductive AccessMode : Type := ModeOpen | ModeAllowlist | ModeApproval.

Record AccessControl : Type := {
  mode : AccessMode;
  allowlist : option (list string);
  block : option (list string)
}.

Record AgentCard : Type := {
  squadklaw : string;
  agent_id : string;
  name : string;
  description : option string;
  owner : option Owner;
  endpoint : string;
  public_key : string;
  capabilities : list string;
  intents : list string;
  availability : option Availability;
  access_control : option AccessControl;
  metadata : option (list (string * string))
}.

(** [card.agent_id = id]. *)
Definition set_agent_id (id : string) (c : AgentCard) : AgentCard :=
  {| squadklaw := squadklaw c;
     agent_id := id;
     name := name c;
     description := description c;
     owner := owner c;
     endpoint := endpoint c;
     public_key := public_key c;
     capabilities := capabilities c;
     intents := intents c;
     availability := availability c;
     access_control := access_control c;
     metadata := metadata c |}.

Record StoredAgent : Type := {
  card : AgentCard;
  registered_at : string;
  expires_at : string;
  token_hash : string
}.

Record Message : Type := {
  msg_squadklaw : string;
  msg_message_id : string;
  msg_conversation_id : string;
  msg_from : string;
  msg_to : string;
  msg_timestamp : string;
  msg_intent : string;
  msg_payload : json;
  msg_signature : string
}.

Inductive ErrorCode : Type :=
| INVALID_MESSAGE
| INVALID_SIGNATURE
| INTENT_NOT_SUPPORTED
| RATE_LIMITED
| AGENT_UNAVAILABLE
| CONVERSATION_CLOSED
| UNAUTHORIZED
| OWNER_REJECTED.

End Model.

(** ** JavaScript string and array helpers *)

Module Js.

(** A string used as a condition: the empty string is falsy. *)
Definition truthy (o : option string) : option string :=
  match o with
  | Some s => if String.eqb s "" then None else Some s
  | None => None
  end.

(** [String.prototype.toLowerCase]: the lower-casing of the JavaScript
    engine, over all of Unicode.  It is taken from outside, as a function
    on strings about which nothing is assumed. *)
Class Casing : Type := {
  toLowerCase : string -> string
}.

(** [String.prototype.includes]. *)
Fixpoint str_includes (hay needle : string) : bool :=
  String.prefix needle hay
  || match hay with
     | EmptyString => false
     | String _ r => str_includes r needle
     end.

(** [String.prototype.startsWith]. *)
Definition startsWith (s p : string) : bool := String.prefix p s.

(** [String.prototype.slice(n)]. *)
Definition slice_str (n : nat) (s : string) : string :=
  String.substring n (String.length s - n) s.

(** [Array.prototype.includes] on an array of strings. *)
Definition includes (l : list string) (s : string) : bool :=
  existsb (String.eqb s) l.

(** [Array.prototype.findIndex]; [None] stands for -1. *)
Fixpoint findIndex {A : Type} (p : A -> bool) (l : list A) : option nat :=
  match l with
  | [] => None
  | x :: r => if p x then Some 0 else option_map S (findIndex p r)
  end.

(** [arr[arr.length - 1]]; [None] stands for [undefined]. *)
Fixpoint last_elt {A : Type} (l : list A) : option A :=
  match l with
  | [] => None
  | [x] => Some x
  | _ :: r => last_elt r
  end.

(** A JavaScript [Map] with string keys: the entries in insertion order.
    [set] on an existing key replaces the value where it stands. *)
Section JsMap.
Context {V : Type}.

Definition JsMap : Type := list (string * V).

Fixpoint map_set (k : string) (v : V) (m : JsMap) : JsMap :=
  match m with
  | [] => [(k, v)]
  | (k', v') :: r =>
      if String.eqb k' k then (k, v) :: r else (k', v') :: map_set k v r
  end.

Fixpoint map_get (k : string) (m : JsMap) : option V :=
  match m with
  | [] => None
  | (k', v') :: r => if String.eqb k' k then Some v' else map_get k r
  end.

Definition map_has (k : string) (m : JsMap) : bool :=
  existsb (fun kv => String.eqb (fst kv) k) m.

Definition map_delete (k : string) (m : JsMap) : bool * JsMap :=
  (map_has k m, filter (fun kv => negb (String.eqb (fst kv) k)) m).

Definition map_values (m : JsMap) : list V := map snd m.

End JsMap.
Arguments JsMap V : clear implicits.

End Js.

(** ** The search shared by both stores

    [AgentStore.search] and [searchAgents] run the same statements on the
    list of cards they start from; they differ in how that list is read. *)

Module Search.
Import Model Js.

Record Query : Type := {
  q_capability : option string;
  q_intent : option string;
  q_q : option string;
  q_limit : nat;
  q_cursor : option string
}.

Record Result : Type := {
  agents : list AgentCard;
  cursor : option string
}.

Definition with_cursor (c : option string) (query : Query) : Query :=
  {| q_capability := q_capability query;
     q_intent := q_intent query;
     q_q := q_q query;
     q_limit := q_limit query;
     q_cursor := c |}.

Definition with_limit (n : nat) (query : Query) : Query :=
  {| q_capability := q_capability query;
     q_intent := q_intent query;
     q_q := q_q query;
     q_limit := n;
     q_cursor := q_cursor query |}.

Definition by_capability (query : Query) (results : list AgentCard) :=
  match truthy (q_capability query) with
  | Some c => filter (fun a => includes (capabilities a) c) results
  | None => results
  end.

Definition by_intent (query : Query) (results : list AgentCard) :=
  match truthy (q_intent query) with
  | Some i => filter (fun a => includes (intents a) i) results
  | None => results
  end.

Section Filters.
Context {C : Casing}.

Definition by_text (query : Query) (results : list AgentCard) :=
  match truthy (q_q query) with
  | Some s =>
      let q := toLowerCase s in
      filter (fun a =>
                str_includes (toLowerCase (name a)) q
                || match description a with
                   | Some d => str_includes (toLowerCase d) q
                   | None => false
                   end) results
  | None => results
  end.

(** What each of the three filters tests on a card, and their
    conjunction. *)
Definition matches_capability (query : Query) (a : AgentCard) : bool :=
  match truthy (q_capability query) with
  | Some c => includes (capabilities a) c
  | None => true
  end.

Definition matches_intent (query : Query) (a : AgentCard) : bool :=
  match truthy (q_intent query) with
  | Some i => includes (intents a) i
  | None => true
  end.

Definition matches_text (query : Query) (a : AgentCard) : bool :=
  match truthy (q_q query) with
  | Some s =>
      str_includes (toLowerCase (name a)) (toLowerCase s)
      || match description a with
         | Some d => str_includes (toLowerCase d) (toLowerCase s)
         | None => false
         end
  | None => true
  end.

Definition matches (query : Query) (a : AgentCard) : bool :=
  matches_capability query a && matches_intent query a && matches_text query a.

(** The three [if (query.x) results = results.filter(...)] statements. *)
Definition filtered (query : Query) (results : list AgentCard) :=
  by_text query (by_intent query (by_capability query results)).

(** [if (query.cursor) { ... results = results.slice(idx + 1) }]. *)
Definition after_cursor (query : Query) (results : list AgentCard) :=
  match truthy (q_cursor query) with
  | Some c =>
      let decoded := Utf8.of_base64 c in
      match findIndex (fun a => String.eqb (agent_id a) decoded) results with
      | Some idx => skipn (idx + 1) results
      | None => results
      end
  | None => results
  end.

(** [page] and [nextCursor].  A full page has a last element unless
    [limit] is 0; then [page[page.length - 1]] is [undefined] and reading
    its [agent_id] throws, which is [None] here. *)
Definition page_of (query : Query) (results : list AgentCard) : option Result :=
  let page := firstn (q_limit query) results in
  if Nat.eqb (length page) (q_limit query)
  then match last_elt page with
       | Some a =>
           Some {| agents := page; cursor := Some (Base64.encode (agent_id a)) |}
       | None => None
       end
  else Some {| agents := page; cursor := None |}.

Definition search_from (all : list AgentCard) (query : Query) : option Result :=
  page_of query (after_cursor query (filtered query all)).

End Filters.

End Search.

(** ** The in-memory store (directory/src/store.ts, first version) *)

Module AgentStore.
Import Model Js Search.

Definition t : Type := JsMap StoredAgent.

Definition empty : t := [].

Definition put (agent : StoredAgent) (agents : t) : t :=
  map_set (agent_id (card agent)) agent agents.

Definition get (agentId : string) (agents : t) : option StoredAgent :=
  map_get agentId agents.

Definition delete (agentId : string) (agents : t) : bool * t :=
  map_delete agentId agents.

Definition search {C : Casing} (agents : t) (query : Query) : option Result :=
  search_from (map card (map_values agents)) query.

Definition count (agents : t) : nat := length agents.

End AgentStore.

(** ** The SQLite store (directory/src/db.ts and store.ts)

    A table is the list of its rows in rowid order.  [card_json] holds the
    card itself: [JSON.parse (JSON.stringify card)] is [card]. *)

Module Store.
Import Model Js Search.

Record AgentRow : Type := {
  row_agent_id : string;
  card_json : AgentCard;
  row_token_hash : string;
  row_registered_at : string;
  row_expires_at : string
}.

Record StoredMessage : Type := {
  id : string;
  conversation_id : string;
  from_agent : string;
  to_agent : string;
  intent : string;
  message_json : string;
  created_at : string;
  delivered : Z
}.

Record Db : Type := {
  agents_table : list AgentRow;
  messages_table : list StoredMessage
}.

Definition empty : Db := {| agents_table := []; messages_table := [] |}.

Definition stored_of_row (row : AgentRow) : StoredAgent :=
  {| card := card_json row;
     registered_at := row_registered_at row;
     expires_at := row_expires_at row;
     token_hash := row_token_hash row |}.

Definition row_of_stored (agent : StoredAgent) : AgentRow :=
  {| row_agent_id := agent_id (card agent);
     card_json := card agent;
     row_token_hash := token_hash agent;
     row_registered_at := registered_at agent;
     row_expires_at := expires_at agent |}.

Definition with_agents (rows : list AgentRow) (db : Db) : Db :=
  {| agents_table := rows; messages_table := messages_table db |}.

Definition with_messages (rows : list StoredMessage) (db : Db) : Db :=
  {| agents_table := agents_table db; messages_table := rows |}.

(** [INSERT OR REPLACE]: the row with the same primary key is deleted and
    the new row gets the next rowid. *)
Definition putAgent (agent : StoredAgent) (db : Db) : Db :=
  with_agents
    (filter (fun r => negb (String.eqb (row_agent_id r) (agent_id (card agent))))
            (agents_table db)
     ++ [row_of_stored agent])%list
    db.

Definition getAgent (agentId : string) (db : Db) : option StoredAgent :=
  option_map stored_of_row
    (find (fun r => String.eqb (row_agent_id r) agentId) (agents_table db)).

Definition deleteAgent (agentId : string) (db : Db) : bool * Db :=
  (existsb (fun r => String.eqb (row_agent_id r) agentId) (agents_table db),
   with_agents
     (filter (fun r => negb (String.eqb (row_agent_id r) agentId))
             (agents_table db))
     db).

(** [SELECT card_json FROM agents ORDER BY agent_id], then the shared
    statements. *)
Definition searchAgents {C : Casing} (db : Db) (query : Query)
  : option Result :=
  search_from (map card_json (sort_by row_agent_id (agents_table db))) query.

Definition countAgents (db : Db) : nat := length (agents_table db).

(** [SELECT * FROM agents WHERE token_hash = ?], first row. *)
Definition getAgentByTokenHash (tokenHash : string) (db : Db)
  : option StoredAgent :=
  option_map stored_of_row
    (find (fun r => String.eqb (row_token_hash r) tokenHash) (agents_table db)).

Record NewMessage : Type := {
  new_id : string;
  new_conversation_id : string;
  new_from_agent : string;
  new_to_agent : string;
  new_intent : string;
  new_message_json : string
}.

(** [INSERT INTO messages]: [created_at] and [delivered] take their
    defaults, [datetime('now')] (passed in as [now_text]) and 0.  A second
    row with the same primary key is refused and the statement throws:
    [None]. *)
Definition storeMessage (msg : NewMessage) (now_text : string) (db : Db)
  : option Db :=
  if existsb (fun r => String.eqb (id r) (new_id msg)) (messages_table db)
  then None
  else Some (with_messages
               (messages_table db
                ++ [{| id := new_id msg;
                       conversation_id := new_conversation_id msg;
                       from_agent := new_from_agent msg;
                       to_agent := new_to_agent msg;
                       intent := new_intent msg;
                       message_json := new_message_json msg;
                       created_at := now_text;
                       delivered := 0 |}])%list
               db).

(** [LIMIT ?]: a negative limit is no limit. *)
Definition sql_limit {A : Type} (limit : Z) (rows : list A) : list A :=
  if (limit <? 0)%Z then rows else firstn (Z.to_nat limit) rows.

Definition getMessagesFor (agentId : string) (limit : Z) (db : Db)
  : list StoredMessage :=
  sql_limit limit
    (sort_by created_at
       (filter (fun r => String.eqb (to_agent r) agentId
                         && (delivered r =? 0)%Z)
               (messages_table db))).

Definition getMessagesInConversation (conversationId agentId : string)
           (limit : Z) (db : Db) : list StoredMessage :=
  sql_limit limit
    (sort_by created_at
       (filter (fun r => String.eqb (conversation_id r) conversationId
                         && String.eqb (to_agent r) agentId
                         && (delivered r =? 0)%Z)
               (messages_table db))).

Definition set_delivered (r : StoredMessage) : StoredMessage :=
  {| id := id r;
     conversation_id := conversation_id r;
     from_agent := from_agent r;
     to_agent := to_agent r;
     intent := intent r;
     message_json := message_json r;
     created_at := created_at r;
     delivered := 1 |}.

(** [UPDATE ... WHERE cond]: every row the condition selects is written
    and counted in [changes], whatever it held before. *)
Definition sql_update (cond : StoredMessage -> bool) (db : Db) : nat * Db :=
  (length (filter cond (messages_table db)),
   with_messages
     (map (fun r => if cond r then set_delivered r else r) (messages_table db))
     db).

(** [UPDATE messages SET delivered = 1 WHERE id = ? AND to_agent = ?]. *)
Definition ackMessage (messageId agentId : string) (db : Db) : bool * Db :=
  let (changes, db') :=
    sql_update (fun r => String.eqb (id r) messageId
                         && String.eqb (to_agent r) agentId) db in
  (Nat.ltb 0 changes, db').

(** [UPDATE messages SET delivered = 1 WHERE to_agent = ? AND delivered = 0]. *)
Definition ackAllMessages (agentId : string) (db : Db) : nat * Db :=
  sql_update (fun r => String.eqb (to_agent r) agentId
                       && (delivered r =? 0)%Z) db.

End Store.

(** ** A caller that pages through a search

    It requests page after page, each time passing the cursor it was given,
    until a page comes back without one.  [None]: a request threw, or
    [fuel] requests were not enough. *)

Module Paging.
Import Model Search.

Fixpoint drain (search : Query -> option Result) (query : Query) (fuel : nat)
  : option (list AgentCard) :=
  match fuel with
  | O => None
  | S fuel' =>
      match search query with
      | None => None
      | Some r =>
          match cursor r with
          | None => Some (agents r)
          | Some c =>
              option_map (app (agents r))
                         (drain search (with_cursor (Some c) query) fuel')
          end
      end
  end.

(** The cursor a caller holds after it was handed the cards [done]. *)
Definition handed_out (done : list AgentCard) (cur : option string) : Prop :=
  (done = [] /\ cur = None)
  \/ (exists a, Js.last_elt done = Some a
                /\ cur = Some (Base64.encode (agent_id a))).

(** The same filter asked in one request that no page can cut short. *)
Definition unpaginated (n : nat) (query : Query) : Query :=
  with_cursor None (with_limit (S n) query).

(** The pages of the list [full], as a caller sees them: the request
    without cursor returns the first [limit] agents of the list, and the
    request with the cursor of an agent of the list returns the [limit]
    agents that follow it. *)
Definition threads (search : Query -> option Result) (query : Query)
           (full : list AgentCard) : Prop :=
  (exists r, search (with_cursor None query) = Some r
             /\ agents r = firstn (q_limit query) full)
  /\ (forall done a rest,
        full = (done ++ a :: rest)%list ->
        exists r,
          search (with_cursor (Some (Base64.encode (agent_id a))) query)
          = Some r
          /\ agents r = firstn (q_limit query) rest).

(** [limit=1] twice: the first two agents of the list, one after the
    other, and they differ. *)
Definition one_then_one (search : Query -> option Result) (query : Query)
           (full : list AgentCard) : Prop :=
  q_limit query = 1 ->
  forall a1 a2 rest,
    full = a1 :: a2 :: rest ->
    search (with_cursor None query)
    = Some {| agents := [a1];
              cursor := Some (Base64.encode (agent_id a1)) |}
    /\ search (with_cursor (Some (Base64.encode (agent_id a1))) query)
       = Some {| agents := [a2];
                 cursor := Some (Base64.encode (agent_id a2)) |}
    /\ agent_id a1 <> agent_id a2.

(** What a page says about itself: it holds at most [limit] agents; it
    carries a cursor exactly when it holds [limit] of them; the cursor is
    the base64 text of the [agent_id] of its last agent, and decodes to
    it. *)
Definition page_ok (query : Query) (r : Result) : Prop :=
  length (agents r) <= q_limit query
  /\ (length (agents r) < q_limit query <-> cursor r = None)
  /\ (forall cur,
        cursor r = Some cur ->
        exists a, Js.last_elt (agents r) = Some a
                  /\ cur = Base64.encode (agent_id a)
                  /\ Utf8.of_base64 cur = agent_id a).

End Paging.

(** ** Store invariants

    What [put] and [putAgent] establish and the primary key keeps: one
    record per [agent_id], filed under the [agent_id] of its card.  The
    identifiers the server hands out are never empty. *)

Module Invariant.
Import Model Js.

Definition mem_ok (agents : AgentStore.t) : Prop :=
  NoDup (map fst agents)
  /\ Forall (fun kv : string * StoredAgent =>
               fst kv = agent_id (card (snd kv)) /\ fst kv <> "") agents.

Definition db_ok (db : Store.Db) : Prop :=
  NoDup (map Store.row_agent_id (Store.agents_table db))
  /\ Forall (fun r => Store.row_agent_id r = agent_id (Store.card_json r)
                      /\ Store.row_agent_id r <> "")
            (Store.agents_table db).

(** The cards a search starts from. *)
Definition cards_ok (all : list AgentCard) : Prop :=
  NoDup (map agent_id all) /\ Forall (fun a => agent_id a <> "") all.

(** Every identifier is a JavaScript string, as the identifiers the server
    hands out are. *)
Definition cards_text (all : list AgentCard) : Prop :=
  Forall (fun a => Utf8.is_text (agent_id a)) all.

Definition mem_text (agents : AgentStore.t) : Prop :=
  cards_text (map card (map_values agents)).

Definition db_text (db : Store.Db) : Prop :=
  cards_text (map Store.card_json (Store.agents_table db)).

End Invariant.

(** ** What the servers take from outside

    The digest of node:crypto, the clock formats of [Date] and of SQLite,
    and the zod schemas of core/src/schema.ts (which is not among the
    sources): [safeParse] answers with the issue messages or with the
    parsed data. *)

Class Platform : Type := {
  sha256_hex : string -> string;
  toISOString : Z -> string;
  sqlite_datetime : Z -> string;
  AgentCardSchema : Json.json -> list string + Model.AgentCard;
  MessageSchema : Json.json -> list string + Model.Message
}.

(** ** HTTP responses *)

Module Http.
Import Model.

Inductive Body : Type :=
| BError (code : ErrorCode) (message : string) (retry : bool)
| BRegistered (agent_id registered_at expires_at : string)
| BUpdated (agent_id expires_at : string)
| BCard (c : AgentCard)
| BEmpty
| BQueued (relay_id : string)
| BAcknowledged
| BUncaught.

Record Response : Type := {
  status : Z;
  body : Body
}.

Definition json_error (code : ErrorCode) (message : string) (st : Z) : Response :=
  {| status := st; body := BError code message false |}.

(** [c.json(body, status)]. *)
Definition respond (b : Body) (st : Z) : Response :=
  {| status := st; body := b |}.

(** An exception no handler catches: the framework answers 500. *)
Definition uncaught : Response := {| status := 500; body := BUncaught |}.

Definition error_code (r : Response) : option ErrorCode :=
  match body r with
  | BError code _ _ => Some code
  | _ => None
  end.

(** [authHeader?.startsWith("Bearer ")] and [authHeader.slice(7)]. *)
Definition bearer (authHeader : option string) : option string :=
  match authHeader with
  | Some h => if Js.startsWith h "Bearer " then Some (Js.slice_str 7 h) else None
  | None => None
  end.

(** [30 * 24 * 60 * 60 * 1000] milliseconds. *)
Definition thirty_days : Z := 30 * 24 * 60 * 60 * 1000.

(** Modelled from the spec: [generateId(prefix)] of core/src/crypto.ts, the
    prefix followed by the random characters drawn for this call. *)
Definition generateId (prefix rand : string) : string := prefix ++ rand.

(** Modelled from the spec: [agentId()] of core/src/crypto.ts, an
    identifier with the agent prefix. *)
Definition agentId (rand : string) : string := generateId "sk_" rand.

End Http.

(** ** The directory over SQLite (directory/src/server.ts, current version)

    Each handler takes the request, what the environment supplies for this
    request (the random characters of a generated identifier, the clock in
    milliseconds) and the database, and returns the response and the
    database after it.  A body that is not JSON is [None]. *)

Module Server.
Import Json Model Js Http Store.

Section Handlers.
Context {P : Platform}.

Definition hashToken (token : string) : string := sha256_hex token.

Definition resolveAgent (authHeader : option string) (db : Db)
  : option (string * string) :=
  match bearer authHeader with
  | None => None
  | Some token =>
      let tokenHash := hashToken token in
      match getAgentByTokenHash tokenHash db with
      | None => None
      | Some agent => Some (agent_id (card agent), tokenHash)
      end
  end.

(** POST /v1/agents *)
Definition post_agents (authHeader : option string) (body : option json)
           (rand : string) (now : Z) (db : Db) : Response * Db :=
  match bearer authHeader with
  | None => (json_error UNAUTHORIZED "Missing bearer token" 401, db)
  | Some token =>
      match body with
      | None => (json_error INVALID_MESSAGE "Invalid JSON body" 400, db)
      | Some body =>
          match AgentCardSchema body with
          | inl issues =>
              (json_error INVALID_MESSAGE
                 ("Validation failed: " ++ Str.join ", " issues) 400, db)
          | inr data =>
              let id := agentId rand in
              let card := set_agent_id id data in
              let expires := (now + thirty_days)%Z in
              (respond (BRegistered id (toISOString now) (toISOString expires)) 201,
               putAgent {| card := card;
                           registered_at := toISOString now;
                           expires_at := toISOString expires;
                           token_hash := hashToken token |} db)
          end
      end
  end.

(** GET /v1/agents/:id *)
Definition get_agent (id : string) (db : Db) : Response :=
  match getAgent id db with
  | None => json_error AGENT_UNAVAILABLE "Agent not found" 404
  | Some stored => respond (BCard (card stored)) 200
  end.

(** PUT /v1/agents/:id *)
Definition put_agent (id : string) (authHeader : option string)
           (body : option json) (now : Z) (db : Db) : Response * Db :=
  match bearer authHeader with
  | None => (json_error UNAUTHORIZED "Missing bearer token" 401, db)
  | Some token =>
      match getAgent id db with
      | None => (json_error AGENT_UNAVAILABLE "Agent not found" 404, db)
      | Some stored =>
          if negb (String.eqb (token_hash stored) (hashToken token))
          then (json_error UNAUTHORIZED "Invalid token" 403, db)
          else
            match body with
            | None => (json_error INVALID_MESSAGE "Invalid JSON body" 400, db)
            | Some body =>
                match AgentCardSchema body with
                | inl issues =>
                    (json_error INVALID_MESSAGE
                       ("Validation failed: " ++ Str.join ", " issues) 400, db)
                | inr data =>
                    let card := set_agent_id id data in
                    let expires := (now + thirty_days)%Z in
                    (respond (BUpdated id (toISOString expires)) 200,
                     putAgent {| card := card;
                                 registered_at := registered_at stored;
                                 expires_at := toISOString expires;
                                 token_hash := token_hash stored |} db)
                end
            end
      end
  end.

(** DELETE /v1/agents/:id *)
Definition delete_agent (id : string) (authHeader : option string) (db : Db)
  : Response * Db :=
  match bearer authHeader with
  | None => (json_error UNAUTHORIZED "Missing bearer token" 401, db)
  | Some token =>
      match getAgent id db with
      | None => (json_error AGENT_UNAVAILABLE "Agent not found" 404, db)
      | Some stored =>
          if negb (String.eqb (token_hash stored) (hashToken token))
          then (json_error UNAUTHORIZED "Invalid token" 403, db)
          else (respond BEmpty 204, snd (deleteAgent id db))
      end
  end.

(** POST /v1/relay *)
Definition post_relay (authHeader : option string) (body : option json)
           (rand : string) (now : Z) (db : Db) : Response * Db :=
  match resolveAgent authHeader db with
  | None =>
      (json_error UNAUTHORIZED "Must be a registered agent to send messages" 401,
       db)
  | Some (authAgentId, _) =>
      match body with
      | None => (json_error INVALID_MESSAGE "Invalid JSON body" 400, db)
      | Some body =>
          match MessageSchema body with
          | inl issues =>
              (json_error INVALID_MESSAGE
                 ("Invalid message: " ++ Str.join ", " issues) 400, db)
          | inr msg =>
              if negb (String.eqb (msg_from msg) authAgentId)
              then (json_error UNAUTHORIZED "Token does not match sender" 403, db)
              else
                match getAgent (msg_to msg) db with
                | None =>
                    (json_error AGENT_UNAVAILABLE "Recipient agent not found" 404,
                     db)
                | Some recipient =>
                    let relayId := generateId "relay_" rand in
                    match storeMessage
                            {| new_id := relayId;
                               new_conversation_id := msg_conversation_id msg;
                               new_from_agent := msg_from msg;
                               new_to_agent := msg_to msg;
                               new_intent := msg_intent msg;
                               new_message_json := stringify body |}
                            (sqlite_datetime now) db
                    with
                    | None => (uncaught, db)
                    | Some db' => (respond (BQueued relayId) 201, db')
                    end
                end
          end
      end
  end.

(** POST /v1/relay/:id/ack *)
Definition post_relay_ack (relayId : string) (authHeader : option string)
           (db : Db) : Response * Db :=
  match resolveAgent authHeader db with
  | None => (json_error UNAUTHORIZED "Unauthorized" 401, db)
  | Some (authAgentId, _) =>
      let (acked, db') := ackMessage relayId authAgentId db in
      if negb acked
      then (json_error INVALID_MESSAGE
              "Message not found or already acknowledged" 404, db')
      else (respond BAcknowledged 200, db')
  end.

End Handlers.
End Server.

(** ** The directory over the in-memory store (directory/src/server.ts,
    first version) *)

Module MemServer.
Import Json Model Js Http.

Section Handlers.
Context {P : Platform}.

Definition hashToken (token : string) : string := sha256_hex token.

(** POST /v1/agents *)
Definition post_agents (authHeader : option string) (body : option json)
           (rand : string) (now : Z) (store : AgentStore.t)
  : Response * AgentStore.t :=
  match bearer authHeader with
  | None => (json_error UNAUTHORIZED "Missing bearer token" 401, store)
  | Some token =>
      match body with
      | None => (json_error INVALID_MESSAGE "Invalid JSON body" 400, store)
      | Some body =>
          match AgentCardSchema body with
          | inl issues =>
              (json_error INVALID_MESSAGE
                 ("Validation failed: " ++ Str.join ", " issues) 400, store)
          | inr data =>
              let id := agentId rand in
              let card := set_agent_id id data in
              let expires := (now + thirty_days)%Z in
              let stored := {| card := card;
                               registered_at := toISOString now;
                               expires_at := toISOString expires;
                               token_hash := hashToken token |} in
              (respond (BRegistered id (registered_at stored) (expires_at stored))
                    201,
               AgentStore.put stored store)
          end
      end
  end.

(** GET /v1/agents/:id *)
Definition get_agent (id : string) (store : AgentStore.t) : Response :=
  match AgentStore.get id store with
  | None => json_error AGENT_UNAVAILABLE "Agent not found" 404
  | Some stored => respond (BCard (card stored)) 200
  end.

(** PUT /v1/agents/:id *)
Definition put_agent (id : string) (authHeader : option string)
           (body : option json) (now : Z) (store : AgentStore.t)
  : Response * AgentStore.t :=
  match bearer authHeader with
  | None => (json_error UNAUTHORIZED "Missing bearer token" 401, store)
  | Some token =>
      match AgentStore.get id store with
      | None => (json_error AGENT_UNAVAILABLE "Agent not found" 404, store)
      | Some stored =>
          if negb (String.eqb (token_hash stored) (hashToken token))
          then (json_error UNAUTHORIZED "Invalid token" 403, store)
          else
            match body with
            | None => (json_error INVALID_MESSAGE "Invalid JSON body" 400, store)
            | Some body =>
                match AgentCardSchema body with
                | inl issues =>
                    (json_error INVALID_MESSAGE
                       ("Validation failed: " ++ Str.join ", " issues) 400,
                     store)
                | inr data =>
                    let card := set_agent_id id data in
                    let expires := (now + thirty_days)%Z in
                    (respond (BUpdated id (toISOString expires)) 200,
                     AgentStore.put {| card := card;
                                       registered_at := registered_at stored;
                                       expires_at := toISOString expires;
                                       token_hash := token_hash stored |} store)
                end
            end
      end
  end.

(** DELETE /v1/agents/:id *)
Definition delete_agent (id : string) (authHeader : option string)
           (store : AgentStore.t) : Response * AgentStore.t :=
  match bearer authHeader with
  | None => (json_error UNAUTHORIZED "Missing bearer token" 401, store)
  | Some token =>
      match AgentStore.get id store with
      | None => (json_error AGENT_UNAVAILABLE "Agent not found" 404, store)
      | Some stored =>
          if negb (String.eqb (token_hash stored) (hashToken token))
          then (json_error UNAUTHORIZED "Invalid token" 403, store)
          else (respond BEmpty 204, snd (AgentStore.delete id store))
      end
  end.

End Handlers.
End MemServer.

(** ** An instance of the platform, for running the handlers

    The clock formats are computed.  The digest and the lower-casing are
    stand-ins (no statement below depends on which functions they are).
    The schemas read the fields the handlers use. *)

Module Demo.
Import Json Model Js.
Local Open Scope Z_scope.

(** Days since 1970-01-01 to (year, month, day), proleptic Gregorian. *)
Definition civil_from_days (days : Z) : Z * Z * Z :=
  let z := days + 719468 in
  let era := z / 146097 in
  let doe := z - era * 146097 in
  let yoe := (doe - doe / 1460 + doe / 36524 - doe / 146096) / 365 in
  let doy := doe - (365 * yoe + yoe / 4 - yoe / 100) in
  let mp := (5 * doy + 2) / 153 in
  let d := doy - (153 * mp + 2) / 5 + 1 in
  let m := if mp <? 10 then mp + 3 else mp - 9 in
  let y := yoe + era * 400 in
  (if m <=? 2 then y + 1 else y, m, d).

Definition digit (n : Z) : string :=
  String (ascii_of_N (48 + Z.to_N (n mod 10))) "".

Definition pad2 (n : Z) : string := (digit (n / 10) ++ digit n)%string.
Definition pad3 (n : Z) : string := (digit (n / 100) ++ pad2 n)%string.
Definition pad4 (n : Z) : string := (digit (n / 1000) ++ pad3 n)%string.

Definition date_text (ms : Z) : string :=
  let '(y, m, d) := civil_from_days (ms / 86400000) in
  (pad4 y ++ "-" ++ pad2 m ++ "-" ++ pad2 d)%string.

Definition time_text (ms : Z) : string :=
  let s := (ms mod 86400000) / 1000 in
  (pad2 (s / 3600) ++ ":" ++ pad2 (s / 60 mod 60) ++ ":" ++ pad2 (s mod 60))%string.

(** [Date.prototype.toISOString], for the years 0000 to 9999. *)
Definition iso (ms : Z) : string :=
  (date_text ms ++ "T" ++ time_text ms ++ "." ++ pad3 (ms mod 1000) ++ "Z")%string.

(** SQLite's [datetime('now')]. *)
Definition datetime (ms : Z) : string :=
  (date_text ms ++ " " ++ time_text ms)%string.

Definition digest (token : string) : string := ("sha256:" ++ token)%string.

(** A lower-casing for running the searches on ASCII text: it folds the
    letters A to Z and leaves every other byte. *)
Definition lower_char (c : ascii) : ascii :=
  let n := N_of_ascii c in
  if ((65 <=? n) && (n <=? 90))%N then ascii_of_N (n + 32)%N else c.

Fixpoint ascii_lower (s : string) : string :=
  match s with
  | EmptyString => EmptyString
  | String c r => String (lower_char c) (ascii_lower r)
  end.

#[export] Instance casing : Casing := {
  toLowerCase := ascii_lower
}.

Definition field_string (k : string) (fs : list field) : option string :=
  match Js.map_get k fs with
  | Some (JStr s) => Some s
  | _ => None
  end.

Fixpoint strings_of (xs : list json) : option (list string) :=
  match xs with
  | [] => Some []
  | JStr s :: r => option_map (cons s) (strings_of r)
  | _ :: _ => None
  end.

Definition field_strings (k : string) (fs : list field) : option (list string) :=
  match Js.map_get k fs with
  | Some (JArr xs) => strings_of xs
  | _ => None
  end.

Definition is_url (s : string) : bool :=
  (startsWith s "http://" && Nat.ltb 7 (String.length s))
  || (startsWith s "https://" && Nat.ltb 8 (String.length s)).

Definition issue (ok : bool) (message : string) : list string :=
  if ok then [] else [message].

(** Modelled from the spec: [AgentCardSchema] (core/src/schema.ts): the
    agent prefix, a non-empty name, an HTTP or HTTPS endpoint, non-empty
    capabilities and intents.  Of the optional fields this instance reads
    the description. *)
Definition card_schema (body : json) : list string + AgentCard :=
  match body with
  | JObj fs =>
      match field_string "squadklaw" fs, field_string "agent_id" fs,
            field_string "name" fs, field_string "endpoint" fs,
            field_string "public_key" fs, field_strings "capabilities" fs,
            field_strings "intents" fs with
      | Some v, Some aid, Some nm, Some ep, Some pk, Some caps, Some ints =>
          let issues :=
            (issue (startsWith aid "sk_") "agent_id must start with sk_"
             ++ issue (negb (String.eqb nm "")) "name must not be empty"
             ++ issue (is_url ep) "endpoint must be a URL"
             ++ issue (negb (Nat.eqb (length caps) 0)) "capabilities must not be empty"
             ++ issue (negb (Nat.eqb (length ints) 0)) "intents must not be empty")%list in
          match issues with
          | [] =>
              inr {| squadklaw := v; agent_id := aid; name := nm;
                     description := field_string "description" fs;
                     owner := None; endpoint := ep; public_key := pk;
                     capabilities := caps; intents := ints;
                     availability := None; access_control := None;
                     metadata := None |}
          | _ => inl issues
          end
      | _, _, _, _, _, _, _ => inl ["Required"]
      end
  | _ => inl ["Expected object"]
  end.

Definition is_digit (c : ascii) : bool :=
  let n := N_of_ascii c in ((48 <=? n) && (n <=? 57))%N.

(** The shape [YYYY-MM-DDTHH:MM:SS.mmmZ]. *)
Definition is_iso (s : string) : bool :=
  match list_ascii_of_string s with
  | [y1; y2; y3; y4; d1; m1; m2; d2; a1; a2; t; h1; h2; c1; n1; n2; c2; s1; s2;
     p; f1; f2; f3; z] =>
      forallb is_digit [y1; y2; y3; y4; m1; m2; a1; a2; h1; h2; n1; n2; s1; s2;
                        f1; f2; f3]
      && String.eqb (string_of_list_ascii [d1; d2; t; c1; c2; p; z]) "--T::.Z"
  | _ => false
  end.

(** Modelled from the spec: [MessageSchema] (core/src/schema.ts): the
    message, conversation and agent prefixes, an ISO-8601 timestamp, a
    non-empty signature, an object as payload. *)
Definition message_schema (body : json) : list string + Message :=
  match body with
  | JObj fs =>
      match field_string "squadklaw" fs, field_string "message_id" fs,
            field_string "conversation_id" fs, field_string "from" fs,
            field_string "to" fs, field_string "timestamp" fs,
            field_string "intent" fs, Js.map_get "payload" fs,
            field_string "signature" fs with
      | Some v, Some mid, Some cid, Some src, Some dst, Some ts, Some it,
        Some (JObj pl), Some sg =>
          let issues :=
            (issue (startsWith mid "msg_") "message_id must start with msg_"
             ++ issue (startsWith cid "conv_") "conversation_id must start with conv_"
             ++ issue (startsWith src "sk_") "from must start with sk_"
             ++ issue (startsWith dst "sk_") "to must start with sk_"
             ++ issue (is_iso ts) "timestamp must be ISO 8601"
             ++ issue (negb (String.eqb sg "")) "signature must not be empty")%list in
          match issues with
          | [] =>
              inr {| msg_squadklaw := v; msg_message_id := mid;
                     msg_conversation_id := cid; msg_from := src;
                     msg_to := dst; msg_timestamp := ts; msg_intent := it;
                     msg_payload := JObj pl; msg_signature := sg |}
          | _ => inl issues
          end
      | _, _, _, _, _, _, _, _, _ => inl ["Required"]
      end
  | _ => inl ["Expected object"]
  end.

#[export] Instance platform : Platform := {
  sha256_hex := digest;
  toISOString := iso;
  sqlite_datetime := datetime;
  AgentCardSchema := card_schema;
  MessageSchema := message_schema
}.

(** Request bodies. *)

Definition card_body (aid nm : string) (caps : list string) : json :=
  JObj [("squadklaw", JStr "0.1.0"); ("agent_id", JStr aid); ("name", JStr nm);
        ("endpoint", JStr "https://example.com/squadklaw");
        ("public_key", JStr "test-public-key");
        ("capabilities", JArr (map JStr caps));
        ("intents", JArr [JStr "mesh.schedule"])].

Definition message_body (src dst : string) : json :=
  JObj [("squadklaw", JStr "0.1.0"); ("message_id", JStr "msg_abc123def456");
        ("conversation_id", JStr "conv_abc123def456");
        ("from", JStr src); ("to", JStr dst);
        ("timestamp", JStr "2026-02-20T10:00:00.000Z");
        ("intent", JStr "mesh.schedule");
        ("payload", JObj [("action", JStr "propose")]);
        ("signature", JStr "base64signature")].

End Demo.

(** ** Two small directories, built through the handlers

    Bob registers first and is handed the identifier ending in b's; Alice
    registers a second later and is handed the one ending in a's. *)

Module Scenario.
Import Json Model Js Search Http Demo.

Definition bob_rand : string := "bbbbbbbbbbbbbbbb".
Definition alice_rand : string := "aaaaaaaaaaaaaaaa".
Definition bob_id : string := agentId bob_rand.
Definition alice_id : string := agentId alice_rand.

Definition bob_body : json := card_body "sk_chosen_by_bob" "Bob" ["scheduling"].
Definition alice_body : json :=
  card_body "sk_chosen_by_alice" "Alice" ["scheduling"; "negotiation"].

Definition mem_two : AgentStore.t :=
  let s1 := snd (MemServer.post_agents (Some "Bearer bob-token") (Some bob_body)
                                       bob_rand 0 AgentStore.empty) in
  snd (MemServer.post_agents (Some "Bearer alice-token") (Some alice_body)
                             alice_rand 1000 s1).

Definition db_two : Store.Db :=
  let d1 := snd (Server.post_agents (Some "Bearer bob-token") (Some bob_body)
                                    bob_rand 0 Store.empty) in
  snd (Server.post_agents (Some "Bearer alice-token") (Some alice_body)
                          alice_rand 1000 d1).

(** Every agent able to schedule, one per page. *)
Definition one_by_one : Query :=
  {| q_capability := Some "scheduling"; q_intent := None; q_q := None;
     q_limit := 1; q_cursor := None |}.

Definition everyone (limit : nat) (c : option string) : Query :=
  {| q_capability := None; q_intent := None; q_q := None;
     q_limit := limit; q_cursor := c |}.

(** The next page is asked with the cursor of Carol, who is not
    registered. *)
Definition after_carol_left : Query :=
  with_cursor (Some (Base64.encode "sk_cccccccccccccccc")) one_by_one.

Definition ids_of (r : option Result) : option (list string) :=
  option_map (fun r => map agent_id (agents r)) r.

Definition cursor_of (r : option Result) : option string :=
  match r with
  | Some r => cursor r
  | None => None
  end.

End Scenario.

(** ** What a store holds for a query, and a store with other expiry dates *)

Module Reading.
Import Model Js Search.

(** The cards a query selects, before the cursor and the page size. *)
Definition mem_matching {C : Casing} (store : AgentStore.t) (query : Query)
  : list AgentCard :=
  filtered query (map card (map_values store)).

Definition db_matching {C : Casing} (db : Store.Db) (query : Query)
  : list AgentCard :=
  filtered query
           (map Store.card_json
                (sort_by Store.row_agent_id (Store.agents_table db))).

(** The same record with its expiry date rewritten by [e]. *)
Definition reexpire (e : string -> string) (a : StoredAgent) : StoredAgent :=
  {| card := card a;
     registered_at := registered_at a;
     expires_at := e (expires_at a);
     token_hash := token_hash a |}.

Definition reexpire_row (e : string -> string) (r : Store.AgentRow)
  : Store.AgentRow :=
  {| Store.row_agent_id := Store.row_agent_id r;
     Store.card_json := Store.card_json r;
     Store.row_token_hash := Store.row_token_hash r;
     Store.row_registered_at := Store.row_registered_at r;
     Store.row_expires_at := e (Store.row_expires_at r) |}.

Definition mem_reexpire (e : string -> string) (store : AgentStore.t)
  : AgentStore.t :=
  map (fun kv => (fst kv, reexpire e (snd kv))) store.

Definition db_reexpire (e : string -> string) (db : Store.Db) : Store.Db :=
  Store.with_agents (map (reexpire_row e) (Store.agents_table db)) db.

End Reading.

(** ** The records of the two small directories, and a busier one *)

Module Records.
Import Json Model Js Search Http Demo Scenario.

Definition bob_card : AgentCard :=
  {| squadklaw := "0.1.0"; agent_id := bob_id; name := "Bob";
     description := None; owner := None;
     endpoint := "https://example.com/squadklaw";
     public_key := "test-public-key";
     capabilities := ["scheduling"]; intents := ["mesh.schedule"];
     availability := None; access_control := None; metadata := None |}.

Definition bob_record : StoredAgent :=
  {| card := bob_card;
     registered_at := "1970-01-01T00:00:00.000Z";
     expires_at := "1970-01-31T00:00:00.000Z";
     token_hash := digest "bob-token" |}.

(** Bob's card with a new name, sent under an identifier of his choosing. *)
Definition bob_renamed : json :=
  card_body "sk_another_identifier" "Robert" ["scheduling"].

Definition day : Z := 24 * 60 * 60 * 1000.

(** Bob registers on day 0, Alice on day 45; on day 60 Bob's registration
    is 30 days past its expiry and Alice's has 15 days left. *)
Definition db_day45 : Store.Db :=
  let d1 := snd (Server.post_agents (Some "Bearer bob-token") (Some bob_body)
                                    bob_rand 0 Store.empty) in
  snd (Server.post_agents (Some "Bearer alice-token") (Some alice_body)
                          alice_rand (45 * day) d1).

Definition to_bob : json := message_body alice_id bob_id.

(** Alice's message to Bob, queued on day 60. *)
Definition db_queued : Store.Db :=
  snd (Server.post_relay (Some "Bearer alice-token") (Some to_bob)
                         "0123456789abcdef" (60 * day) db_day45).

Definition queued_id : string := "relay_0123456789abcdef".

End Records.

(** ** The queue invariant

    What the primary key of [messages] keeps: one entry per relay
    identifier. *)

Module QueueInvariant.

Definition queue_ok (db : Store.Db) : Prop :=
  NoDup (map Store.id (Store.messages_table db)).

(** An entry waiting for [agentId]. *)
Definition waiting_for (agentId : string) (r : Store.StoredMessage) : bool :=
  String.eqb (Store.to_agent r) agentId && (Store.delivered r =? 0)%Z.

(** The same database with every card rewritten by [f]; the columns of the
    table stay as they are. *)
Definition recard (f : Model.AgentCard -> Model.AgentCard) (db : Store.Db)
  : Store.Db :=
  Store.with_agents
    (map (fun r =>
            {| Store.row_agent_id := Store.row_agent_id r;
               Store.card_json := f (Store.card_json r);
               Store.row_token_hash := Store.row_token_hash r;
               Store.row_registered_at := Store.row_registered_at r;
               Store.row_expires_at := Store.row_expires_at r |})
         (Store.agents_table db))
    db.

(** The entry POST /v1/relay writes for a message. *)
Definition queued_entry {P : Platform} (rand : string) (now : Z)
           (b : Json.json) (msg : Model.Message) : Store.StoredMessage :=
  {| Store.id := Http.generateId "relay_" rand;
     Store.conversation_id := Model.msg_conversation_id msg;
     Store.from_agent := Model.msg_from msg;
     Store.to_agent := Model.msg_to msg;
     Store.intent := Model.msg_intent msg;
     Store.message_json := Json.stringify b;
     Store.created_at := sqlite_datetime now;
     Store.delivered := 0 |}.

End QueueInvariant.

(** ** The handlers that only read (directory/src/server.ts)

    The health check, discovery and polling.  Their bodies are listings, so
    they get a response type of their own. *)

Module Reads.
Import Json Model Js Search Http.

(** [parseInt(s, 10)]: leading white space, an optional sign, the longest
    run of digits; [None] stands for NaN.  The white space and line
    terminators it skips are, in UTF-8, of one byte (tab, line feed,
    vertical tab, form feed, carriage return, space), of two (U+00A0) or of
    three (U+1680, U+2000 to U+200A, U+2028, U+2029, U+202F, U+205F, U+3000
    and U+FEFF). *)
Definition is_blank (c : ascii) : bool :=
  match N_of_ascii c with
  | 32%N | 9%N | 10%N | 11%N | 12%N | 13%N => true
  | _ => false
  end.

Definition is_blank2 (c1 c2 : ascii) : bool :=
  ((N_of_ascii c1 =? 194) && (N_of_ascii c2 =? 160))%N.

Definition is_blank3 (c1 c2 c3 : ascii) : bool :=
  let a := N_of_ascii c1 in
  let b := N_of_ascii c2 in
  let d := N_of_ascii c3 in
  ((a =? 225) && (b =? 154) && (d =? 128)
   || (a =? 226) && (b =? 128)
      && ((128 <=? d) && (d <=? 138) || (d =? 168) || (d =? 169) || (d =? 175))
   || (a =? 226) && (b =? 129) && (d =? 159)
   || (a =? 227) && (b =? 128) && (d =? 128)
   || (a =? 239) && (b =? 187) && (d =? 191))%N.

Fixpoint skip_blanks (s : string) : string :=
  match s with
  | String c1 r1 =>
      if is_blank c1 then skip_blanks r1
      else match r1 with
           | String c2 r2 =>
               if is_blank2 c1 c2 then skip_blanks r2
               else match r2 with
                    | String c3 r3 =>
                        if is_blank3 c1 c2 c3 then skip_blanks r3 else s
                    | EmptyString => s
                    end
           | EmptyString => s
           end
  | EmptyString => s
  end.

Definition digit_value (c : ascii) : option Z :=
  let n := N_of_ascii c in
  if ((48 <=? n) && (n <=? 57))%N then Some (Z.of_N (n - 48)) else None.

(** The digits read so far are worth [acc]; [seen] tells whether there was
    one. *)
Fixpoint read_digits (s : string) (acc : Z) (seen : bool) : option Z :=
  match s with
  | String c r =>
      match digit_value c with
      | Some d => read_digits r (10 * acc + d)%Z true
      | None => if seen then Some acc else None
      end
  | EmptyString => if seen then Some acc else None
  end.

Definition parseInt10 (s : string) : option Z :=
  match skip_blanks s with
  | String c r =>
      if Ascii.eqb c "-"%char then option_map Z.opp (read_digits r 0 false)
      else if Ascii.eqb c "+"%char then read_digits r 0 false
      else read_digits (String c r) 0 false
  | EmptyString => None
  end.

(** The integers at or below this one are parsed to a double at or below
    -2^63: [parseInt] rounds to the nearest double, and the doubles next to
    -2^63 are 1024 apart on the side of zero. *)
Definition lowest_limit : Z := - (2 ^ 63 - 512).

(** [Math.min(parseInt(s, 10), 100)] as SQLite receives it in [LIMIT ?].
    The number is a double and is bound as a REAL.  SQLite takes it when it
    converts to a 64-bit integer without loss and is not an end of the
    range; NaN is bound as NULL.  What it does not take makes the
    statement throw (SQLITE_MISMATCH): [None]. *)
Definition bound_limit (parsed : option Z) : option Z :=
  match parsed with
  | None => None
  | Some n =>
      let limit := Z.min n 100 in
      if (limit <=? lowest_limit)%Z then None else Some limit
  end.

Record RawQuery : Type := {
  raw_capability : option string;
  raw_intent : option string;
  raw_q : option string;
  raw_limit : option string;
  raw_cursor : option string
}.

Record Polled : Type := {
  relay_id : string;
  message_text : string;
  polled_created_at : string
}.

Inductive Listing : Type :=
| LError (code : ErrorCode) (message : string) (retry : bool)
| LHealth (name version : string) (agents : nat)
| LAgents (r : Result)
| LMessages (messages : list Polled)
| LUncaught.

Definition polled_of (row : Store.StoredMessage) : Polled :=
  {| relay_id := Store.id row;
     message_text := Store.message_json row;
     polled_created_at := Store.created_at row |}.

Section Handlers.
Context {P : Platform} {C : Casing}.
(** [DirectoryQuerySchema.safeParse] of core/src/schema.ts. *)
Variable DirectoryQuerySchema : RawQuery -> list string + Query.

(** GET / *)
Definition get_root (db : Store.Db) : Z * Listing :=
  (200%Z, LHealth "Squad Klaw Directory" "0.1.0" (Store.countAgents db)).

(** GET /v1/agents.  A search that throws is not caught: 500. *)
Definition get_agents (raw : RawQuery) (db : Store.Db) : Z * Listing :=
  match DirectoryQuerySchema raw with
  | inl issues =>
      (400%Z, LError INVALID_MESSAGE
                     ("Invalid query: " ++ Str.join ", " issues) false)
  | inr data =>
      match Store.searchAgents db data with
      | Some results => (200%Z, LAgents results)
      | None => (500%Z, LUncaught)
      end
  end.

(** GET /v1/relay.  The [message] of an item is sent as the JSON value its
    stored text parses to; here the item carries the text.  A limit that
    SQLite does not take makes the store function throw, which is not
    caught: 500. *)
Definition get_relay (authHeader : option string) (conversation : option string)
           (limit_param : option string) (db : Store.Db) : Z * Listing :=
  match Server.resolveAgent authHeader db with
  | None =>
      (401%Z, LError UNAUTHORIZED
                     "Must be a registered agent to poll messages" false)
  | Some (authAgentId, _) =>
      match bound_limit
              (parseInt10 (match limit_param with Some s => s | None => "50" end))
      with
      | None => (500%Z, LUncaught)
      | Some limit =>
          let rows :=
            match truthy conversation with
            | Some c => Store.getMessagesInConversation c authAgentId limit db
            | None => Store.getMessagesFor authAgentId limit db
            end in
          (200%Z, LMessages (map polled_of rows))
      end
  end.

(** The in-memory server: GET / and GET /v1/agents. *)
Definition mem_get_root (store : AgentStore.t) : Z * Listing :=
  (200%Z, LHealth "Squad Klaw Directory" "0.1.0" (AgentStore.count store)).

Definition mem_get_agents (raw : RawQuery) (store : AgentStore.t) : Z * Listing :=
  match DirectoryQuerySchema raw with
  | inl issues =>
      (400%Z, LError INVALID_MESSAGE
                     ("Invalid query: " ++ Str.join ", " issues) false)
  | inr data =>
      match AgentStore.search store data with
      | Some results => (200%Z, LAgents results)
      | None => (500%Z, LUncaught)
      end
  end.

End Handlers.
End Reads.

(** ** What a query asks of a card *)

Module Meaning.
Import Model Js Search.

(** Each filter that is supplied and not empty holds of the card. *)
Definition meets {C : Casing} (query : Query) (a : AgentCard) : Prop :=
  (forall c, truthy (q_capability query) = Some c -> In c (capabilities a))
  /\ (forall i, truthy (q_intent query) = Some i -> In i (intents a))
  /\ (forall s, truthy (q_q query) = Some s ->
        str_includes (toLowerCase (name a)) (toLowerCase s) = true
        \/ exists d, description a = Some d
                     /\ str_includes (toLowerCase d) (toLowerCase s) = true).

Definition with_q (s : option string) (query : Query) : Query :=
  {| q_capability := q_capability query;
     q_intent := q_intent query;
     q_q := s;
     q_limit := q_limit query;
     q_cursor := q_cursor query |}.

(** The query that asks for one capability, 20 to a page. *)
Definition able_to (c : string) : Query :=
  {| q_capability := Some c; q_intent := None; q_q := None;
     q_limit := 20; q_cursor := None |}.

End Meaning.

(** ** A query schema, for running GET /v1/agents *)

Module DemoQuery.
Import Js Search Reads.

Fixpoint all_digits (s : string) : bool :=
  match s with
  | EmptyString => true
  | String c r =>
      match digit_value c with
      | Some _ => all_digits r
      | None => false
      end
  end.

(** Modelled from the spec: [DirectoryQuerySchema] (core/src/schema.ts):
    the limit defaults to 20 and must be an integer from 1 to 100; the
    other parameters pass as they are. *)
Definition query_schema (raw : RawQuery) : list string + Query :=
  let limit :=
    match raw_limit raw with
    | None => Some 20%Z
    | Some s => if all_digits s then read_digits s 0 false else None
    end in
  match limit with
  | Some n =>
      if ((1 <=? n) && (n <=? 100))%Z
      then inr {| q_capability := raw_capability raw;
                  q_intent := raw_intent raw;
                  q_q := raw_q raw;
                  q_limit := Z.to_nat n;
                  q_cursor := raw_cursor raw |}
      else inl ["limit must be between 1 and 100"]
  | None => inl ["limit must be a number"]
  end.

Definition raw_everyone (limit : option string) : RawQuery :=
  {| raw_capability := None; raw_intent := None; raw_q := None;
     raw_limit := limit; raw_cursor := None |}.

End DemoQuery.

(** ** More of the two small directories *)

Module MoreScenario.
Import Json Model Js Search Http Demo Scenario Records.

Definition carol_rand : string := "cccccccccccccccc".
Definition carol_id : string := agentId carol_rand.

Definition carol_body : json :=
  card_body "sk_chosen_by_carol" "Carol" ["scheduling"; "research"].

Definition carol_card : AgentCard :=
  {| squadklaw := "0.1.0"; agent_id := "sk_chosen_by_carol"; name := "Carol";
     description := None; owner := None;
     endpoint := "https://example.com/squadklaw";
     public_key := "test-public-key";
     capabilities := ["scheduling"; "research"]; intents := ["mesh.schedule"];
     availability := None; access_control := None; metadata := None |}.

(** Alice's message to Bob again, with another signature and payload. *)
Definition to_bob_again : json :=
  JObj [("squadklaw", JStr "0.1.0"); ("message_id", JStr "msg_0000000000000002");
        ("conversation_id", JStr "conv_abc123def456");
        ("from", JStr alice_id); ("to", JStr bob_id);
        ("timestamp", JStr "2026-02-21T10:00:00.000Z");
        ("intent", JStr "mesh.message");
        ("payload", JObj [("message", JObj [("body", JStr "hello again")])]);
        ("signature", JStr "anything-at-all")].

(** Bob's message to Alice. *)
Definition to_alice : json := message_body bob_id alice_id.

(** Every card set to admit nobody and to block Alice. *)
Definition block_alice (c : AgentCard) : AgentCard :=
  {| squadklaw := squadklaw c; agent_id := agent_id c; name := name c;
     description := description c; owner := owner c; endpoint := endpoint c;
     public_key := public_key c; capabilities := capabilities c;
     intents := intents c; availability := availability c;
     access_control :=
       Some {| mode := ModeAllowlist; allowlist := Some [];
               block := Some [alice_id] |};
     metadata := metadata c |}.

(** The table of [db_two] written in the opposite order. *)
Definition db_two_reversed : Store.Db :=
  Store.with_agents (rev (Store.agents_table db_two)) db_two.

Definition the_page (o : option Result) : Result :=
  match o with
  | Some r => r
  | None => {| agents := []; cursor := None |}
  end.

End MoreScenario.

(** * Part II: properties *)

(** ** Strings *)

Section StrFacts.
Import Str.

Lemma all_app p s t : all p (s ++ t) = all p s && all p t.
Proof.
  induction s as [|c s IH]; simpl; [reflexivity|].
  now rewrite IH, andb_assoc.
Qed.

Lemma all_join p sep l :
  all p sep = true -> Forall (fun s => all p s = true) l ->
  all p (join sep l) = true.
Proof.
  intros Hsep H. induction H as [|x r Hx Hr IH]; [reflexivity|].
  destruct r as [|y r]; [exact Hx|].
  change (all p (x ++ sep ++ join sep (y :: r)) = true).
  now rewrite !all_app, Hx, Hsep, IH.
Qed.

(** [String.leb] is the byte-wise lexicographic order; it is transitive. *)
Lemma compare_trans_le a : forall b c,
  String.compare a b <> Gt -> String.compare b c <> Gt ->
  String.compare a c <> Gt.
Proof.
  induction a as [|x a IH]; intros [|y b] [|z c]; simpl; try congruence.
  unfold Ascii.compare.
  destruct (N.compare_spec (N_of_ascii x) (N_of_ascii y)) as [Exy|Lxy|Gxy];
    destruct (N.compare_spec (N_of_ascii y) (N_of_ascii z)) as [Eyz|Lyz|Gyz];
    destruct (N.compare_spec (N_of_ascii x) (N_of_ascii z)) as [Exz|Lxz|Gxz];
    try congruence; try lia; intros; try discriminate.
  now apply (IH b c).
Qed.

Lemma leb_trans a b c :
  String.leb a b = true -> String.leb b c = true -> String.leb a c = true.
Proof.
  unfold String.leb. intros Hab Hbc.
  pose proof (compare_trans_le a b c) as H.
  destruct (String.compare a b), (String.compare b c), (String.compare a c);
    try reflexivity; try discriminate; exfalso; apply H; congruence.
Qed.

Lemma leb_refl a : String.leb a a = true.
Proof. destruct (String.leb_total a a); assumption. Qed.

End StrFacts.

(** ** Sorting by key *)

Section SortFacts.
Context {A : Type} (key : A -> string).

Lemma insert_by_perm x l : Permutation (insert_by key x l) (x :: l).
Proof.
  induction l as [|h t IH]; simpl; [reflexivity|].
  destruct (String.leb (key x) (key h)); [reflexivity|].
  rewrite IH. apply perm_swap.
Qed.

Lemma sort_by_perm l : Permutation (sort_by key l) l.
Proof.
  induction l as [|h t IH]; simpl; [reflexivity|].
  rewrite insert_by_perm. now constructor.
Qed.

Lemma insert_by_sorted x l :
  StronglySorted (key_le key) l -> StronglySorted (key_le key) (insert_by key x l).
Proof.
  induction 1 as [|h t Ht IH Hh]; simpl.
  - repeat constructor.
  - destruct (String.leb (key x) (key h)) eqn:E.
    + constructor; [now constructor|].
      constructor; [exact E|].
      eapply Forall_impl; [|exact Hh].
      intros y Hy. unfold key_le in *. eapply leb_trans; eassumption.
    + constructor; [exact IH|].
      eapply Permutation_Forall; [symmetry; apply insert_by_perm|].
      constructor; [|exact Hh].
      unfold key_le.
      destruct (String.leb_total (key x) (key h)); congruence.
Qed.

Lemma sort_by_sorted l : StronglySorted (key_le key) (sort_by key l).
Proof.
  induction l as [|h t IH]; simpl; [constructor|].
  now apply insert_by_sorted.
Qed.

Lemma same_key_same_elt (l : list A) x y :
  NoDup (map key l) -> In x l -> In y l -> key x = key y -> x = y.
Proof.
  induction l as [|h t IH]; simpl; [tauto|].
  intros Hnd Hx Hy E. inversion Hnd as [|? ? Hnotin Hnd']; subst.
  destruct Hx as [->|Hx], Hy as [->|Hy]; auto.
  - exfalso. apply Hnotin. rewrite E. now apply in_map.
  - exfalso. apply Hnotin. rewrite <- E. now apply in_map.
Qed.

(** A list with distinct keys has one sorted arrangement. *)
Lemma sorted_perm_unique l : forall l',
  StronglySorted (key_le key) l -> StronglySorted (key_le key) l' ->
  Permutation l l' -> NoDup (map key l) -> l = l'.
Proof.
  induction l as [|x t IH]; intros l' Hs Hs' Hp Hnd.
  - now apply Permutation_nil in Hp.
  - destruct l' as [|y t'].
    + symmetry in Hp. now apply Permutation_nil in Hp.
    + assert (Exy : x = y).
      { apply (same_key_same_elt (x :: t)); auto.
        - now left.
        - apply (Permutation_in _ (Permutation_sym Hp)). now left.
        - assert (Hx : In x (y :: t')) by (apply (Permutation_in _ Hp); now left).
          assert (Hy : In y (x :: t))
            by (apply (Permutation_in _ (Permutation_sym Hp)); now left).
          apply StronglySorted_inv in Hs as [_ Hxt].
          apply StronglySorted_inv in Hs' as [_ Hyt].
          rewrite Forall_forall in Hxt, Hyt.
          destruct Hx as [->|Hx]; [reflexivity|].
          destruct Hy as [->|Hy]; [reflexivity|].
          apply String.leb_antisym; [apply (Hxt _ Hy) | apply (Hyt _ Hx)]. }
      subst y. f_equal.
      apply IH.
      * now apply StronglySorted_inv in Hs.
      * now apply StronglySorted_inv in Hs'.
      * now apply Permutation_cons_inv in Hp.
      * now inversion Hnd.
Qed.

Lemma sort_by_order_irrelevant l l' :
  Permutation l l' -> NoDup (map key l) -> sort_by key l = sort_by key l'.
Proof.
  intros Hp Hnd. apply sorted_perm_unique.
  - apply sort_by_sorted.
  - apply sort_by_sorted.
  - now rewrite !sort_by_perm.
  - eapply Permutation_NoDup; [|exact Hnd].
    apply Permutation_map. symmetry. apply sort_by_perm.
Qed.

Lemma sort_by_keys_sorted l :
  StronglySorted (fun a b => String.leb a b = true) (map key (sort_by key l)).
Proof.
  pose proof (sort_by_sorted l) as H.
  induction H as [|h t Ht IH Hh]; simpl; constructor; auto.
  rewrite Forall_map. exact Hh.
Qed.

Lemma insert_by_forallb p x l :
  forallb p (insert_by key x l) = p x && forallb p l.
Proof.
  induction l as [|h t IH]; simpl; [reflexivity|].
  destruct (String.leb (key x) (key h)); simpl; [reflexivity|].
  rewrite IH. now rewrite !andb_assoc, (andb_comm (p h)).
Qed.

Lemma sort_by_forallb p l : forallb p (sort_by key l) = forallb p l.
Proof.
  induction l as [|h t IH]; simpl; [reflexivity|].
  now rewrite insert_by_forallb, IH.
Qed.

End SortFacts.

(** ** Sorting and filtering commute *)

Section SortFilterFacts.
Context {A : Type} (key : A -> string).
Local Open Scope list_scope.

Lemma insert_by_head x l :
  Forall (key_le key x) l -> insert_by key x l = x :: l.
Proof.
  intros H. destruct l as [|h t]; [reflexivity|].
  simpl. apply Forall_inv in H. unfold key_le in H. now rewrite H.
Qed.

Lemma insert_by_filter p x s :
  StronglySorted (key_le key) s ->
  filter p (insert_by key x s)
  = if p x then insert_by key x (filter p s) else filter p s.
Proof.
  induction 1 as [|h t Ht IH Hh]; simpl.
  - now destruct (p x).
  - destruct (String.leb (key x) (key h)) eqn:E.
    + simpl. destruct (p x) eqn:Ex; [|reflexivity].
      destruct (p h) eqn:Eh.
      * simpl. now rewrite E.
      * symmetry. apply insert_by_head.
        rewrite Forall_forall in *. intros y Hy.
        apply filter_In in Hy as [Hy _].
        unfold key_le in *. eapply leb_trans; [exact E|]. now apply Hh.
    + simpl. rewrite IH. destruct (p h) eqn:Eh; destruct (p x) eqn:Ex; simpl;
        rewrite ?E; reflexivity.
Qed.

(** The stable sort of a selection is the selection of the stable sort. *)
Lemma sort_by_filter p l :
  sort_by key (filter p l) = filter p (sort_by key l).
Proof.
  induction l as [|x l IH]; [reflexivity|].
  simpl. rewrite insert_by_filter by apply sort_by_sorted.
  destruct (p x); simpl; now rewrite IH.
Qed.

Lemma sort_by_In x l : In x (sort_by key l) <-> In x l.
Proof.
  split; apply Permutation_in; [|symmetry]; apply sort_by_perm.
Qed.

Lemma sort_by_length l : length (sort_by key l) = length l.
Proof. apply Permutation_length, sort_by_perm. Qed.

End SortFilterFacts.

(** ** The canonical form *)

Section CanonicalFacts.
Import Json Canonical.

Let norm_field (kv : field) : field := (fst kv, sortKeys (snd kv)).

Lemma sortKeys_obj fs :
  sortKeys (JObj fs) = JObj (sort_fields (map norm_field fs)).
Proof. reflexivity. Qed.

Lemma map_norm_keys fs : map fst (map norm_field fs) = map fst fs.
Proof. rewrite map_map. apply map_ext. reflexivity. Qed.

Lemma map_eq_Forall2 {A B C} (R : A -> B -> Prop) (f : A -> C) (g : B -> C)
      xs ys :
  Forall2 R xs ys -> (forall x y, In x xs -> R x y -> f x = g y) ->
  map f xs = map g ys.
Proof.
  induction 1 as [|x y xs ys Hxy Hrest IH]; intros Hfg; [reflexivity|].
  simpl. f_equal.
  - apply Hfg; [now left|assumption].
  - apply IH. intros x' y' Hin. apply Hfg. now right.
Qed.

(** Values with the same key/value pairs have the same sorted tree. *)
Lemma sortKeys_same_pairs a :
  wf a -> forall v, same_pairs a v -> sortKeys a = sortKeys v.
Proof.
  induction a as [| | | |xs IH|fs IH] using json_ind';
    intros Hwf v Hsp; inversion Hsp; subst; try reflexivity.
  - (* arrays *)
    simpl. f_equal.
    inversion Hwf as [| | | |? Hxs|]; subst.
    rewrite Forall_forall in IH, Hxs.
    eapply map_eq_Forall2; [eassumption|].
    intros x y Hin Hxy. apply IH; auto.
  - (* objects *)
    rewrite !sortKeys_obj. f_equal.
    inversion Hwf as [| | | | |? Hnd Hfs]; subst.
    match goal with H : Forall2 _ fs _ |- _ => rename H into H2 end.
    match goal with H : Permutation _ _ |- _ => rename H into Hp end.
    assert (E : map norm_field fs = map norm_field fs').
    { rewrite Forall_forall in IH, Hfs.
      eapply map_eq_Forall2; [exact H2|].
      intros f g Hin [Hk Hv]. unfold norm_field. rewrite Hk. f_equal.
      apply IH; auto. }
    rewrite E. apply sort_by_order_irrelevant.
    + now apply Permutation_map.
    + rewrite <- E, map_norm_keys. exact Hnd.
Qed.

Lemma same_pairs_refl j : same_pairs j j.
Proof.
  induction j as [| | | |xs IH|fs IH] using json_ind'; try constructor.
  - induction IH; constructor; auto.
  - apply sp_obj with (fs' := fs); [|reflexivity].
    induction IH; constructor; auto.
Qed.

Lemma sortKeys_keys_sorted j : keys_sorted (sortKeys j).
Proof.
  induction j as [| | | |xs IH|fs IH] using json_ind'; try constructor.
  - rewrite Forall_map. exact IH.
  - apply (sort_by_keys_sorted fst).
  - eapply Permutation_Forall; [symmetry; apply sort_by_perm|].
    rewrite Forall_map. exact IH.
Qed.

Lemma strip_signature_keys obj :
  ~ In "signature" (map fst (strip_signature obj)).
Proof.
  unfold strip_signature. rewrite in_map_iff. intros [kv [E Hin]].
  apply filter_In in Hin as [_ Hk]. rewrite E in Hk. discriminate.
Qed.

Lemma strip_signature_idem obj :
  strip_signature (strip_signature obj) = strip_signature obj.
Proof.
  unfold strip_signature. induction obj as [|kv r IH]; [reflexivity|].
  simpl. destruct (negb (fst kv =? "signature")) eqn:E; simpl.
  - rewrite E. now f_equal.
  - exact IH.
Qed.

Lemma strip_signature_same_pairs a b :
  same_pairs (JObj a) (JObj b) ->
  same_pairs (JObj (strip_signature a)) (JObj (strip_signature b)).
Proof.
  intros H. inversion H as [| | | | |? fs' ? H2 Hp]; subst.
  apply sp_obj with (fs' := strip_signature fs').
  - clear Hp H. induction H2 as [|f g fs0 gs0 [Hk Hv] Hrest IH]; [constructor|].
    unfold strip_signature in *. simpl. rewrite Hk.
    destruct (negb (fst g =? "signature")); [constructor; auto|exact IH].
  - unfold strip_signature. clear H2 H.
    induction Hp; simpl.
    + constructor.
    + destruct (negb (fst x =? "signature")); [now constructor|assumption].
    + destruct (negb (fst x =? "signature")), (negb (fst y =? "signature"));
        try reflexivity. apply perm_swap.
    + etransitivity; eassumption.
Qed.

Lemma strip_signature_wf a : wf (JObj a) -> wf (JObj (strip_signature a)).
Proof.
  intros H. inversion H as [| | | | |? Hnd Hfs]; subst.
  constructor.
  - unfold strip_signature. clear Hfs H.
    induction a as [|kv r IH]; simpl; [constructor|].
    inversion Hnd as [|? ? Hnotin Hnd']; subst.
    destruct (negb (fst kv =? "signature")); simpl; auto.
    constructor; auto.
    intros Hin. apply Hnotin. apply in_map_iff in Hin as [x [Ex Hx]].
    apply filter_In in Hx as [Hx _]. rewrite <- Ex. now apply in_map.
  - unfold strip_signature. rewrite Forall_forall in *.
    intros x Hx. apply filter_In in Hx as [Hx _]. auto.
Qed.

End CanonicalFacts.

(** ** No whitespace outside string contents *)

Section WhitespaceFacts.
Import Json Canonical.

Lemma escape_char_no_ws c :
  negb (Ascii.eqb c Str.space) = true -> Str.no_ws (escape_char c) = true.
Proof.
  destruct c as [b0 b1 b2 b3 b4 b5 b6 b7].
  destruct b0, b1, b2, b3, b4, b5, b6, b7; intros H;
    solve [reflexivity | discriminate H].
Qed.

Lemma escape_no_ws s : Str.no_space s = true -> Str.no_ws (escape s) = true.
Proof.
  unfold Str.no_space, Str.no_ws.
  induction s as [|c s IH]; simpl; [reflexivity|].
  intros H. apply andb_prop in H as [Hc Hs].
  rewrite all_app. apply andb_true_intro. split.
  - now apply escape_char_no_ws.
  - now apply IH.
Qed.

Lemma quote_no_ws s : Str.no_space s = true -> Str.no_ws (quote s) = true.
Proof.
  intros H. unfold quote, Str.no_ws. simpl.
  rewrite all_app. apply andb_true_intro. split; [|reflexivity].
  now apply escape_no_ws.
Qed.

Lemma number_char_no_ws c : number_char c = true -> negb (Str.is_ws c) = true.
Proof.
  destruct c as [b0 b1 b2 b3 b4 b5 b6 b7].
  destruct b0, b1, b2, b3, b4, b5, b6, b7; intros H;
    solve [reflexivity | discriminate H].
Qed.

Lemma all_impl (p q : ascii -> bool) s :
  (forall c, p c = true -> q c = true) ->
  Str.all p s = true -> Str.all q s = true.
Proof.
  intros Hpq. induction s as [|c s IH]; simpl; [reflexivity|].
  intros H. apply andb_prop in H as [Hc Hs].
  now rewrite (Hpq c Hc), IH.
Qed.

Lemma is_number_chars n : is_number n = true -> Str.all number_char n = true.
Proof. now destruct n. Qed.

(** A finite number is serialised as its text. *)
Lemma number_text_finite n : is_number n = true -> number_text n = n.
Proof.
  intros H. unfold number_text.
  destruct (String.eqb_spec n "Infinity") as [->|_]; [discriminate H|].
  destruct (String.eqb_spec n "-Infinity") as [->|_]; [discriminate H|].
  destruct (String.eqb_spec n "NaN") as [->|_]; [discriminate H|].
  reflexivity.
Qed.

Lemma number_text_no_ws n : is_number n = true -> Str.no_ws (number_text n) = true.
Proof.
  intros H. rewrite number_text_finite by exact H.
  apply (all_impl number_char); [apply number_char_no_ws|].
  now apply is_number_chars.
Qed.

Lemma bracket_no_ws (l r : ascii) body :
  Str.is_ws l = false -> Str.is_ws r = false -> Str.no_ws body = true ->
  Str.no_ws (String l "" ++ body ++ String r "") = true.
Proof.
  intros Hl Hr Hb. unfold Str.no_ws in *.
  rewrite !all_app, Hb. simpl. now rewrite Hl, Hr.
Qed.

Lemma stringify_no_ws j :
  finite j = true -> space_free j = true -> Str.no_ws (stringify j) = true.
Proof.
  induction j as [|b|n|s|xs IH|fs IH] using json_ind'; intros Hf H.
  - reflexivity.
  - now destruct b.
  - now apply number_text_no_ws.
  - now apply quote_no_ws.
  - cbn [stringify space_free finite] in *.
    apply bracket_no_ws; try reflexivity.
    apply all_join; [reflexivity|].
    rewrite Forall_map. rewrite forallb_forall in H, Hf.
    rewrite Forall_forall in *. auto.
  - cbn [stringify space_free finite] in *.
    apply bracket_no_ws; try reflexivity.
    apply all_join; [reflexivity|].
    rewrite Forall_map. rewrite forallb_forall in H, Hf.
    rewrite Forall_forall in *. intros kv Hin.
    specialize (H kv Hin). apply andb_prop in H as [Hk Hv].
    rewrite !all_app. fold (Str.no_ws (quote (fst kv))).
    rewrite (quote_no_ws _ Hk). simpl.
    apply IH; auto.
Qed.

Lemma sortKeys_finite j : finite j = true -> finite (sortKeys j) = true.
Proof.
  induction j as [|b|n|s|xs IH|fs IH] using json_ind'; intros H; auto.
  - simpl in *. rewrite forallb_forall in *. rewrite Forall_forall in IH.
    intros x Hx. apply in_map_iff in Hx as [y [<- Hy]]. auto.
  - simpl in *. unfold sort_fields. rewrite sort_by_forallb.
    rewrite forallb_forall in *. rewrite Forall_forall in IH.
    intros x Hx. apply in_map_iff in Hx as [y [<- Hy]]. simpl. auto.
Qed.

Lemma strip_signature_finite obj :
  finite (JObj obj) = true -> finite (JObj (strip_signature obj)) = true.
Proof.
  simpl. rewrite !forallb_forall. intros H x Hx.
  apply filter_In in Hx as [Hx _]. auto.
Qed.

Lemma canonical_tree_finite obj :
  finite (JObj obj) = true -> finite (canonical_tree obj) = true.
Proof. intros H. now apply sortKeys_finite, strip_signature_finite. Qed.

Lemma sortKeys_space_free j : space_free j = true -> space_free (sortKeys j) = true.
Proof.
  induction j as [|b|n|s|xs IH|fs IH] using json_ind'; intros H; auto.
  - simpl in *. rewrite forallb_forall in *. rewrite Forall_forall in IH.
    intros x Hx. apply in_map_iff in Hx as [y [<- Hy]]. auto.
  - simpl in *. unfold sort_fields. rewrite sort_by_forallb.
    rewrite forallb_forall in *. rewrite Forall_forall in IH.
    intros x Hx. apply in_map_iff in Hx as [y [<- Hy]]. simpl.
    specialize (H y Hy). apply andb_prop in H as [Hk Hv].
    rewrite Hk. simpl. auto.
Qed.

Lemma strip_signature_space_free obj :
  space_free (JObj obj) = true -> space_free (JObj (strip_signature obj)) = true.
Proof.
  simpl. rewrite !forallb_forall. intros H x Hx.
  apply filter_In in Hx as [Hx _]. auto.
Qed.

Lemma canonicalize_no_ws obj :
  finite (JObj obj) = true ->
  space_free (JObj obj) = true -> Str.no_ws (canonicalize obj) = true.
Proof.
  intros Hf H. apply stringify_no_ws.
  - now apply canonical_tree_finite.
  - now apply sortKeys_space_free, strip_signature_space_free.
Qed.

(** Counting instead: every whitespace character of the output is a space
    of a key or of a string value. *)

Lemma count_app p s t : Str.count p (s ++ t) = Str.count p s + Str.count p t.
Proof.
  induction s as [|c s IH]; simpl; [reflexivity|]. rewrite IH. lia.
Qed.

Lemma count_join p sep l :
  Str.count p sep = 0 ->
  Str.count p (Str.join sep l) = list_sum (map (Str.count p) l).
Proof.
  intros Hsep. induction l as [|x r IH]; [reflexivity|].
  destruct r as [|y r]; [simpl; lia|].
  change (Str.count p (x ++ sep ++ Str.join sep (y :: r))
          = Str.count p x + list_sum (map (Str.count p) (y :: r))).
  rewrite !count_app, Hsep, IH. lia.
Qed.

Lemma count_none p s : Str.all (fun c => negb (p c)) s = true -> Str.count p s = 0.
Proof.
  induction s as [|c s IH]; simpl; [reflexivity|].
  intros H. apply andb_prop in H as [Hc Hs].
  apply negb_true_iff in Hc. rewrite Hc. now rewrite IH.
Qed.

Lemma escape_char_count c :
  Str.count Str.is_ws (escape_char c) = if Str.is_space c then 1 else 0.
Proof.
  destruct c as [b0 b1 b2 b3 b4 b5 b6 b7].
  destruct b0, b1, b2, b3, b4, b5, b6, b7; reflexivity.
Qed.

Lemma escape_count s : Str.count Str.is_ws (escape s) = Str.count Str.is_space s.
Proof.
  induction s as [|c s IH]; [reflexivity|].
  cbn [escape Str.count]. now rewrite count_app, escape_char_count, IH.
Qed.

Lemma quote_count s : Str.count Str.is_ws (quote s) = Str.count Str.is_space s.
Proof.
  unfold quote. cbn [Str.count]. rewrite count_app, escape_count.
  simpl. lia.
Qed.

Lemma bracket_count (l r : ascii) body :
  Str.is_ws l = false -> Str.is_ws r = false ->
  Str.count Str.is_ws (String l "" ++ body ++ String r "")
  = Str.count Str.is_ws body.
Proof.
  intros Hl Hr. rewrite !count_app. simpl. rewrite Hl, Hr. lia.
Qed.

Lemma list_sum_map_ext {A} (f g : A -> nat) l :
  Forall (fun x => f x = g x) l -> list_sum (map f l) = list_sum (map g l).
Proof. induction 1 as [|x l Hx _ IH]; simpl; congruence. Qed.

Lemma stringify_count j :
  finite j = true -> Str.count Str.is_ws (stringify j) = spaces j.
Proof.
  induction j as [|b|n|s|xs IH|fs IH] using json_ind'; intros Hf.
  - reflexivity.
  - now destruct b.
  - apply count_none. now apply number_text_no_ws.
  - apply quote_count.
  - cbn [stringify spaces finite] in *.
    rewrite bracket_count, count_join, map_map by reflexivity.
    apply list_sum_map_ext.
    rewrite forallb_forall in Hf. rewrite Forall_forall in *. auto.
  - cbn [stringify spaces finite] in *.
    rewrite bracket_count, count_join, map_map by reflexivity.
    apply list_sum_map_ext.
    rewrite forallb_forall in Hf. rewrite Forall_forall in *.
    intros kv Hkv. cbv beta.
    rewrite !count_app, quote_count, (IH kv Hkv (Hf kv Hkv)). simpl. lia.
Qed.

End WhitespaceFacts.

(** ** Serialising loses nothing

    A serialisation can be read back in one way only: two trees with
    finite numbers that serialise alike are the same tree. *)

Section StringifyFacts.
Import Json Canonical.

Lemma sapp_assoc (a b c : string) : (a ++ b) ++ c = a ++ b ++ c.
Proof. induction a as [|x a IH]; simpl; congruence. Qed.

Lemma join_joined_after x l rest :
  Str.join "," (x :: l) ++ rest = x ++ Str.joined_after l rest.
Proof.
  revert x. induction l as [|y l IH]; intros x; [reflexivity|].
  change (Str.join "," (x :: y :: l)) with (x ++ "," ++ Str.join "," (y :: l)).
  rewrite !sapp_assoc. cbn [Str.joined_after]. now rewrite IH.
Qed.

Lemma unescape_head_escape c rest :
  unescape_head (escape_char c ++ rest) = Some (c, rest).
Proof.
  destruct c as [b0 b1 b2 b3 b4 b5 b6 b7].
  destruct b0, b1, b2, b3, b4, b5, b6, b7; reflexivity.
Qed.

Lemma escape_char_not_quote c rest rest' :
  escape_char c ++ rest <> String Str.dquote rest'.
Proof.
  intros E. pose proof (unescape_head_escape c rest) as H.
  rewrite E in H. cbn in H. injection H as <- _.
  discriminate E.
Qed.

Lemma escape_inj s1 : forall s2 r1 r2,
  escape s1 ++ String Str.dquote r1 = escape s2 ++ String Str.dquote r2 ->
  s1 = s2 /\ r1 = r2.
Proof.
  induction s1 as [|c1 s1 IH]; intros [|c2 s2] r1 r2 E.
  - injection E as ->. auto.
  - exfalso. cbn [escape] in E. rewrite sapp_assoc in E.
    symmetry in E. now apply escape_char_not_quote in E.
  - exfalso. cbn [escape] in E. rewrite sapp_assoc in E.
    now apply escape_char_not_quote in E.
  - cbn [escape] in E. rewrite !sapp_assoc in E.
    apply (f_equal unescape_head) in E.
    rewrite !unescape_head_escape in E. injection E as -> E.
    destruct (IH _ _ _ E) as [-> ->]. auto.
Qed.

Lemma quote_inj s1 s2 r1 r2 :
  quote s1 ++ r1 = quote s2 ++ r2 -> s1 = s2 /\ r1 = r2.
Proof.
  unfold quote. cbn [append]. rewrite !sapp_assoc. cbn [append].
  intros [= E]. now apply escape_inj.
Qed.

Lemma kind_number c : number_char c = true -> kind c = 3.
Proof.
  destruct c as [b0 b1 b2 b3 b4 b5 b6 b7].
  destruct b0, b1, b2, b3, b4, b5, b6, b7; intros H;
    solve [reflexivity | discriminate H].
Qed.

Lemma stringify_head j :
  finite j = true ->
  exists c s, stringify j = String c s /\ kind c = jkind j.
Proof.
  destruct j as [|[|]|n|s|xs|fs]; intros Hf;
    try (eexists; eexists; split; reflexivity).
  cbn [stringify finite] in *. rewrite number_text_finite by exact Hf.
  destruct n as [|c n]; [discriminate Hf|].
  exists c, n. split; [reflexivity|].
  apply kind_number. cbn in Hf. now apply andb_prop in Hf.
Qed.

Lemma same_head_same_kind j1 j2 r1 r2 :
  finite j1 = true -> finite j2 = true ->
  stringify j1 ++ r1 = stringify j2 ++ r2 -> jkind j1 = jkind j2.
Proof.
  intros H1 H2 E.
  destruct (stringify_head j1 H1) as (c1 & s1 & E1 & K1).
  destruct (stringify_head j2 H2) as (c2 & s2 & E2 & K2).
  rewrite E1, E2 in E. injection E as -> _. congruence.
Qed.

(** A value never starts with a character that closes an array or an
    object. *)
Lemma stringify_not_closing j r (c : ascii) r' :
  finite j = true -> kind c = 7 -> stringify j ++ r <> String c r'.
Proof.
  intros Hf Hc E. destruct (stringify_head j Hf) as (c1 & s1 & E1 & K1).
  rewrite E1 in E. injection E as -> _.
  rewrite Hc in K1. destruct j as [|[|]| | | |]; discriminate K1.
Qed.

Lemma number_span n1 : forall n2 r1 r2,
  Str.all number_char n1 = true -> Str.all number_char n2 = true ->
  ends_number r1 = true -> ends_number r2 = true ->
  n1 ++ r1 = n2 ++ r2 -> n1 = n2 /\ r1 = r2.
Proof.
  induction n1 as [|c1 n1 IH]; intros [|c2 n2] r1 r2 H1 H2 E1 E2 E; simpl in *.
  - auto.
  - subst r1. simpl in E1. apply andb_prop in H2 as [Hc _].
    rewrite Hc in E1. discriminate.
  - subst r2. simpl in E2. apply andb_prop in H1 as [Hc _].
    rewrite Hc in E2. discriminate.
  - injection E as -> E.
    apply andb_prop in H1 as [_ H1]. apply andb_prop in H2 as [_ H2].
    destruct (IH _ _ _ H1 H2 E1 E2 E) as [-> ->]. auto.
Qed.

Lemma joined_after_ends l r :
  ends_number r = true -> ends_number (Str.joined_after l r) = true.
Proof. intros H. destruct l; [exact H|reflexivity]. Qed.

(** The elements of two arrays, once each element can be read back. *)
Lemma elements_inj xs :
  Forall (fun x => forall y r1 r2,
            finite x = true -> finite y = true ->
            ends_number r1 = true -> ends_number r2 = true ->
            stringify x ++ r1 = stringify y ++ r2 -> x = y /\ r1 = r2) xs ->
  forall ys (c : ascii) r1 r2,
    Ascii.eqb c ","%char = false -> number_char c = false ->
    forallb finite xs = true -> forallb finite ys = true ->
    Str.joined_after (map stringify xs) (String c r1)
    = Str.joined_after (map stringify ys) (String c r2) ->
    xs = ys /\ r1 = r2.
Proof.
  induction 1 as [|x xs Hx _ IH]; intros [|y ys] c r1 r2 Hc Hn F1 F2 E.
  - injection E as ->. auto.
  - cbn in E. injection E as E _. subst c. discriminate Hc.
  - cbn in E. injection E as E _. subst c. discriminate Hc.
  - cbn [map Str.joined_after append] in E. injection E as E.
    cbn [forallb] in F1, F2.
    apply andb_prop in F1 as [Fx F1]. apply andb_prop in F2 as [Fy F2].
    apply Hx in E as [-> E]; auto.
    + destruct (IH _ _ _ _ Hc Hn F1 F2 E) as [-> ->]. auto.
    + apply joined_after_ends. cbn. now rewrite Hn.
    + apply joined_after_ends. cbn. now rewrite Hn.
Qed.

Lemma members_inj fs :
  Forall (fun kv : field => forall y r1 r2,
            finite (snd kv) = true -> finite y = true ->
            ends_number r1 = true -> ends_number r2 = true ->
            stringify (snd kv) ++ r1 = stringify y ++ r2 ->
            snd kv = y /\ r1 = r2) fs ->
  forall gs (c : ascii) r1 r2,
    Ascii.eqb c ","%char = false -> number_char c = false ->
    forallb (fun kv : field => finite (snd kv)) fs = true ->
    forallb (fun kv : field => finite (snd kv)) gs = true ->
    Str.joined_after (map member fs) (String c r1)
    = Str.joined_after (map member gs) (String c r2) ->
    fs = gs /\ r1 = r2.
Proof.
  induction 1 as [|[k v] fs Hx _ IH]; intros [|[k' v'] gs] c r1 r2 Hc Hn F1 F2 E.
  - injection E as ->. auto.
  - cbn in E. injection E as E _. subst c. discriminate Hc.
  - cbn in E. injection E as E _. subst c. discriminate Hc.
  - cbn [map Str.joined_after append] in E. injection E as E.
    rewrite !sapp_assoc in E. cbn [append] in E.
    apply escape_inj in E as [-> E]. injection E as E.
    cbn [forallb snd] in F1, F2.
    apply andb_prop in F1 as [Fx F1]. apply andb_prop in F2 as [Fy F2].
    apply Hx in E as [E1 E]; auto.
    + cbn [snd] in E1. subst v'.
      destruct (IH _ _ _ _ Hc Hn F1 F2 E) as [-> ->]. auto.
    + apply joined_after_ends. cbn. now rewrite Hn.
    + apply joined_after_ends. cbn. now rewrite Hn.
Qed.

Lemma stringify_inj_app j1 : forall j2 r1 r2,
  finite j1 = true -> finite j2 = true ->
  ends_number r1 = true -> ends_number r2 = true ->
  stringify j1 ++ r1 = stringify j2 ++ r2 -> j1 = j2 /\ r1 = r2.
Proof.
  induction j1 as [|b|n|s|xs IH|fs IH] using json_ind';
    intros j2 r1 r2 F1 F2 E1 E2 E;
    pose proof (same_head_same_kind _ _ _ _ F1 F2 E) as K.
  - destruct j2 as [|[|]| | | |]; try discriminate K.
    cbn in E. injection E as ->. auto.
  - destruct b, j2 as [|[|]| | | |]; try discriminate K;
      cbn in E; injection E as ->; auto.
  - destruct j2 as [|[|]|n2| | |]; try discriminate K.
    cbn [stringify finite] in *.
    rewrite !number_text_finite in E by assumption.
    apply number_span in E as [-> ->]; auto using is_number_chars.
  - destruct j2 as [|[|]| |s2| |]; try discriminate K.
    cbn [stringify] in E. apply quote_inj in E as [-> ->]. auto.
  - destruct j2 as [|[|]| | |ys|]; try discriminate K.
    cbn [stringify finite] in *.
    rewrite !sapp_assoc in E. cbn [append] in E. injection E as E.
    destruct xs as [|x xs], ys as [|y ys].
    + cbn in E. injection E as ->. auto.
    + exfalso. cbn [map] in E. rewrite join_joined_after in E.
      cbn [Str.join append] in E. symmetry in E.
      apply stringify_not_closing in E; [exact E| |reflexivity].
      cbn in F2. now apply andb_prop in F2.
    + exfalso. cbn [map] in E. rewrite join_joined_after in E.
      cbn [Str.join append] in E.
      apply stringify_not_closing in E; [exact E| |reflexivity].
      cbn in F1. now apply andb_prop in F1.
    + cbn [map] in E. rewrite !join_joined_after in E.
      cbn [forallb] in F1, F2.
      apply andb_prop in F1 as [Fx F1]. apply andb_prop in F2 as [Fy F2].
      inversion IH as [|? ? Hx Hxs]; subst.
      apply Hx in E as [-> E]; auto;
        try (apply joined_after_ends; reflexivity).
      apply (elements_inj xs Hxs) in E as [-> ->]; auto.
  - destruct j2 as [|[|]| | | |gs]; try discriminate K.
    cbn [stringify finite] in *.
    change (fun kv : field => quote (fst kv) ++ ":" ++ stringify (snd kv))
      with member in E.
    rewrite !sapp_assoc in E. cbn [append] in E. injection E as E.
    destruct fs as [|[k v] fs], gs as [|[k' v'] gs].
    + cbn in E. injection E as ->. auto.
    + exfalso. cbn [map] in E. rewrite join_joined_after in E.
      cbn [Str.join append] in E. unfold member, quote in E.
      cbn in E. discriminate E.
    + exfalso. cbn [map] in E. rewrite join_joined_after in E.
      cbn [Str.join append] in E. unfold member, quote in E.
      cbn in E. discriminate E.
    + cbn [map] in E. rewrite !join_joined_after in E.
      unfold member in E at 1 3. unfold quote in E. cbn [fst snd] in E.
      rewrite !sapp_assoc in E. cbn [append] in E. injection E as E.
      rewrite !sapp_assoc in E. cbn [append] in E.
      apply escape_inj in E as [-> E]. injection E as E.
      cbn [forallb snd] in F1, F2.
      apply andb_prop in F1 as [Fx F1]. apply andb_prop in F2 as [Fy F2].
      inversion IH as [|? ? Hx Hxs]; subst.
      apply Hx in E as [E0 E]; auto;
        try (apply joined_after_ends; reflexivity).
      cbn [snd] in E0. subst v'.
      apply (members_inj fs Hxs) in E as [-> ->]; auto.
Qed.

(** [JSON.stringify] is injective on trees with finite numbers. *)
Lemma stringify_inj j1 j2 :
  finite j1 = true -> finite j2 = true ->
  stringify j1 = stringify j2 -> j1 = j2.
Proof.
  intros F1 F2 E.
  apply (stringify_inj_app j1 j2 "" "" F1 F2 eq_refl eq_refl).
  now rewrite E.
Qed.

(** The key sort keeps every pair, and two values that sort alike hold the
    same pairs. *)
Lemma sortKeys_keeps_pairs j : same_pairs j (sortKeys j).
Proof.
  induction j as [| | | |xs IH|fs IH] using json_ind'; try constructor.
  - induction IH; constructor; auto.
  - cbn [sortKeys].
    apply sp_obj with
      (fs' := map (fun kv : field => (fst kv, sortKeys (snd kv))) fs).
    + induction IH; constructor; auto.
    + symmetry. apply sort_by_perm.
Qed.

Lemma sortKeys_reflects a : forall v, sortKeys a = sortKeys v -> same_pairs a v.
Proof.
  induction a as [| | | |xs IH|fs IH] using json_ind'; intros v E.
  - destruct v; try discriminate E; constructor.
  - destruct v; try discriminate E. injection E as ->. constructor.
  - destruct v; try discriminate E. injection E as ->. constructor.
  - destruct v; try discriminate E. injection E as ->. constructor.
  - destruct v as [| | | |ys|]; try discriminate E.
    cbn [sortKeys] in E. injection E as E. constructor.
    revert ys E. induction IH as [|x xs Hx _ IHl]; intros [|y ys] E;
      try discriminate E; constructor.
    + apply Hx. now injection E.
    + apply IHl. now injection E.
  - destruct v as [| | | | |gs]; try discriminate E.
    cbn [sortKeys] in E. injection E as E. unfold sort_fields in E.
    assert (Hp : Permutation
                   (map (fun kv : field => (fst kv, sortKeys (snd kv))) fs)
                   (map (fun kv : field => (fst kv, sortKeys (snd kv))) gs)).
    { rewrite <- (sort_by_perm fst (map _ fs)), E. apply sort_by_perm. }
    apply Permutation_map_inv in Hp as [gs' [Eg Hp]].
    apply sp_obj with (fs' := gs'); [|now symmetry].
    clear E Hp. revert gs' Eg.
    induction IH as [|f fs Hf _ IHl]; intros [|g gs'] Eg;
      try discriminate Eg; constructor.
    + injection Eg as Ek Ev _. split; [exact Ek|]. now apply Hf.
    + apply IHl. now injection Eg.
Qed.

End StringifyFacts.

(** ** The canonical form: the repository's tests of [canonicalize] *)

Section CanonicalTests.
Import Json Canonical.

Example canonicalize_sorts_keys :
  canonicalize [("z", JNum "1"); ("a", JNum "2"); ("m", JNum "3")]
  = "{" ++ quote "a" ++ ":2," ++ quote "m" ++ ":3," ++ quote "z" ++ ":1}".
Proof. reflexivity. Qed.

Example canonicalize_strips_signature :
  canonicalize [("a", JNum "1"); ("signature", JStr "should-be-removed");
                ("b", JNum "2")]
  = "{" ++ quote "a" ++ ":1," ++ quote "b" ++ ":2}".
Proof. reflexivity. Qed.

Example canonicalize_sorts_nested :
  canonicalize [("b", JObj [("z", JNum "1"); ("a", JNum "2")]); ("a", JNum "1")]
  = "{" ++ quote "a" ++ ":1," ++ quote "b" ++ ":{"
        ++ quote "a" ++ ":2," ++ quote "z" ++ ":1}}".
Proof. reflexivity. Qed.

Example canonicalize_preserves_array_order :
  canonicalize [("arr", JArr [JNum "3"; JNum "1"; JNum "2"])]
  = "{" ++ quote "arr" ++ ":[3,1,2]}".
Proof. reflexivity. Qed.

(** Only the top-level [signature] is dropped: a nested one is data. *)
Example canonicalize_keeps_nested_signature :
  canonicalize [("payload", JObj [("signature", JNum "7")])]
  = "{" ++ quote "payload" ++ ":{" ++ quote "signature" ++ ":7}}".
Proof. reflexivity. Qed.

(** Numbers are written as JavaScript prints them; one that is not finite
    is written [null]. *)
Example stringify_numbers :
  stringify (JArr [JNum "1e+21"; JNum "0.5"; JNum "-3"; JNum "Infinity"])
  = "[1e+21,0.5,-3,null]".
Proof. reflexivity. Qed.

End CanonicalTests.

(** ** C1: the canonical form is order independent *)

Section CanonicalClaim.
Import Json Canonical.

Lemma strip_signature_In obj kv :
  In kv (strip_signature obj) <-> In kv obj /\ fst kv <> "signature".
Proof.
  unfold strip_signature. rewrite filter_In, negb_true_iff.
  now rewrite String.eqb_neq.
Qed.

Lemma canonicalize_same_pairs a b :
  wf (JObj a) ->
  same_pairs (JObj (strip_signature a)) (JObj (strip_signature b)) ->
  canonicalize a = canonicalize b.
Proof.
  intros Hwf Hsp. unfold canonicalize, canonical_tree. f_equal.
  apply sortKeys_same_pairs; [now apply strip_signature_wf|exact Hsp].
Qed.

(** Two objects have the same canonical form exactly when they hold the
    same pairs apart from [signature]. *)
Lemma canonicalize_iff a b :
  wf (JObj a) -> finite (JObj a) = true -> finite (JObj b) = true ->
  canonicalize a = canonicalize b
  <-> same_pairs (JObj (strip_signature a)) (JObj (strip_signature b)).
Proof.
  intros Hwf Fa Fb. split.
  - intros E. apply sortKeys_reflects.
    apply stringify_inj; [| |exact E]; now apply canonical_tree_finite.
  - now apply canonicalize_same_pairs.
Qed.

(** C1.  For an object [a] with distinct keys at every level and any
    object [b]:
    - if [a] and [b] hold the same key/value pairs (at every nesting level,
      whatever the order their fields were inserted in), [canonicalize]
      returns the same string for both;
    - when the numbers of both are finite, the string is the same exactly
      when [a] and [b] hold the same pairs apart from the top-level
      [signature], so the canonical form shows every other pair of the
      object;
    - the top-level [signature] never reaches the output: [canonicalize] of
      [a] is that of [a] without it, adding one changes nothing, what is
      serialised is every field of [a] but that one, and the serialised
      tree holds the same pairs as [a] without its [signature];
    - every object of the serialised tree has its keys in ascending
      lexicographic order;
    - an array keeps its elements at their positions: the array under a key
      of [a] is serialised as the array of the canonical forms of its
      elements in their order, and two one-field objects holding arrays of
      finite numbers have the same canonical form only if the arrays agree
      position by position;
    - when the numbers of [a] are finite, the output has as many whitespace
      characters as its keys and string values hold spaces, so when they
      hold none, the output holds no whitespace character at all. *)
Theorem canonicalize_canonical (a b : list field) (sig : json) :
  wf (JObj a) ->
  (same_pairs (JObj a) (JObj b) -> canonicalize a = canonicalize b)
  /\ (finite (JObj a) = true -> finite (JObj b) = true ->
      (canonicalize a = canonicalize b
       <-> same_pairs (JObj (strip_signature a)) (JObj (strip_signature b))))
  /\ canonicalize a = canonicalize (strip_signature a)
  /\ canonicalize (("signature", sig) :: a) = canonicalize a
  /\ (forall kv, In kv (strip_signature a) <-> In kv a /\ fst kv <> "signature")
  /\ same_pairs (JObj (strip_signature a)) (canonical_tree a)
  /\ keys_sorted (canonical_tree a)
  /\ (forall k xs,
        In (k, JArr xs) a -> k <> "signature" ->
        In (k, JArr (map sortKeys xs)) (fields_of (canonical_tree a)))
  /\ (forall k xs ys,
        k <> "signature" ->
        finite (JArr xs) = true -> finite (JArr ys) = true ->
        canonicalize [(k, JArr xs)] = canonicalize [(k, JArr ys)] ->
        Forall2 same_pairs xs ys)
  /\ (finite (JObj a) = true ->
      Str.count Str.is_ws (canonicalize a) = spaces (canonical_tree a))
  /\ (finite (JObj a) = true -> space_free (JObj a) = true ->
      Str.no_ws (canonicalize a) = true).
Proof.
  intros Hwf.
  split; [|split; [|split; [|split; [|split; [|split; [|split; [|split;
    [|split; [|split]]]]]]]]].
  - intros Hsp. apply canonicalize_same_pairs; [exact Hwf|].
    now apply strip_signature_same_pairs.
  - intros Fa Fb. now apply canonicalize_iff.
  - unfold canonicalize, canonical_tree. now rewrite strip_signature_idem.
  - reflexivity.
  - intros kv. apply strip_signature_In.
  - apply sortKeys_keeps_pairs.
  - apply sortKeys_keys_sorted.
  - intros k xs Hin Hk. unfold canonical_tree. rewrite sortKeys_obj.
    cbn [fields_of].
    apply (Permutation_in _ (Permutation_sym (sort_by_perm fst _))).
    apply in_map_iff. exists (k, JArr xs). split; [reflexivity|].
    now apply strip_signature_In.
  - intros k xs ys Hk Fx Fy E.
    assert (Hs : forall l, strip_signature [(k, JArr l)] = [(k, JArr l)]).
    { intros l. unfold strip_signature. cbn [filter fst].
      apply String.eqb_neq in Hk. now rewrite Hk. }
    assert (Ft : forall l, finite (JArr l) = true ->
                           finite (canonical_tree [(k, JArr l)]) = true).
    { intros l Fl. apply canonical_tree_finite. cbn. cbn in Fl.
      now rewrite Fl. }
    apply stringify_inj in E; auto.
    unfold canonical_tree in E. rewrite !Hs in E.
    apply sortKeys_reflects in E.
    inversion E as [| | | | |? fs' ? H2 Hp]; subst.
    symmetry in Hp. apply Permutation_length_1_inv in Hp. subst fs'.
    inversion H2 as [|? ? ? ? [_ Hv] _]; subst. cbn [snd] in Hv.
    now inversion Hv.
  - intros Fa. apply stringify_count. now apply canonical_tree_finite.
  - intros Fa. now apply canonicalize_no_ws.
Qed.

Lemma canonicalize_canonical_witness :
  wf (JObj order_a)
  /\ same_pairs (JObj order_a) (JObj order_b)
  /\ canonicalize order_a = canonicalize order_b.
Proof.
  assert (Hwf : wf (JObj order_a)).
  { unfold order_a. repeat constructor; simpl; intuition discriminate. }
  assert (Hsp : same_pairs (JObj order_a) (JObj order_b)).
  { unfold order_a, order_b.
    eapply sp_obj with
      (fs' := [("b", JObj [("a", JArr [JStr "x"; JNull]); ("z", JNum "1")]);
               ("signature", JStr "c2ln"); ("a", JBool true)]).
    - constructor; [split; [reflexivity|]|repeat constructor].
      eapply sp_obj with (fs' := [("z", JNum "1"); ("a", JArr [JStr "x"; JNull])]).
      + repeat constructor.
      + apply perm_swap.
    - exact (Permutation_rev
               [("b", JObj [("a", JArr [JStr "x"; JNull]); ("z", JNum "1")]);
                ("signature", JStr "c2ln"); ("a", JBool true)]). }
  split; [exact Hwf|]. split; [exact Hsp|].
  exact (proj1 (canonicalize_canonical order_a order_b JNull Hwf) Hsp).
Defined.

End CanonicalClaim.

(** ** Base64: decoding an encoding gives the bytes back *)

Section Base64Facts.
Import Base64.
Local Open Scope N_scope.

Lemma below_64_enum n : n < 64 -> In n (map N.of_nat (seq 0 64)).
Proof.
  intros H. apply in_map_iff. exists (N.to_nat n). split; [lia|].
  apply in_seq. lia.
Qed.

Lemma sextet_char_roundtrip n :
  n < 64 ->
  Ascii.eqb (char_of_sextet n) "="%char = false
  /\ sextet_of_char (char_of_sextet n) = Some n.
Proof.
  intros H. apply below_64_enum in H. revert n H.
  apply Forall_forall. repeat constructor.
Qed.

Lemma sextets_cons n r :
  n < 64 -> sextets (String (char_of_sextet n) r) = n :: sextets r.
Proof.
  intros H. destruct (sextet_char_roundtrip n H) as [He Hs].
  simpl. now rewrite He, Hs.
Qed.

Ltac euclid := zify; Z.to_euclidean_division_equations; lia.

Lemma group3 a b c :
  a < 256 -> b < 256 -> c < 256 ->
  let s1 := a / 4 in
  let s2 := (a mod 4) * 16 + b / 16 in
  let s3 := (b mod 16) * 4 + c / 64 in
  let s4 := c mod 64 in
  (s1 < 64 /\ s2 < 64 /\ s3 < 64 /\ s4 < 64)
  /\ (s1 * 4 + s2 / 16) mod 256 = a
  /\ ((s2 mod 16) * 16 + s3 / 4) mod 256 = b
  /\ ((s3 mod 4) * 64 + s4) mod 256 = c.
Proof.
  intros Ha Hb Hc. cbv zeta. repeat split; euclid.
Qed.

Lemma group2 a b :
  a < 256 -> b < 256 ->
  let s1 := a / 4 in
  let s2 := (a mod 4) * 16 + b / 16 in
  let s3 := (b mod 16) * 4 in
  (s1 < 64 /\ s2 < 64 /\ s3 < 64)
  /\ (s1 * 4 + s2 / 16) mod 256 = a
  /\ ((s2 mod 16) * 16 + s3 / 4) mod 256 = b.
Proof.
  intros Ha Hb. cbv zeta. repeat split; euclid.
Qed.

Lemma group1 a :
  a < 256 ->
  let s1 := a / 4 in
  let s2 := (a mod 4) * 16 in
  (s1 < 64 /\ s2 < 64) /\ (s1 * 4 + s2 / 16) mod 256 = a.
Proof.
  intros Ha. cbv zeta. repeat split; euclid.
Qed.

Lemma decode_encode_bytes_upto k : forall l,
  (length l <= k)%nat -> Forall (fun b => b < 256) l ->
  decode_sextets (sextets (encode_bytes l)) = l.
Proof.
  induction k as [k IH] using lt_wf_ind. intros l Hlen Hl.
  destruct l as [|a [|b [|c r]]].
  - reflexivity.
  - inversion Hl as [|? ? Ha _]; subst.
    destruct (group1 a Ha) as [[H1 H2] E1].
    cbn [encode_bytes]. rewrite !sextets_cons by assumption.
    cbn [sextets Ascii.eqb Bool.eqb decode_sextets]. now rewrite E1.
  - inversion Hl as [|? ? Ha Hl']; subst. inversion Hl' as [|? ? Hb _]; subst.
    destruct (group2 a b Ha Hb) as [[H1 [H2 H3]] [E1 E2]].
    cbn [encode_bytes]. rewrite !sextets_cons by assumption.
    cbn [sextets Ascii.eqb Bool.eqb decode_sextets]. now rewrite E1, E2.
  - inversion Hl as [|? ? Ha Hl']; subst. inversion Hl' as [|? ? Hb Hl'']; subst.
    inversion Hl'' as [|? ? Hc Hr]; subst.
    destruct (group3 a b c Ha Hb Hc) as [[H1 [H2 [H3 H4]]] [E1 [E2 E3]]].
    cbn [encode_bytes]. rewrite !sextets_cons by assumption.
    cbn [decode_sextets]. rewrite E1, E2, E3. do 3 f_equal.
    apply (IH (length r)); simpl in *; auto; lia.
Qed.

Lemma bytes_of_string_bounded s : Forall (fun b => b < 256) (bytes_of_string s).
Proof.
  unfold bytes_of_string. rewrite Forall_map.
  apply Forall_forall. intros c _. apply N_ascii_bounded.
Qed.

Lemma string_of_bytes_of_string s : string_of_bytes (bytes_of_string s) = s.
Proof.
  unfold string_of_bytes, bytes_of_string. rewrite map_map.
  rewrite (map_ext _ (fun c => c)) by (intros c; apply ascii_N_embedding).
  rewrite map_id. apply string_of_list_ascii_of_string.
Qed.

(** [Buffer.from(Buffer.from(s).toString("base64"), "base64").toString()]
    is [s]. *)
Lemma decode_encode s : decode (encode s) = s.
Proof.
  unfold decode, encode.
  rewrite (decode_encode_bytes_upto (length (bytes_of_string s)));
    auto using bytes_of_string_bounded, string_of_bytes_of_string.
Qed.

Lemma encode_nonempty s : s <> "" -> encode s <> "".
Proof.
  intros Hs E. apply Hs. rewrite <- (decode_encode s), E. reflexivity.
Qed.

End Base64Facts.

(** ** UTF-8: text survives decoding *)

Section Utf8Facts.
Import Utf8.

(** ASCII text is well-formed. *)
Lemma ascii_is_text s :
  Str.all (fun c => (N_of_ascii c <? 128)%N) s = true -> is_text s.
Proof.
  unfold is_text. induction s as [|c s IH]; [reflexivity|].
  cbn [Str.all toString]. intros H. apply andb_prop in H as [Hc Hs].
  rewrite Hc. now rewrite IH.
Qed.

(** [Buffer.from(Buffer.from(s).toString("base64"), "base64").toString()]
    is [s], for a JavaScript string [s]. *)
Lemma of_base64_encode s : is_text s -> of_base64 (Base64.encode s) = s.
Proof. intros H. unfold of_base64. now rewrite decode_encode. Qed.

Let bytes (l : list N) : string := Base64.string_of_bytes l.

(** The euro sign (E2 82 AC) and an emoji (F0 9F 98 80) are kept. *)
Example toString_keeps_text :
  is_text (bytes [226%N; 130%N; 172%N])
  /\ is_text (bytes [240%N; 159%N; 152%N; 128%N]).
Proof. split; reflexivity. Qed.

(** One U+FFFD for a byte that starts nothing (FF), for each byte of an
    overlong form (C0 AF) and of a surrogate (ED A0 80), and one for a
    sequence cut short (E2 82), after which reading goes on (the letter A
    is kept). *)
Example toString_replaces :
  toString (bytes [255%N]) = replacement
  /\ toString (bytes [192%N; 175%N]) = replacement ++ replacement
  /\ toString (bytes [237%N; 160%N; 128%N])
     = replacement ++ replacement ++ replacement
  /\ toString (bytes [226%N; 130%N; 65%N]) = replacement ++ "A"
  /\ toString (bytes [226%N; 130%N]) = replacement.
Proof. repeat split. Qed.

End Utf8Facts.

(** ** Lists: last element, index of the first match *)

Section ListFacts.
Import Js.
Local Open Scope list_scope.
Context {A : Type}.

Lemma last_elt_snoc (l : list A) a : last_elt (l ++ [a]) = Some a.
Proof.
  induction l as [|x l IH]; [reflexivity|].
  simpl. destruct (l ++ [a]) eqn:E; [now destruct l|exact IH].
Qed.

Lemma last_elt_inv (l : list A) a :
  last_elt l = Some a -> exists l', l = (l' ++ [a])%list.
Proof.
  induction l as [|x l IH]; [discriminate|].
  destruct l as [|y l].
  - intros [= ->]. now exists [].
  - intros H. destruct (IH H) as [l' E]. exists (x :: l'). simpl. now rewrite E.
Qed.

Lemma last_elt_app (l l' : list A) :
  l' <> [] -> last_elt (l ++ l') = last_elt l'.
Proof.
  intros Hne. induction l as [|x l IH]; [reflexivity|].
  simpl. destruct (l ++ l') eqn:E; [|exact IH].
  apply app_eq_nil in E as [_ E]. contradiction.
Qed.

Lemma last_elt_nonempty (l : list A) : l <> [] -> exists a, last_elt l = Some a.
Proof.
  induction l as [|x l IH]; [congruence|]. intros _.
  destruct l as [|y l]; [now exists x|]. apply IH. discriminate.
Qed.

Lemma findIndex_none (p : A -> bool) l :
  (forall x, In x l -> p x = false) -> findIndex p l = None.
Proof.
  induction l as [|x l IH]; intros H; [reflexivity|].
  simpl. rewrite (H x) by now left.
  rewrite IH; [reflexivity|]. intros y Hy. apply H. now right.
Qed.

Lemma findIndex_first (p : A -> bool) l1 a l2 :
  (forall x, In x l1 -> p x = false) -> p a = true ->
  findIndex p (l1 ++ a :: l2) = Some (length l1).
Proof.
  intros H1 Ha. induction l1 as [|x l1 IH]; simpl.
  - now rewrite Ha.
  - rewrite (H1 x) by now left.
    rewrite IH; [reflexivity|]. intros y Hy. apply H1. now right.
Qed.

Lemma filter_true (l : list A) : filter (fun _ => true) l = l.
Proof. induction l; simpl; congruence. Qed.

Lemma filter_filter (p q : A -> bool) l :
  filter q (filter p l) = filter (fun a => p a && q a) l.
Proof.
  induction l as [|x l IH]; [reflexivity|].
  simpl. destruct (p x); simpl; [destruct (q x)|]; now rewrite IH.
Qed.

Lemma NoDup_map_filter {B} (f : A -> B) (p : A -> bool) l :
  NoDup (map f l) -> NoDup (map f (filter p l)).
Proof.
  induction l as [|x l IH]; simpl; [auto|].
  intros H. inversion H as [|? ? Hnotin Hnd]; subst.
  destruct (p x); simpl; auto.
  constructor; auto.
  intros Hin. apply Hnotin. apply in_map_iff in Hin as [y [Ey Hy]].
  apply filter_In in Hy as [Hy _]. rewrite <- Ey. now apply in_map.
Qed.

Lemma StronglySorted_filter_map {B} (R : B -> B -> Prop) (f : A -> B)
      (p : A -> bool) l :
  StronglySorted R (map f l) -> StronglySorted R (map f (filter p l)).
Proof.
  induction l as [|x l IH]; simpl; [auto|].
  intros H. apply StronglySorted_inv in H as [Hs Hx].
  destruct (p x); simpl; auto.
  constructor; auto.
  rewrite Forall_map in *. rewrite Forall_forall in *.
  intros y Hy. apply filter_In in Hy as [Hy _]. auto.
Qed.

End ListFacts.

(** ** The shared search *)

Section SearchFacts.
Import Model Js Search Paging Invariant.
Context {C : Casing}.
Local Open Scope list_scope.

Lemma by_capability_filter query l :
  by_capability query l = filter (matches_capability query) l.
Proof.
  unfold by_capability, matches_capability.
  destruct (truthy (q_capability query)); [reflexivity|].
  now rewrite filter_true.
Qed.

Lemma by_intent_filter query l :
  by_intent query l = filter (matches_intent query) l.
Proof.
  unfold by_intent, matches_intent.
  destruct (truthy (q_intent query)); [reflexivity|].
  now rewrite filter_true.
Qed.

Lemma by_text_filter query l : by_text query l = filter (matches_text query) l.
Proof.
  unfold by_text, matches_text.
  destruct (truthy (q_q query)); [reflexivity|].
  now rewrite filter_true.
Qed.

Lemma filtered_filter query l : filtered query l = filter (matches query) l.
Proof.
  unfold filtered.
  rewrite by_text_filter, by_intent_filter, by_capability_filter.
  rewrite !filter_filter. apply filter_ext. intros a.
  unfold matches. now rewrite andb_assoc.
Qed.

Lemma filtered_with_cursor c query l :
  filtered (with_cursor c query) l = filtered query l.
Proof. reflexivity. Qed.

Lemma filtered_with_limit n query l :
  filtered (with_limit n query) l = filtered query l.
Proof. reflexivity. Qed.

Lemma filtered_cards_ok query all : cards_ok all -> cards_ok (filtered query all).
Proof.
  intros [Hnd Hne]. rewrite filtered_filter. split.
  - now apply NoDup_map_filter.
  - rewrite Forall_forall in *. intros a Ha.
    apply filter_In in Ha as [Ha _]. auto.
Qed.

Lemma filtered_length query all : length (filtered query all) <= length all.
Proof. rewrite filtered_filter. apply filter_length_le. Qed.

Lemma filtered_cards_text query all :
  cards_text all -> cards_text (filtered query all).
Proof.
  unfold cards_text. rewrite filtered_filter, !Forall_forall.
  intros H a Ha. apply filter_In in Ha as [Ha _]. auto.
Qed.

(** Without a cursor, and with a cursor naming no card of the list, the
    list is taken from its start. *)
Lemma after_cursor_none query l :
  q_cursor query = None -> after_cursor query l = l.
Proof. unfold after_cursor. now intros ->. Qed.

Lemma after_cursor_absent query c l :
  q_cursor query = Some c ->
  ~ In (Utf8.of_base64 c) (map agent_id l) ->
  after_cursor query l = l.
Proof.
  intros Hc Hnot. unfold after_cursor. rewrite Hc.
  unfold truthy. destruct (String.eqb c ""); [reflexivity|].
  rewrite findIndex_none; [reflexivity|].
  intros a Ha. apply String.eqb_neq. intros E. apply Hnot.
  rewrite <- E. now apply in_map.
Qed.

(** With the cursor of the last card handed out, the list resumes right
    after that card. *)
Lemma after_cursor_resume query l1 a l2 :
  NoDup (map agent_id (l1 ++ a :: l2)) -> agent_id a <> "" ->
  Utf8.is_text (agent_id a) ->
  q_cursor query = Some (Base64.encode (agent_id a)) ->
  after_cursor query (l1 ++ a :: l2) = l2.
Proof.
  intros Hnd Hne Htx Hc. unfold after_cursor. rewrite Hc.
  unfold truthy.
  destruct (String.eqb_spec (Base64.encode (agent_id a)) "") as [E|_].
  { now apply encode_nonempty in E. }
  rewrite of_base64_encode by exact Htx.
  rewrite findIndex_first.
  - rewrite skipn_app, skipn_all2 by lia.
    replace (length l1 + 1 - length l1) with 1 by lia. reflexivity.
  - intros x Hx. apply String.eqb_neq. intros E.
    rewrite map_app in Hnd. simpl in Hnd.
    apply NoDup_remove_2 in Hnd. apply Hnd.
    apply in_or_app. left. rewrite <- E. now apply in_map.
  - apply String.eqb_refl.
Qed.

Lemma page_of_short query l :
  length l < q_limit query ->
  page_of query l = Some {| agents := l; cursor := None |}.
Proof.
  intros H. unfold page_of.
  rewrite firstn_all2 by lia.
  destruct (Nat.eqb_spec (length l) (q_limit query)); [lia|reflexivity].
Qed.

Lemma page_of_full query l :
  1 <= q_limit query <= length l ->
  exists a,
    last_elt (firstn (q_limit query) l) = Some a
    /\ page_of query l
       = Some {| agents := firstn (q_limit query) l;
                 cursor := Some (Base64.encode (agent_id a)) |}.
Proof.
  intros H. unfold page_of.
  assert (Hlen : length (firstn (q_limit query) l) = q_limit query)
    by (rewrite length_firstn; lia).
  rewrite Hlen, Nat.eqb_refl.
  destruct (last_elt_nonempty (firstn (q_limit query) l)) as [a Ha].
  { intros E. rewrite E in Hlen. simpl in Hlen. lia. }
  exists a. now rewrite Ha.
Qed.

(** What a page says about itself. *)
Lemma page_of_shape query l r :
  page_of query l = Some r ->
  agents r = firstn (q_limit query) l
  /\ (length (agents r) < q_limit query -> cursor r = None)
  /\ (forall c, cursor r = Some c ->
        length (agents r) = q_limit query
        /\ exists a, last_elt (agents r) = Some a
                     /\ c = Base64.encode (agent_id a)
                     /\ Base64.decode c = agent_id a).
Proof.
  unfold page_of.
  destruct (Nat.eqb_spec (length (firstn (q_limit query) l)) (q_limit query))
    as [E|E].
  - destruct (last_elt (firstn (q_limit query) l)) as [a|] eqn:Ha;
      [|discriminate].
    intros [= <-]. simpl. split; [reflexivity|]. split; [lia|].
    intros c [= <-]. split; [exact E|]. exists a.
    now rewrite decode_encode.
  - intros [= <-]. simpl. split; [reflexivity|]. split; [reflexivity|].
    discriminate.
Qed.

End SearchFacts.

(** ** Threading the cursor *)

Section PagingFacts.
Import Model Js Search Paging Invariant.
Context {C : Casing}.
Local Open Scope list_scope.

Lemma page_of_with_cursor c query l :
  page_of (with_cursor c query) l = page_of query l.
Proof. reflexivity. Qed.

Lemma search_from_resume all query done rest cur :
  cards_ok all -> cards_text all ->
  filtered query all = done ++ rest -> handed_out done cur ->
  search_from all (with_cursor cur query) = page_of query rest.
Proof.
  intros Hok Htx Hsplit Hcur. unfold search_from.
  rewrite page_of_with_cursor, filtered_with_cursor. f_equal.
  destruct (filtered_cards_ok query all Hok) as [Hnd Hne].
  pose proof (filtered_cards_text query all Htx) as Ht.
  unfold cards_text in Ht.
  rewrite Hsplit in *.
  destruct Hcur as [[-> ->]|[a [Hlast ->]]].
  - now apply after_cursor_none.
  - apply last_elt_inv in Hlast as [d' ->].
    rewrite <- app_assoc in *. simpl in *.
    rewrite Forall_forall in Hne, Ht.
    apply after_cursor_resume; auto.
    + apply Hne. apply in_or_app. right. now left.
    + apply Ht. apply in_or_app. right. now left.
Qed.

Lemma drain_rest all query :
  cards_ok all -> cards_text all -> 1 <= q_limit query ->
  forall fuel rest done cur,
    length rest < fuel ->
    filtered query all = done ++ rest -> handed_out done cur ->
    drain (search_from all) (with_cursor cur query) fuel = Some rest.
Proof.
  intros Hok Htx Hlim.
  induction fuel as [|fuel IH]; intros rest done cur Hfuel Hsplit Hcur.
  - lia.
  - cbn [drain]. rewrite (search_from_resume all query done rest cur) by assumption.
    destruct (Nat.lt_ge_cases (length rest) (q_limit query)) as [Hshort|Hfull].
    + now rewrite page_of_short.
    + destruct (page_of_full query rest) as [a [Hlast ->]]; [lia|].
      cbn [cursor agents].
      replace (with_cursor (Some (Base64.encode (agent_id a)))
                           (with_cursor cur query))
        with (with_cursor (Some (Base64.encode (agent_id a))) query)
        by reflexivity.
      rewrite (IH (skipn (q_limit query) rest)
                  (done ++ firstn (q_limit query) rest)).
      * simpl. now rewrite firstn_skipn.
      * rewrite length_skipn. lia.
      * now rewrite <- app_assoc, firstn_skipn.
      * right. exists a. split; [|reflexivity].
        rewrite last_elt_app; [exact Hlast|].
        intros E. rewrite E in Hlast. discriminate.
Qed.

(** Paging from the start hands out exactly the filtered list, each card
    once, and ends by itself. *)
Lemma drain_all all query :
  cards_ok all -> cards_text all -> 1 <= q_limit query ->
  drain (search_from all) (with_cursor None query) (S (length all))
  = Some (filtered query all).
Proof.
  intros Hok Htx Hlim.
  apply (drain_rest all query Hok Htx Hlim _ _ []).
  - pose proof (filtered_length query all). lia.
  - reflexivity.
  - now left.
Qed.

Lemma unpaginated_all all query :
  search_from all (unpaginated (length all) query)
  = Some {| agents := filtered query all; cursor := None |}.
Proof.
  unfold search_from, unpaginated.
  rewrite after_cursor_none by reflexivity.
  rewrite filtered_with_cursor, filtered_with_limit.
  apply page_of_short. simpl.
  pose proof (filtered_length query all). lia.
Qed.

End PagingFacts.

(** ** The two stores *)

Section StoreFacts.
Import Model Js Search Paging Invariant.
Context {C : Casing}.
Local Open Scope list_scope.

Lemma mem_cards_ids (agents : AgentStore.t) :
  Forall (fun kv : string * StoredAgent =>
            fst kv = agent_id (card (snd kv)) /\ fst kv <> "") agents ->
  map agent_id (map card (map_values agents)) = map fst agents.
Proof.
  unfold map_values. induction 1 as [|kv r [Hk _] _ IH]; [reflexivity|].
  simpl. now rewrite IH, Hk.
Qed.

Lemma mem_cards_ok agents :
  mem_ok agents -> cards_ok (map card (map_values agents)).
Proof.
  intros [Hnd Hall]. split.
  - now rewrite mem_cards_ids.
  - unfold map_values. rewrite !Forall_map.
    eapply Forall_impl; [|exact Hall]. intros kv [Hk Hne]. now rewrite <- Hk.
Qed.

Lemma db_cards_ids rows :
  Forall (fun r => Store.row_agent_id r = agent_id (Store.card_json r)
                   /\ Store.row_agent_id r <> "") rows ->
  map agent_id (map Store.card_json rows) = map Store.row_agent_id rows.
Proof.
  induction 1 as [|r rows [Hk _] _ IH]; [reflexivity|].
  simpl. now rewrite IH, Hk.
Qed.

Lemma db_sorted_rows_ok db :
  db_ok db ->
  Forall (fun r => Store.row_agent_id r = agent_id (Store.card_json r)
                   /\ Store.row_agent_id r <> "")
         (sort_by Store.row_agent_id (Store.agents_table db)).
Proof.
  intros [_ Hall].
  eapply Permutation_Forall; [symmetry; apply sort_by_perm|exact Hall].
Qed.

Lemma db_cards_ok db :
  db_ok db ->
  cards_ok (map Store.card_json
                (sort_by Store.row_agent_id (Store.agents_table db))).
Proof.
  intros Hok. pose proof (db_sorted_rows_ok db Hok) as Hs.
  destruct Hok as [Hnd _]. split.
  - rewrite db_cards_ids by assumption.
    eapply Permutation_NoDup; [|exact Hnd].
    apply Permutation_map. symmetry. apply sort_by_perm.
  - rewrite Forall_map. eapply Forall_impl; [|exact Hs].
    intros r [Hk Hne]. now rewrite <- Hk.
Qed.

(** [ORDER BY agent_id] survives the filters, the cursor and the page. *)
Lemma db_cards_sorted db :
  db_ok db ->
  StronglySorted (fun a b => String.leb a b = true)
    (map agent_id
         (map Store.card_json
              (sort_by Store.row_agent_id (Store.agents_table db)))).
Proof.
  intros Hok. rewrite db_cards_ids by now apply db_sorted_rows_ok.
  apply sort_by_keys_sorted.
Qed.

Lemma StronglySorted_skipn {B} (R : B -> B -> Prop) n (l : list B) :
  StronglySorted R l -> StronglySorted R (skipn n l).
Proof.
  revert l. induction n as [|n IH]; intros l H; [exact H|].
  destruct l as [|x l]; [exact H|]. simpl. apply IH.
  now apply StronglySorted_inv in H.
Qed.

Lemma StronglySorted_firstn {B} (R : B -> B -> Prop) n (l : list B) :
  StronglySorted R l -> StronglySorted R (firstn n l).
Proof.
  revert l. induction n as [|n IH]; intros l H; [constructor|].
  destruct l as [|x l]; [constructor|]. simpl.
  apply StronglySorted_inv in H as [Hs Hx]. constructor; auto.
  rewrite Forall_forall in *. intros y Hy. apply Hx.
  rewrite <- (firstn_skipn n l). apply in_or_app. now left.
Qed.

Lemma search_from_sorted all query r :
  StronglySorted (fun a b => String.leb a b = true) (map agent_id all) ->
  search_from all query = Some r ->
  StronglySorted (fun a b => String.leb a b = true) (map agent_id (agents r)).
Proof.
  intros Hs Hr. unfold search_from in Hr.
  apply page_of_shape in Hr as [-> _].
  rewrite <- firstn_map. apply StronglySorted_firstn.
  unfold after_cursor.
  assert (Hf : StronglySorted (fun a b => String.leb a b = true)
                 (map agent_id (filtered query all)))
    by (rewrite filtered_filter; now apply StronglySorted_filter_map).
  destruct (truthy (q_cursor query)); [|exact Hf].
  destruct (findIndex _ _); [|exact Hf].
  rewrite <- skipn_map. now apply StronglySorted_skipn.
Qed.

(** The SQLite store returns every page in ascending [agent_id] order. *)
Lemma searchAgents_sorted db query r :
  db_ok db -> Store.searchAgents db query = Some r ->
  StronglySorted (fun a b => String.leb a b = true) (map agent_id (agents r)).
Proof.
  intros Hok. apply search_from_sorted. now apply db_cards_sorted.
Qed.

End StoreFacts.

(** ** Reading back what was put *)

Section PutGetFacts.
Import Model Js Invariant.
Local Open Scope list_scope.

Lemma stored_of_row_of_stored a : Store.stored_of_row (Store.row_of_stored a) = a.
Proof. now destruct a. Qed.

Lemma find_app_none {A} (p : A -> bool) l x :
  (forall y, In y l -> p y = false) -> find p (l ++ [x]) = if p x then Some x else None.
Proof.
  induction l as [|h t IH]; intros H; [reflexivity|].
  simpl. rewrite (H h) by now left. apply IH. intros y Hy. apply H. now right.
Qed.

Lemma find_filter_other {A} (p q : A -> bool) l :
  (forall y, p y = true -> q y = true) -> find p (filter q l) = find p l.
Proof.
  intros H. induction l as [|h t IH]; [reflexivity|].
  simpl. destruct (q h) eqn:Eq; simpl.
  - destruct (p h); [reflexivity|exact IH].
  - destruct (p h) eqn:Ep; [|exact IH]. apply H in Ep. congruence.
Qed.

Lemma find_app_other {A} (p : A -> bool) l x :
  p x = false -> find p (l ++ [x]) = find p l.
Proof.
  intros Hx. induction l as [|h t IH]; simpl; [now rewrite Hx|].
  destruct (p h); [reflexivity|exact IH].
Qed.

Lemma getAgent_putAgent_same a db :
  Store.getAgent (agent_id (card a)) (Store.putAgent a db) = Some a.
Proof.
  unfold Store.getAgent, Store.putAgent. cbn [Store.agents_table Store.with_agents].
  rewrite find_app_none.
  - cbn [Store.row_of_stored Store.row_agent_id]. rewrite String.eqb_refl.
    simpl. now rewrite stored_of_row_of_stored.
  - intros r Hr. apply filter_In in Hr as [_ Hr].
    now apply negb_true_iff in Hr.
Qed.

Lemma getAgent_putAgent_other a db id' :
  id' <> agent_id (card a) ->
  Store.getAgent id' (Store.putAgent a db) = Store.getAgent id' db.
Proof.
  intros Hne. unfold Store.getAgent, Store.putAgent.
  cbn [Store.agents_table Store.with_agents]. f_equal.
  rewrite find_app_other.
  - apply find_filter_other. intros r Hr.
    apply String.eqb_eq in Hr. apply negb_true_iff, String.eqb_neq. congruence.
  - cbn [Store.row_of_stored Store.row_agent_id].
    apply String.eqb_neq. congruence.
Qed.

Lemma putAgent_messages a db :
  Store.messages_table (Store.putAgent a db) = Store.messages_table db.
Proof. reflexivity. Qed.

Lemma putAgent_ok a db :
  db_ok db -> agent_id (card a) <> "" -> db_ok (Store.putAgent a db).
Proof.
  intros [Hnd Hall] Hne. unfold db_ok, Store.putAgent.
  cbn [Store.agents_table Store.with_agents]. split.
  - rewrite map_app. cbn [map Store.row_of_stored Store.row_agent_id].
    apply NoDup_app.
    + now apply NoDup_map_filter.
    + repeat constructor. intros [].
    + intros x Hx [<-|[]].
      apply in_map_iff in Hx as [r [Er Hr]].
      apply filter_In in Hr as [_ Hr].
      apply negb_true_iff, String.eqb_neq in Hr. congruence.
  - apply Forall_app. split.
    + rewrite Forall_forall in *. intros r Hr.
      apply filter_In in Hr as [Hr _]. auto.
    + repeat constructor; assumption.
Qed.

(** After [putAgent] the table holds exactly one row for that [agent_id]. *)
Lemma putAgent_one_row a db :
  length (filter (fun r => String.eqb (Store.row_agent_id r) (agent_id (card a)))
                 (Store.agents_table (Store.putAgent a db))) = 1.
Proof.
  unfold Store.putAgent. cbn [Store.agents_table Store.with_agents].
  rewrite filter_app, length_app.
  cbn [filter Store.row_of_stored Store.row_agent_id]. rewrite String.eqb_refl.
  rewrite filter_filter.
  rewrite (filter_ext _ (fun _ => false)), filter_false by
    (intros r; destruct (String.eqb _ _); reflexivity).
  reflexivity.
Qed.

Lemma deleteAgent_ok id db : db_ok db -> db_ok (snd (Store.deleteAgent id db)).
Proof.
  intros [Hnd Hall]. unfold db_ok, Store.deleteAgent.
  cbn [snd Store.agents_table Store.with_agents]. split.
  - now apply NoDup_map_filter.
  - rewrite Forall_forall in *. intros r Hr.
    apply filter_In in Hr as [Hr _]. auto.
Qed.

Lemma getAgent_id id db stored :
  Store.getAgent id db = Some stored ->
  exists r, In r (Store.agents_table db) /\ Store.row_agent_id r = id
            /\ stored = Store.stored_of_row r.
Proof.
  unfold Store.getAgent. destruct (find _ _) as [r|] eqn:E; [|discriminate].
  intros [= <-]. apply find_some in E as [Hin Heq].
  apply String.eqb_eq in Heq. eauto.
Qed.

(** The [Map]. *)

Lemma map_get_set_same {V} k (v : V) m : map_get k (map_set k v m) = Some v.
Proof.
  induction m as [|[k' v'] r IH]; simpl.
  - now rewrite String.eqb_refl.
  - destruct (String.eqb k' k) eqn:E; simpl.
    + now rewrite String.eqb_refl.
    + now rewrite E.
Qed.

Lemma map_get_set_other {V} k k' (v : V) m :
  k' <> k -> map_get k' (map_set k v m) = map_get k' m.
Proof.
  intros Hne. induction m as [|[k0 v0] r IH]; simpl.
  - apply String.eqb_neq in Hne. rewrite String.eqb_sym. now rewrite Hne.
  - destruct (String.eqb k0 k) eqn:E; simpl.
    + apply String.eqb_eq in E. subst k0.
      assert (String.eqb k k' = false) as ->
        by (apply String.eqb_neq; congruence). reflexivity.
    + destruct (String.eqb k0 k'); [reflexivity|exact IH].
Qed.

Lemma map_set_keys {V} k (v : V) m :
  map fst (map_set k v m)
  = if map_has k m then map fst m else map fst m ++ [k].
Proof.
  unfold map_has. induction m as [|[k0 v0] r IH]; [reflexivity|].
  simpl. destruct (String.eqb k0 k) eqn:E; simpl.
  - apply String.eqb_eq in E. now subst.
  - rewrite IH. now destruct (existsb _ r).
Qed.

Lemma map_has_In {V} k (m : JsMap V) : map_has k m = true <-> In k (map fst m).
Proof.
  unfold map_has. rewrite existsb_exists, in_map_iff. split.
  - intros [kv [Hin E]]. apply String.eqb_eq in E. eauto.
  - intros [kv [E Hin]]. exists kv. split; [assumption|].
    now apply String.eqb_eq.
Qed.

Lemma map_set_In {V} k (v : V) m kv :
  In kv (map_set k v m) -> kv = (k, v) \/ In kv m.
Proof.
  induction m as [|[k0 v0] r IH]; simpl.
  - intros [<-|[]]. now left.
  - destruct (String.eqb k0 k); simpl.
    + intros [<-|H]; auto.
    + intros [<-|H]; auto. destruct (IH H); auto.
Qed.

Lemma put_ok a agents :
  mem_ok agents -> agent_id (card a) <> "" -> mem_ok (AgentStore.put a agents).
Proof.
  intros [Hnd Hall] Hne. unfold mem_ok, AgentStore.put. split.
  - rewrite map_set_keys.
    destruct (map_has (agent_id (card a)) agents) eqn:E; [exact Hnd|].
    apply NoDup_app; [exact Hnd| |].
    + repeat constructor. intros [].
    + intros x Hx [<-|[]].
      apply map_has_In in Hx. congruence.
  - rewrite Forall_forall in *. intros kv Hkv.
    apply map_set_In in Hkv as [->|Hkv]; auto.
Qed.

Lemma delete_ok id agents :
  mem_ok agents -> mem_ok (snd (AgentStore.delete id agents)).
Proof.
  intros [Hnd Hall]. unfold mem_ok, AgentStore.delete, map_delete.
  cbn [snd]. split.
  - now apply NoDup_map_filter.
  - rewrite Forall_forall in *. intros r Hr.
    apply filter_In in Hr as [Hr _]. auto.
Qed.

Lemma map_get_In {V} k (m : JsMap V) v : map_get k m = Some v -> In (k, v) m.
Proof.
  induction m as [|[k0 v0] r IH]; simpl; [discriminate|].
  destruct (String.eqb_spec k0 k) as [->|_].
  - intros [= ->]. now left.
  - intros H. right. auto.
Qed.

End PutGetFacts.

(** ** The handlers keep the store invariants *)

Section HandlerInvariants.
Import Model Js Http Invariant.
Context {P : Platform}.

Lemma agentId_nonempty rand : agentId rand <> "".
Proof. discriminate. Qed.

Lemma getAgent_nonempty id db stored :
  db_ok db -> Store.getAgent id db = Some stored -> id <> "".
Proof.
  intros [_ Hall] Hget. apply getAgent_id in Hget as [r [Hin [<- _]]].
  rewrite Forall_forall in Hall. now apply Hall.
Qed.

Lemma get_nonempty id agents stored :
  mem_ok agents -> AgentStore.get id agents = Some stored -> id <> "".
Proof.
  intros [_ Hall] Hget. apply map_get_In in Hget.
  rewrite Forall_forall in Hall. now apply (Hall _ Hget).
Qed.

Lemma server_post_agents_ok authHeader body rand now db :
  db_ok db -> db_ok (snd (Server.post_agents authHeader body rand now db)).
Proof.
  intros Hok. unfold Server.post_agents.
  destruct (bearer authHeader); [|exact Hok].
  destruct body as [b|]; [|exact Hok].
  destruct (AgentCardSchema b); [exact Hok|].
  apply putAgent_ok; [exact Hok|apply agentId_nonempty].
Qed.

Lemma server_put_agent_ok id authHeader body now db :
  db_ok db -> db_ok (snd (Server.put_agent id authHeader body now db)).
Proof.
  intros Hok. unfold Server.put_agent.
  destruct (bearer authHeader); [|exact Hok].
  destruct (Store.getAgent id db) as [stored|] eqn:Hget; [|exact Hok].
  destruct (negb _); [exact Hok|].
  destruct body as [b|]; [|exact Hok].
  destruct (AgentCardSchema b); [exact Hok|].
  apply putAgent_ok; [exact Hok|]. simpl.
  eapply getAgent_nonempty; eassumption.
Qed.

Lemma server_delete_agent_ok id authHeader db :
  db_ok db -> db_ok (snd (Server.delete_agent id authHeader db)).
Proof.
  intros Hok. unfold Server.delete_agent.
  destruct (bearer authHeader); [|exact Hok].
  destruct (Store.getAgent id db); [|exact Hok].
  destruct (negb _); [exact Hok|].
  now apply deleteAgent_ok.
Qed.

Lemma mem_post_agents_ok authHeader body rand now store :
  mem_ok store -> mem_ok (snd (MemServer.post_agents authHeader body rand now store)).
Proof.
  intros Hok. unfold MemServer.post_agents.
  destruct (bearer authHeader); [|exact Hok].
  destruct body as [b|]; [|exact Hok].
  destruct (AgentCardSchema b); [exact Hok|].
  apply put_ok; [exact Hok|apply agentId_nonempty].
Qed.

Lemma mem_put_agent_ok id authHeader body now store :
  mem_ok store -> mem_ok (snd (MemServer.put_agent id authHeader body now store)).
Proof.
  intros Hok. unfold MemServer.put_agent.
  destruct (bearer authHeader); [|exact Hok].
  destruct (AgentStore.get id store) as [stored|] eqn:Hget; [|exact Hok].
  destruct (negb _); [exact Hok|].
  destruct body as [b|]; [|exact Hok].
  destruct (AgentCardSchema b); [exact Hok|].
  apply put_ok; [exact Hok|]. simpl.
  eapply get_nonempty; eassumption.
Qed.

Lemma mem_delete_agent_ok id authHeader store :
  mem_ok store -> mem_ok (snd (MemServer.delete_agent id authHeader store)).
Proof.
  intros Hok. unfold MemServer.delete_agent.
  destruct (bearer authHeader); [|exact Hok].
  destruct (AgentStore.get id store); [|exact Hok].
  destruct (negb _); [exact Hok|].
  now apply delete_ok.
Qed.

Lemma empty_ok : mem_ok AgentStore.empty /\ db_ok Store.empty.
Proof. repeat split; constructor. Qed.

End HandlerInvariants.

(** ** The handlers keep identifiers that are JavaScript strings *)

Section TextInvariant.
Import Model Js Http Invariant.
Context {P : Platform}.
Local Open Scope list_scope.

Lemma putAgent_text a db :
  db_text db -> Utf8.is_text (agent_id (card a)) ->
  db_text (Store.putAgent a db).
Proof.
  unfold db_text, cards_text, Store.putAgent.
  cbn [Store.agents_table Store.with_agents].
  rewrite !Forall_map. intros H Ha. apply Forall_app. split.
  - rewrite Forall_forall in *. intros r Hr.
    apply filter_In in Hr as [Hr _]. auto.
  - repeat constructor. exact Ha.
Qed.

Lemma deleteAgent_text id db :
  db_text db -> db_text (snd (Store.deleteAgent id db)).
Proof.
  unfold db_text, cards_text, Store.deleteAgent.
  cbn [snd Store.agents_table Store.with_agents].
  rewrite !Forall_map, !Forall_forall. intros H r Hr.
  apply filter_In in Hr as [Hr _]. auto.
Qed.

Lemma put_text a agents :
  mem_text agents -> Utf8.is_text (agent_id (card a)) ->
  mem_text (AgentStore.put a agents).
Proof.
  unfold mem_text, cards_text, AgentStore.put, map_values.
  rewrite !Forall_map, !Forall_forall. intros H Ha kv Hkv.
  apply map_set_In in Hkv as [->|Hkv]; auto.
Qed.

Lemma delete_text id agents :
  mem_text agents -> mem_text (snd (AgentStore.delete id agents)).
Proof.
  unfold mem_text, cards_text, AgentStore.delete, map_delete, map_values.
  cbn [snd]. rewrite !Forall_map, !Forall_forall. intros H kv Hkv.
  apply filter_In in Hkv as [Hkv _]. auto.
Qed.

(** An identifier drawn from ASCII characters is a JavaScript string. *)
Lemma agentId_text rand :
  Str.all (fun c => (N_of_ascii c <? 128)%N) rand = true ->
  Utf8.is_text (agentId rand).
Proof. intros H. apply ascii_is_text. cbn. exact H. Qed.

Lemma getAgent_text id db stored :
  db_ok db -> db_text db -> Store.getAgent id db = Some stored ->
  Utf8.is_text id.
Proof.
  intros [_ Hall] Htx Hget. apply getAgent_id in Hget as [r [Hin [<- _]]].
  unfold db_text, cards_text in Htx. rewrite Forall_map in Htx.
  rewrite Forall_forall in Hall, Htx.
  destruct (Hall r Hin) as [-> _]. now apply Htx.
Qed.

Lemma get_text id agents stored :
  mem_ok agents -> mem_text agents -> AgentStore.get id agents = Some stored ->
  Utf8.is_text id.
Proof.
  intros [_ Hall] Htx Hget. apply map_get_In in Hget.
  unfold mem_text, cards_text, map_values in Htx.
  rewrite !Forall_map in Htx. rewrite Forall_forall in Hall, Htx.
  destruct (Hall _ Hget) as [E _]. cbn [fst snd] in E. rewrite E.
  exact (Htx _ Hget).
Qed.

Lemma server_post_agents_text authHeader body rand now db :
  Utf8.is_text (agentId rand) -> db_text db ->
  db_text (snd (Server.post_agents authHeader body rand now db)).
Proof.
  intros Hr Htx. unfold Server.post_agents.
  destruct (bearer authHeader); [|exact Htx].
  destruct body as [b|]; [|exact Htx].
  destruct (AgentCardSchema b); [exact Htx|].
  now apply putAgent_text.
Qed.

Lemma server_put_agent_text id authHeader body now db :
  db_ok db -> db_text db ->
  db_text (snd (Server.put_agent id authHeader body now db)).
Proof.
  intros Hok Htx. unfold Server.put_agent.
  destruct (bearer authHeader); [|exact Htx].
  destruct (Store.getAgent id db) as [stored|] eqn:Hget; [|exact Htx].
  destruct (negb _); [exact Htx|].
  destruct body as [b|]; [|exact Htx].
  destruct (AgentCardSchema b); [exact Htx|].
  apply putAgent_text; [exact Htx|]. cbn.
  eapply getAgent_text; eassumption.
Qed.

Lemma server_delete_agent_text id authHeader db :
  db_text db -> db_text (snd (Server.delete_agent id authHeader db)).
Proof.
  intros Htx. unfold Server.delete_agent.
  destruct (bearer authHeader); [|exact Htx].
  destruct (Store.getAgent id db); [|exact Htx].
  destruct (negb _); [exact Htx|].
  now apply deleteAgent_text.
Qed.

Lemma mem_post_agents_text authHeader body rand now store :
  Utf8.is_text (agentId rand) -> mem_text store ->
  mem_text (snd (MemServer.post_agents authHeader body rand now store)).
Proof.
  intros Hr Htx. unfold MemServer.post_agents.
  destruct (bearer authHeader); [|exact Htx].
  destruct body as [b|]; [|exact Htx].
  destruct (AgentCardSchema b); [exact Htx|].
  now apply put_text.
Qed.

Lemma mem_put_agent_text id authHeader body now store :
  mem_ok store -> mem_text store ->
  mem_text (snd (MemServer.put_agent id authHeader body now store)).
Proof.
  intros Hok Htx. unfold MemServer.put_agent.
  destruct (bearer authHeader); [|exact Htx].
  destruct (AgentStore.get id store) as [stored|] eqn:Hget; [|exact Htx].
  destruct (negb _); [exact Htx|].
  destruct body as [b|]; [|exact Htx].
  destruct (AgentCardSchema b); [exact Htx|].
  apply put_text; [exact Htx|]. cbn.
  eapply get_text; eassumption.
Qed.

Lemma mem_delete_agent_text id authHeader store :
  mem_text store -> mem_text (snd (MemServer.delete_agent id authHeader store)).
Proof.
  intros Htx. unfold MemServer.delete_agent.
  destruct (bearer authHeader); [|exact Htx].
  destruct (AgentStore.get id store); [|exact Htx].
  destruct (negb _); [exact Htx|].
  now apply delete_text.
Qed.

End TextInvariant.

(** ** What a page holds *)

Section MeaningFacts.
Import Model Js Search Paging Invariant Meaning.
Context {C : Casing}.
Local Open Scope list_scope.

Lemma includes_In l s : includes l s = true <-> In s l.
Proof.
  unfold includes. rewrite existsb_exists. split.
  - intros [x [Hin E]]. apply String.eqb_eq in E. now subst.
  - intros Hin. exists s. split; [exact Hin|apply String.eqb_refl].
Qed.

Lemma matches_capability_meaning query a :
  matches_capability query a = true
  <-> (forall c, truthy (q_capability query) = Some c -> In c (capabilities a)).
Proof.
  unfold matches_capability. destruct (truthy (q_capability query)) as [c|].
  - rewrite includes_In. split.
    + intros H c' [= <-]. exact H.
    + intros H. now apply H.
  - split; [discriminate|reflexivity].
Qed.

Lemma matches_intent_meaning query a :
  matches_intent query a = true
  <-> (forall i, truthy (q_intent query) = Some i -> In i (intents a)).
Proof.
  unfold matches_intent. destruct (truthy (q_intent query)) as [i|].
  - rewrite includes_In. split.
    + intros H i' [= <-]. exact H.
    + intros H. now apply H.
  - split; [discriminate|reflexivity].
Qed.

Lemma matches_text_meaning query a :
  matches_text query a = true
  <-> (forall s, truthy (q_q query) = Some s ->
         str_includes (toLowerCase (name a)) (toLowerCase s) = true
         \/ exists d, description a = Some d
                      /\ str_includes (toLowerCase d) (toLowerCase s) = true).
Proof.
  unfold matches_text. destruct (truthy (q_q query)) as [s|].
  - rewrite orb_true_iff. split.
    + intros [H|H] s' [= <-]; [now left|right].
      destruct (description a) as [d|]; [eauto|discriminate].
    + intros H. destruct (H s eq_refl) as [H1|[d [-> H1]]]; auto.
  - split; [discriminate|reflexivity].
Qed.

Lemma matches_meets query a : matches query a = true <-> meets query a.
Proof.
  unfold matches, meets. rewrite !andb_true_iff.
  rewrite matches_capability_meaning, matches_intent_meaning,
    matches_text_meaning. tauto.
Qed.

Lemma after_cursor_incl query l a : In a (after_cursor query l) -> In a l.
Proof.
  unfold after_cursor. destruct (truthy (q_cursor query)); [|auto].
  destruct (findIndex _ l) as [idx|]; [|auto].
  intros H. rewrite <- (firstn_skipn (idx + 1) l). apply in_or_app. now right.
Qed.

Lemma search_from_sound all query r :
  search_from all query = Some r ->
  Forall (fun a => meets query a /\ In a all) (agents r)
  /\ length (agents r) <= q_limit query.
Proof.
  unfold search_from. intros H. apply page_of_shape in H as [-> _]. split.
  - apply Forall_forall. intros a Ha.
    assert (Hin : In a (filtered query all)).
    { apply (after_cursor_incl query).
      rewrite <- (firstn_skipn (q_limit query) (after_cursor _ _)).
      apply in_or_app. now left. }
    rewrite filtered_filter in Hin. apply filter_In in Hin as [Hin Hm].
    split; [now apply matches_meets|exact Hin].
  - apply firstn_le_length.
Qed.

End MeaningFacts.

(** ** C5: paging partitions the result *)

Section PaginationClaim.
Import Model Js Search Paging Invariant Meaning.
Context {C : Casing}.
Local Open Scope list_scope.

Lemma page_of_total query l :
  1 <= q_limit query -> exists r, page_of query l = Some r.
Proof.
  intros Hlim.
  destruct (Nat.lt_ge_cases (length l) (q_limit query)) as [Hs|Hf].
  - rewrite page_of_short by assumption. eauto.
  - destruct (page_of_full query l) as [a [_ ->]]; [lia|]. eauto.
Qed.

Lemma page_of_cursor_none query l r :
  page_of query l = Some r -> cursor r = None ->
  length (agents r) < q_limit query.
Proof.
  unfold page_of.
  destruct (Nat.eqb_spec (length (firstn (q_limit query) l)) (q_limit query))
    as [E|E].
  - destruct (last_elt _); [|discriminate]. intros [= <-]. discriminate.
  - intros [= <-] _. cbn [agents].
    pose proof (firstn_le_length (q_limit query) l). lia.
Qed.

Lemma search_from_page_ok all query r :
  cards_text all -> search_from all query = Some r -> page_ok query r.
Proof.
  intros Htx H. unfold search_from in H.
  pose proof (page_of_cursor_none _ _ _ H) as Hnone.
  pose proof (page_of_shape _ _ _ H) as [Hag [Hshort Hcur]].
  split; [|split].
  - rewrite Hag. apply firstn_le_length.
  - split; [exact Hshort|exact Hnone].
  - intros cur Hc. destruct (Hcur cur Hc) as [_ [a [Hlast [-> Hdec]]]].
    exists a. split; [exact Hlast|]. split; [reflexivity|].
    apply of_base64_encode.
    unfold cards_text in Htx. rewrite Forall_forall in Htx. apply Htx.
    apply last_elt_inv in Hlast as [l' El].
    assert (Hin : In a (agents r)) by (rewrite El; apply in_or_app; right; now left).
    rewrite Hag in Hin.
    assert (Hin' : In a (after_cursor query (filtered query all))).
    { rewrite <- (firstn_skipn (q_limit query) (after_cursor _ _)).
      apply in_or_app. now left. }
    apply after_cursor_incl in Hin'.
    rewrite filtered_filter in Hin'. now apply filter_In in Hin'.
Qed.

Lemma search_from_threads all query :
  cards_ok all -> cards_text all -> 1 <= q_limit query ->
  threads (search_from all) query (filtered query all).
Proof.
  intros Hok Htx Hlim. split.
  - rewrite (search_from_resume all query [] (filtered query all) None)
      by (auto; now left).
    destruct (page_of_total query (filtered query all) Hlim) as [r Hr].
    exists r. split; [exact Hr|]. now apply page_of_shape in Hr.
  - intros done a rest Hsplit.
    rewrite (search_from_resume all query (done ++ [a]) rest
               (Some (Base64.encode (agent_id a)))).
    + destruct (page_of_total query rest Hlim) as [r Hr].
      exists r. split; [exact Hr|]. now apply page_of_shape in Hr.
    + exact Hok.
    + exact Htx.
    + now rewrite <- app_assoc.
    + right. exists a. split; [apply last_elt_snoc|reflexivity].
Qed.

Lemma search_from_one_then_one all query :
  cards_ok all -> cards_text all ->
  one_then_one (search_from all) query (filtered query all).
Proof.
  intros Hok Htx Hlim a1 a2 rest Hfull.
  rewrite (search_from_resume all query [] (filtered query all) None)
    by (auto; now left).
  rewrite (search_from_resume all query [a1] (a2 :: rest)
             (Some (Base64.encode (agent_id a1))));
    [|exact Hok|exact Htx|exact Hfull|right; exists a1; now split].
  rewrite Hfull. unfold page_of. rewrite Hlim. cbn.
  split; [reflexivity|]. split; [reflexivity|].
  destruct (filtered_cards_ok query all Hok) as [Hnd _].
  rewrite Hfull in Hnd. cbn in Hnd. inversion Hnd as [|? ? Hnotin _]; subst.
  intros E. apply Hnotin. rewrite E. now left.
Qed.

Lemma search_from_partitions all query :
  cards_ok all -> cards_text all -> 1 <= q_limit query ->
  exists full,
    search_from all (unpaginated (length all) query)
    = Some {| agents := full; cursor := None |}
    /\ drain (search_from all) (with_cursor None query) (S (length all))
       = Some full
    /\ NoDup (map agent_id full)
    /\ (forall a, In a full <-> In a all /\ meets query a)
    /\ threads (search_from all) query full
    /\ one_then_one (search_from all) query full.
Proof.
  intros Hok Htx Hlim. exists (filtered query all).
  split; [|split; [|split; [|split; [|split]]]].
  - apply unpaginated_all.
  - now apply drain_all.
  - now apply filtered_cards_ok.
  - intros a. rewrite filtered_filter, filter_In, matches_meets. tauto.
  - now apply search_from_threads.
  - now apply search_from_one_then_one.
Qed.

Lemma db_cards_text db :
  db_text db ->
  cards_text (map Store.card_json
                  (sort_by Store.row_agent_id (Store.agents_table db))).
Proof.
  unfold db_text, cards_text. rewrite !Forall_map.
  apply Permutation_Forall. symmetry. apply sort_by_perm.
Qed.

(** C5.  In either store, with one record per [agent_id], identifiers that
    are JavaScript strings, and a page size of at least one, there is a
    list [full] of agents such that:
    - the one request that no page size cuts short returns [full], with no
      cursor;
    - asking page after page from the start, each time with the cursor the
      last page returned, ends by itself within as many requests as there
      are records plus one and hands out exactly [full], in the same order;
    - no [agent_id] occurs twice in [full], and [full] holds exactly the
      stored cards that meet the filters (no repeat, no omission);
    - the first request returns the first [limit] agents of [full], and
      the request with the cursor of an agent of [full] returns the
      [limit] agents after it;
    - with [limit] 1, the first request returns the first agent of [full]
      and the request with its cursor the second, a different agent.
    Every request answers, whatever cursor it carries, and its page holds
    at most [limit] agents, carries a cursor exactly when it holds [limit]
    of them (so a shorter page carries none), and the cursor is the base64
    text of the [agent_id] of the last agent on the page, which it decodes
    to. *)
Theorem paging_partitions_result
        (store : AgentStore.t) (db : Store.Db) (query : Query) :
  mem_ok store -> db_ok db -> mem_text store -> db_text db ->
  1 <= q_limit query ->
  (exists full,
      AgentStore.search store (unpaginated (AgentStore.count store) query)
      = Some {| agents := full; cursor := None |}
      /\ drain (AgentStore.search store) (with_cursor None query)
               (S (AgentStore.count store)) = Some full
      /\ NoDup (map agent_id full)
      /\ (forall a, In a full
                    <-> In a (map card (map_values store)) /\ meets query a)
      /\ threads (AgentStore.search store) query full
      /\ one_then_one (AgentStore.search store) query full)
  /\ (exists full,
         Store.searchAgents db (unpaginated (Store.countAgents db) query)
         = Some {| agents := full; cursor := None |}
         /\ drain (Store.searchAgents db) (with_cursor None query)
                  (S (Store.countAgents db)) = Some full
         /\ NoDup (map agent_id full)
         /\ (forall a, In a full
                       <-> In a (map Store.card_json (Store.agents_table db))
                           /\ meets query a)
         /\ threads (Store.searchAgents db) query full
         /\ one_then_one (Store.searchAgents db) query full)
  /\ (forall c,
         (exists r, AgentStore.search store (with_cursor c query) = Some r)
         /\ (exists r, Store.searchAgents db (with_cursor c query) = Some r))
  /\ (forall c r,
         AgentStore.search store (with_cursor c query) = Some r
         \/ Store.searchAgents db (with_cursor c query) = Some r ->
         page_ok query r).
Proof.
  intros Hmem Hdb Hmt Hdt Hlim.
  pose proof (mem_cards_ok store Hmem) as Hcm.
  pose proof (db_cards_ok db Hdb) as Hcd.
  pose proof (db_cards_text db Hdt) as Hdt'.
  split; [|split; [|split]].
  - destruct (search_from_partitions _ query Hcm Hmt Hlim) as [full H].
    exists full. unfold AgentStore.search, AgentStore.count.
    unfold map_values in *. now rewrite !length_map in H.
  - destruct (search_from_partitions _ query Hcd Hdt' Hlim)
      as (full & H1 & H2 & H3 & H4 & H5).
    exists full. unfold Store.searchAgents, Store.countAgents.
    rewrite length_map in H1, H2.
    rewrite (Permutation_length (sort_by_perm _ _)) in H1, H2.
    split; [exact H1|]. split; [exact H2|]. split; [exact H3|].
    split; [|exact H5].
    intros a. rewrite H4, !in_map_iff. split.
    + intros [[r [E Hr]] Hm]. split; [|exact Hm].
      exists r. split; [exact E|]. now apply sort_by_In in Hr.
    + intros [[r [E Hr]] Hm]. split; [|exact Hm].
      exists r. split; [exact E|]. now apply sort_by_In.
  - intros c. split; now apply page_of_total.
  - intros c r [H|H].
    + apply (search_from_page_ok _ (with_cursor c query) r Hmt H).
    + apply (search_from_page_ok _ (with_cursor c query) r Hdt' H).
Qed.

End PaginationClaim.

(** ** C5 on the two small directories *)

Section PaginationExamples.
Import Model Js Search Paging Invariant Meaning Demo Scenario.

Lemma mem_two_ok : mem_ok mem_two.
Proof. apply mem_post_agents_ok, mem_post_agents_ok, empty_ok. Qed.

Lemma db_two_ok : db_ok db_two.
Proof. apply server_post_agents_ok, server_post_agents_ok, empty_ok. Qed.

Lemma mem_two_text : mem_text mem_two.
Proof. repeat constructor. Qed.

Lemma db_two_text : db_text db_two.
Proof. repeat constructor. Qed.

Lemma paging_partitions_result_witness :
  mem_ok mem_two /\ db_ok db_two /\ mem_text mem_two /\ db_text db_two
  /\ 1 <= q_limit one_by_one
  /\ exists full,
      Store.searchAgents db_two (unpaginated (Store.countAgents db_two) one_by_one)
      = Some {| agents := full; cursor := None |}
      /\ drain (Store.searchAgents db_two) (with_cursor None one_by_one)
               (S (Store.countAgents db_two)) = Some full
      /\ NoDup (map agent_id full)
      /\ (forall a, In a full
                    <-> In a (map Store.card_json (Store.agents_table db_two))
                        /\ meets one_by_one a)
      /\ threads (Store.searchAgents db_two) one_by_one full
      /\ one_then_one (Store.searchAgents db_two) one_by_one full.
Proof.
  split; [exact mem_two_ok|]. split; [exact db_two_ok|].
  split; [exact mem_two_text|]. split; [exact db_two_text|].
  split; [apply le_n|].
  exact (proj1 (proj2 (paging_partitions_result mem_two db_two one_by_one
                         mem_two_ok db_two_ok mem_two_text db_two_text
                         (le_n 1)))).
Defined.

(** [limit=1] twice over SQLite: Alice, then Bob, then the end. *)
Example paging_limit_one_sqlite :
  let p1 := Store.searchAgents db_two one_by_one in
  let p2 := Store.searchAgents db_two (with_cursor (cursor_of p1) one_by_one) in
  let p3 := Store.searchAgents db_two (with_cursor (cursor_of p2) one_by_one) in
  ids_of p1 = Some [alice_id] /\ ids_of p2 = Some [bob_id]
  /\ ids_of p3 = Some [] /\ cursor_of p3 = None
  /\ ids_of (Store.searchAgents db_two (unpaginated 2 one_by_one))
     = Some [alice_id; bob_id].
Proof. vm_compute. repeat split. Qed.

(** The same over the in-memory store: Bob, then Alice, then the end. *)
Example paging_limit_one_memory :
  let p1 := AgentStore.search mem_two one_by_one in
  let p2 := AgentStore.search mem_two (with_cursor (cursor_of p1) one_by_one) in
  let p3 := AgentStore.search mem_two (with_cursor (cursor_of p2) one_by_one) in
  ids_of p1 = Some [bob_id] /\ ids_of p2 = Some [alice_id]
  /\ ids_of p3 = Some [] /\ cursor_of p3 = None
  /\ ids_of (AgentStore.search mem_two (unpaginated 2 one_by_one))
     = Some [bob_id; alice_id].
Proof. vm_compute. repeat split. Qed.

End PaginationExamples.

(** ** C10: a cursor that names no agent of the result *)

Section StaleCursorClaim.
Import Model Js Search Paging Invariant Reading Meaning.
Context {C : Casing}.
Local Open Scope list_scope.

Lemma search_from_stale all query c :
  q_cursor query = Some c ->
  ~ In (Utf8.of_base64 c) (map agent_id (filtered query all)) ->
  search_from all query = page_of query (filtered query all).
Proof.
  intros Hc Hnot. unfold search_from.
  now rewrite (after_cursor_absent query c _ Hc Hnot).
Qed.

Lemma search_from_start all query :
  search_from all (with_cursor None query) = page_of query (filtered query all).
Proof.
  unfold search_from.
  rewrite page_of_with_cursor, filtered_with_cursor.
  now rewrite after_cursor_none by reflexivity.
Qed.

Lemma filtered_without (p : AgentCard -> bool) query l :
  filtered query (filter p l) = filter p (filtered query l).
Proof.
  rewrite !filtered_filter, !filter_filter. apply filter_ext.
  intros a. apply andb_comm.
Qed.

(** Dropping the one card with a given identifier. *)
Lemma filter_other_id done a rest :
  NoDup (map agent_id (done ++ a :: rest)) ->
  filter (fun x => negb (String.eqb (agent_id x) (agent_id a)))
         (done ++ a :: rest)
  = done ++ rest.
Proof.
  intros Hnd. rewrite filter_app. cbn [filter].
  rewrite String.eqb_refl. cbn [negb].
  rewrite map_app in Hnd. cbn [map] in Hnd.
  pose proof (NoDup_remove_2 _ _ _ Hnd) as Hnot.
  assert (Hkeep : forall l, (forall x, In x l -> In (agent_id x)
                                                   (map agent_id done
                                                    ++ map agent_id rest)) ->
                            filter (fun x => negb (String.eqb (agent_id x)
                                                              (agent_id a))) l
                            = l).
  { induction l as [|x l IH]; intros Hl; [reflexivity|].
    cbn [filter].
    destruct (String.eqb_spec (agent_id x) (agent_id a)) as [E|_].
    - exfalso. apply Hnot. rewrite <- E. apply Hl. now left.
    - cbn [negb]. f_equal. apply IH. intros y Hy. apply Hl. now right. }
  rewrite !Hkeep; [reflexivity| |].
  - intros x Hx. apply in_or_app. right. now apply in_map.
  - intros x Hx. apply in_or_app. left. now apply in_map.
Qed.

Lemma mem_cards_delete id store :
  mem_ok store ->
  map card (map_values (snd (AgentStore.delete id store)))
  = filter (fun a => negb (String.eqb (agent_id a) id))
           (map card (map_values store)).
Proof.
  intros [_ Hall]. unfold AgentStore.delete, map_delete, map_values.
  cbn [snd]. induction Hall as [|[k v] r [Hk _] _ IH]; [reflexivity|].
  cbn [filter map fst snd] in *. rewrite <- Hk.
  destruct (String.eqb k id); cbn [negb map snd]; now rewrite IH.
Qed.

Lemma db_cards_delete id db :
  db_ok db ->
  map Store.card_json
      (sort_by Store.row_agent_id
               (Store.agents_table (snd (Store.deleteAgent id db))))
  = filter (fun a => negb (String.eqb (agent_id a) id))
           (map Store.card_json
                (sort_by Store.row_agent_id (Store.agents_table db))).
Proof.
  intros Hok. pose proof (db_sorted_rows_ok db Hok) as Hs.
  unfold Store.deleteAgent. cbn [snd Store.agents_table Store.with_agents].
  rewrite sort_by_filter.
  induction Hs as [|r rows [Hk _] _ IH]; [reflexivity|].
  cbn [filter map]. rewrite <- Hk.
  destruct (String.eqb (Store.row_agent_id r) id); cbn [negb map];
    now rewrite IH.
Qed.

(** The agent named by the cursor has left: the page starts again at the
    head of what is left of the list. *)
Lemma search_from_after_leaving all all' query done a rest :
  cards_ok all -> cards_text all -> 1 <= q_limit query ->
  filtered query all = done ++ a :: rest ->
  all' = filter (fun x => negb (String.eqb (agent_id x) (agent_id a))) all ->
  exists r,
    search_from all' (with_cursor (Some (Base64.encode (agent_id a))) query)
    = Some r
    /\ agents r = firstn (q_limit query) (done ++ rest).
Proof.
  intros Hok Htx Hlim Hsplit ->.
  destruct (filtered_cards_ok query all Hok) as [Hnd Hne].
  pose proof (filtered_cards_text query all Htx) as Ht.
  rewrite Hsplit in Hnd, Hne, Ht.
  assert (Ha : In a (done ++ a :: rest)) by (apply in_or_app; right; now left).
  unfold cards_text in Ht. rewrite Forall_forall in Hne, Ht.
  assert (Hleft : filtered query
                    (filter (fun x => negb (String.eqb (agent_id x)
                                                       (agent_id a))) all)
                  = done ++ rest).
  { now rewrite filtered_without, Hsplit, filter_other_id. }
  rewrite (search_from_stale _ _ (Base64.encode (agent_id a))).
  - rewrite page_of_with_cursor, filtered_with_cursor, Hleft.
    destruct (page_of_total query (done ++ rest) Hlim) as [r Hr].
    exists r. split; [exact Hr|]. now apply page_of_shape in Hr.
  - reflexivity.
  - rewrite filtered_with_cursor, Hleft.
    rewrite of_base64_encode by now apply Ht.
    rewrite map_app in Hnd. cbn [map] in Hnd.
    apply NoDup_remove_2 in Hnd. now rewrite map_app.
Qed.

(** C10.  When the [agent_id] a cursor decodes to is not among the agents
    the query selects, and the page size is at least one, either store
    answers with the page it gives when no cursor is sent, and that page
    is the first [limit] agents of the list the query selects (the stored
    cards that meet the filters): the listing starts again at its head.
    So the agents already handed out are returned again: in a store with
    one record per [agent_id] and identifiers that are JavaScript strings,
    let the query select the agents [done], then [a], then [rest], and let
    [a] be removed; the request that carries the cursor of [a] returns the
    first [limit] agents of [done] followed by [rest], where with [a]
    still stored it returns those of [rest] alone. *)
Theorem stale_cursor_restarts
        (store : AgentStore.t) (db : Store.Db) (query : Query) (c : string) :
  q_cursor query = Some c ->
  1 <= q_limit query ->
  ~ In (Utf8.of_base64 c) (map agent_id (mem_matching store query)) ->
  ~ In (Utf8.of_base64 c) (map agent_id (db_matching db query)) ->
  (exists r,
      AgentStore.search store query = Some r
      /\ AgentStore.search store (with_cursor None query) = Some r
      /\ agents r = firstn (q_limit query) (mem_matching store query))
  /\ (exists r,
         Store.searchAgents db query = Some r
         /\ Store.searchAgents db (with_cursor None query) = Some r
         /\ agents r = firstn (q_limit query) (db_matching db query))
  /\ (forall a, In a (mem_matching store query)
                <-> In a (map card (map_values store)) /\ meets query a)
  /\ (forall a, In a (db_matching db query)
                <-> In a (map Store.card_json (Store.agents_table db))
                    /\ meets query a)
  /\ (mem_ok store -> mem_text store ->
      forall done a rest,
        mem_matching store query = done ++ a :: rest ->
        (exists r,
            AgentStore.search (snd (AgentStore.delete (agent_id a) store))
              (with_cursor (Some (Base64.encode (agent_id a))) query) = Some r
            /\ agents r = firstn (q_limit query) (done ++ rest))
        /\ (exists r,
               AgentStore.search store
                 (with_cursor (Some (Base64.encode (agent_id a))) query)
               = Some r
               /\ agents r = firstn (q_limit query) rest))
  /\ (db_ok db -> db_text db ->
      forall done a rest,
        db_matching db query = done ++ a :: rest ->
        (exists r,
            Store.searchAgents (snd (Store.deleteAgent (agent_id a) db))
              (with_cursor (Some (Base64.encode (agent_id a))) query) = Some r
            /\ agents r = firstn (q_limit query) (done ++ rest))
        /\ (exists r,
               Store.searchAgents db
                 (with_cursor (Some (Base64.encode (agent_id a))) query)
               = Some r
               /\ agents r = firstn (q_limit query) rest)).
Proof.
  intros Hc Hlim Hmem Hdb. unfold mem_matching in *. unfold db_matching in *.
  split; [|split; [|split; [|split; [|split]]]].
  - unfold AgentStore.search.
    rewrite (search_from_stale _ _ c Hc Hmem), search_from_start.
    destruct (page_of_total query
                (filtered query (map card (map_values store))) Hlim) as [r Hr].
    exists r. split; [exact Hr|]. split; [exact Hr|].
    now apply page_of_shape in Hr.
  - unfold Store.searchAgents.
    rewrite (search_from_stale _ _ c Hc Hdb), search_from_start.
    destruct (page_of_total query
                (filtered query
                   (map Store.card_json
                      (sort_by Store.row_agent_id (Store.agents_table db))))
                Hlim) as [r Hr].
    exists r. split; [exact Hr|]. split; [exact Hr|].
    now apply page_of_shape in Hr.
  - intros a. rewrite filtered_filter, filter_In, matches_meets. tauto.
  - intros a. rewrite filtered_filter, filter_In, matches_meets.
    rewrite !in_map_iff. split.
    + intros [[r [E Hr]] Hm]. split; [|exact Hm].
      exists r. split; [exact E|]. now apply sort_by_In in Hr.
    + intros [[r [E Hr]] Hm]. split; [|exact Hm].
      exists r. split; [exact E|]. now apply sort_by_In.
  - intros Hok Htx done a rest Hsplit. split.
    + unfold AgentStore.search.
      apply (search_from_after_leaving (map card (map_values store)));
        auto using mem_cards_ok, mem_cards_delete.
    + destruct (search_from_threads _ query (mem_cards_ok store Hok) Htx Hlim)
        as [_ Hth].
      exact (Hth done a rest Hsplit).
  - intros Hok Htx done a rest Hsplit.
    pose proof (db_cards_text db Htx) as Htx'. split.
    + unfold Store.searchAgents.
      apply (search_from_after_leaving
               (map Store.card_json
                    (sort_by Store.row_agent_id (Store.agents_table db))));
        auto using db_cards_ok, db_cards_delete.
    + destruct (search_from_threads _ query (db_cards_ok db Hok) Htx' Hlim)
        as [_ Hth].
      exact (Hth done a rest Hsplit).
Qed.

End StaleCursorClaim.

(** ** C10 on the two small directories *)

Section StaleCursorExamples.
Import Model Js Search Paging Invariant Reading Meaning Demo Scenario.

Lemma stale_cursor_restarts_witness :
  q_cursor after_carol_left = Some (Base64.encode "sk_cccccccccccccccc")
  /\ 1 <= q_limit after_carol_left
  /\ ~ In (Utf8.of_base64 (Base64.encode "sk_cccccccccccccccc"))
          (map agent_id (mem_matching mem_two after_carol_left))
  /\ ~ In (Utf8.of_base64 (Base64.encode "sk_cccccccccccccccc"))
          (map agent_id (db_matching db_two after_carol_left))
  /\ (exists r,
         AgentStore.search mem_two after_carol_left = Some r
         /\ AgentStore.search mem_two (with_cursor None after_carol_left)
            = Some r
         /\ agents r = firstn (q_limit after_carol_left)
                              (mem_matching mem_two after_carol_left)).
Proof.
  assert (H0 : q_cursor after_carol_left
               = Some (Base64.encode "sk_cccccccccccccccc")) by reflexivity.
  assert (H1 : ~ In (Utf8.of_base64 (Base64.encode "sk_cccccccccccccccc"))
                    (map agent_id (mem_matching mem_two after_carol_left))).
  { vm_compute. intros [H|[H|[]]]; discriminate H. }
  assert (H2 : ~ In (Utf8.of_base64 (Base64.encode "sk_cccccccccccccccc"))
                    (map agent_id (db_matching db_two after_carol_left))).
  { vm_compute. intros [H|[H|[]]]; discriminate H. }
  split; [exact H0|]. split; [apply le_n|]. split; [exact H1|].
  split; [exact H2|].
  exact (proj1 (stale_cursor_restarts mem_two db_two after_carol_left _
                  H0 (le_n 1) H1 H2)).
Defined.

(** Over SQLite: Alice and Bob were handed out on pages one and two; Bob
    deregisters; the request for page three, with Bob's cursor, returns
    Alice again. *)
Example stale_cursor_repeats_sqlite :
  let p1 := Store.searchAgents db_two one_by_one in
  let p2 := Store.searchAgents db_two (with_cursor (cursor_of p1) one_by_one) in
  let '(gone, db') := Server.delete_agent bob_id (Some "Bearer bob-token") db_two in
  let p3 := Store.searchAgents db' (with_cursor (cursor_of p2) one_by_one) in
  ids_of p1 = Some [alice_id] /\ ids_of p2 = Some [bob_id]
  /\ Http.status gone = 204%Z /\ ids_of p3 = Some [alice_id].
Proof. vm_compute. repeat split. Qed.

(** Over the in-memory store: Bob, Alice, Alice deregisters, Bob again. *)
Example stale_cursor_repeats_memory :
  let p1 := AgentStore.search mem_two one_by_one in
  let p2 := AgentStore.search mem_two (with_cursor (cursor_of p1) one_by_one) in
  let '(gone, store') :=
    MemServer.delete_agent alice_id (Some "Bearer alice-token") mem_two in
  let p3 := AgentStore.search store' (with_cursor (cursor_of p2) one_by_one) in
  ids_of p1 = Some [bob_id] /\ ids_of p2 = Some [alice_id]
  /\ Http.status gone = 204%Z /\ ids_of p3 = Some [bob_id].
Proof. vm_compute. repeat split. Qed.

(** A cursor whose bytes are no UTF-8 decodes to U+FFFD, and names an
    agent with that identifier. *)
Example cursor_of_stray_byte :
  Utf8.of_base64 "/w==" = Utf8.replacement.
Proof. reflexivity. Qed.

End StaleCursorExamples.

(** ** C9: reads never look at the expiry date *)

Section ExpiryClaim.
Import Model Js Search Reading.
Context {C : Casing}.

Lemma insert_by_map {A} (key : A -> string) (g : A -> A) x l :
  (forall r, key (g r) = key r) ->
  insert_by key (g x) (map g l) = map g (insert_by key x l).
Proof.
  intros Hk. induction l as [|h t IH]; [reflexivity|].
  simpl. rewrite !Hk. destruct (String.leb (key x) (key h)); [reflexivity|].
  simpl. now rewrite IH.
Qed.

Lemma sort_by_map {A} (key : A -> string) (g : A -> A) l :
  (forall r, key (g r) = key r) ->
  sort_by key (map g l) = map g (sort_by key l).
Proof.
  intros Hk. induction l as [|h t IH]; [reflexivity|].
  simpl. rewrite IH. now apply insert_by_map.
Qed.

Lemma find_map {A} (p : A -> bool) (g : A -> A) l :
  (forall r, p (g r) = p r) -> find p (map g l) = option_map g (find p l).
Proof.
  intros Hp. induction l as [|h t IH]; [reflexivity|].
  simpl. rewrite Hp. destruct (p h); [reflexivity|exact IH].
Qed.

(** C9.  Rewrite the expiry dates of a store in any way (into the past,
    say): [get] finds the same records, each with its rewritten date;
    [search] returns the same pages and cursors; GET /v1/agents/:id returns
    the same response.  And a record just put is read back whatever its
    expiry date is.  This holds for the in-memory store and for SQLite. *)
Theorem expiry_not_consulted
        (e : string -> string) (store : AgentStore.t) (db : Store.Db)
        (id : string) (query : Query) :
  AgentStore.get id (mem_reexpire e store)
  = option_map (reexpire e) (AgentStore.get id store)
  /\ AgentStore.search (mem_reexpire e store) query
     = AgentStore.search store query
  /\ MemServer.get_agent id (mem_reexpire e store) = MemServer.get_agent id store
  /\ Store.getAgent id (db_reexpire e db)
     = option_map (reexpire e) (Store.getAgent id db)
  /\ Store.searchAgents (db_reexpire e db) query = Store.searchAgents db query
  /\ Server.get_agent id (db_reexpire e db) = Server.get_agent id db
  /\ (forall a, AgentStore.get (agent_id (card a)) (AgentStore.put a store)
                = Some a)
  /\ (forall a, Store.getAgent (agent_id (card a)) (Store.putAgent a db)
                = Some a).
Proof.
  assert (Hget : AgentStore.get id (mem_reexpire e store)
                 = option_map (reexpire e) (AgentStore.get id store)).
  { unfold AgentStore.get, mem_reexpire.
    induction store as [|[k v] r IH]; [reflexivity|].
    simpl. destruct (String.eqb k id); [reflexivity|exact IH]. }
  assert (HgetA : Store.getAgent id (db_reexpire e db)
                  = option_map (reexpire e) (Store.getAgent id db)).
  { unfold Store.getAgent, db_reexpire.
    cbn [Store.agents_table Store.with_agents].
    rewrite find_map by reflexivity.
    now destruct (find _ (Store.agents_table db)). }
  repeat split.
  - exact Hget.
  - unfold AgentStore.search, mem_reexpire, map_values.
    f_equal. rewrite !map_map. reflexivity.
  - unfold MemServer.get_agent. rewrite Hget.
    now destruct (AgentStore.get id store).
  - exact HgetA.
  - unfold Store.searchAgents, db_reexpire.
    cbn [Store.agents_table Store.with_agents].
    rewrite sort_by_map by reflexivity. now rewrite map_map.
  - unfold Server.get_agent. rewrite HgetA.
    now destruct (Store.getAgent id db).
  - intros a. apply map_get_set_same.
  - intros a. apply getAgent_putAgent_same.
Qed.

End ExpiryClaim.

Section ExpiryExample.
Import Model Js Search Reading Demo Scenario.

(** Bob registered on 1970-01-01 and expired on 1970-01-31; the handlers
    that read take no clock, and he is still found and still listed. *)
Example expired_agent_still_served :
  option_map expires_at (Store.getAgent bob_id db_two)
  = Some "1970-01-31T00:00:00.000Z"
  /\ Http.status (Server.get_agent bob_id db_two) = 200%Z
  /\ ids_of (Store.searchAgents db_two (everyone 20 None))
     = Some [alice_id; bob_id]
  /\ Http.status (MemServer.get_agent bob_id mem_two) = 200%Z
  /\ ids_of (AgentStore.search mem_two (everyone 20 None))
     = Some [bob_id; alice_id].
Proof. vm_compute. repeat split. Qed.

End ExpiryExample.

(** ** C4: the order of search results *)

Section OrderClaim.
Import Model Js Search Invariant Demo Scenario.

(** C4, at the failing input.  Bob registered before Alice and Alice's
    identifier sorts before Bob's.  The in-memory store lists Bob first
    (insertion order), which is not ascending [agent_id] order; the SQLite
    store lists Alice first (see [searchAgents_sorted]). *)
Theorem memory_search_in_insertion_order :
  ids_of (AgentStore.search mem_two (everyone 20 None))
  = Some [bob_id; alice_id]
  /\ String.ltb alice_id bob_id = true
  /\ ~ StronglySorted (fun a b => String.leb a b = true) [bob_id; alice_id]
  /\ ids_of (Store.searchAgents db_two (everyone 20 None))
     = Some [alice_id; bob_id].
Proof.
  repeat split; try (vm_compute; reflexivity).
  intros H. apply StronglySorted_inv in H as [_ H].
  apply Forall_inv in H. vm_compute in H. discriminate H.
Qed.

End OrderClaim.

(** ** C6, C7, C8: registration, update and deregistration *)

Section RegistrationClaims.
Import Json Model Js Http Invariant.
Context {P : Platform}.
Local Open Scope Z_scope.

(** C6.  An update or a delete that presents a credential whose hash is not
    the stored [token_hash] of the existing record is answered 403 with
    code UNAUTHORIZED and leaves the store as it was; when no record has
    that identifier the answer is 404 with code AGENT_UNAVAILABLE; the two
    codes differ.  Both servers. *)
Theorem mismatched_credential_is_unauthorized
        (id : string) (authHeader : option string) (token : string)
        (body : option json) (now : Z)
        (db : Store.Db) (in_db : StoredAgent)
        (store : AgentStore.t) (in_store : StoredAgent) :
  bearer authHeader = Some token ->
  Store.getAgent id db = Some in_db ->
  token_hash in_db <> Server.hashToken token ->
  AgentStore.get id store = Some in_store ->
  token_hash in_store <> MemServer.hashToken token ->
  (Server.put_agent id authHeader body now db
   = (json_error UNAUTHORIZED "Invalid token" 403, db)
   /\ Server.delete_agent id authHeader db
      = (json_error UNAUTHORIZED "Invalid token" 403, db)
   /\ MemServer.put_agent id authHeader body now store
      = (json_error UNAUTHORIZED "Invalid token" 403, store)
   /\ MemServer.delete_agent id authHeader store
      = (json_error UNAUTHORIZED "Invalid token" 403, store))
  /\ (forall db0, Store.getAgent id db0 = None ->
        Server.put_agent id authHeader body now db0
        = (json_error AGENT_UNAVAILABLE "Agent not found" 404, db0)
        /\ Server.delete_agent id authHeader db0
           = (json_error AGENT_UNAVAILABLE "Agent not found" 404, db0))
  /\ (forall store0, AgentStore.get id store0 = None ->
        MemServer.put_agent id authHeader body now store0
        = (json_error AGENT_UNAVAILABLE "Agent not found" 404, store0)
        /\ MemServer.delete_agent id authHeader store0
           = (json_error AGENT_UNAVAILABLE "Agent not found" 404, store0))
  /\ error_code (json_error UNAUTHORIZED "Invalid token" 403)
     <> error_code (json_error AGENT_UNAVAILABLE "Agent not found" 404).
Proof.
  intros Hb Hdb Hne Hst Hne'.
  apply String.eqb_neq in Hne, Hne'.
  unfold Server.put_agent, Server.delete_agent,
    MemServer.put_agent, MemServer.delete_agent.
  rewrite Hb, Hdb, Hst, Hne, Hne'. cbn [negb].
  split; [repeat split|].
  split; [intros db0 H0; now rewrite H0|].
  split; [intros store0 H0; now rewrite H0|].
  discriminate.
Qed.

(** C7.  An update that succeeds stores, under the identifier of the
    request, the submitted card with its [agent_id] set to that identifier;
    [registered_at] and [token_hash] are those of the record before; only
    [expires_at] is new, 30 days after the time of the update.  No other
    record changes.  Both servers. *)
Theorem update_preserves_identity
        (id : string) (authHeader : option string) (body : option json)
        (now : Z)
        (db db' : Store.Db) (resp : Response)
        (store store' : AgentStore.t) (mresp : Response) :
  Server.put_agent id authHeader body now db = (resp, db') ->
  status resp = 200 ->
  MemServer.put_agent id authHeader body now store = (mresp, store') ->
  status mresp = 200 ->
  exists b data,
    body = Some b /\ AgentCardSchema b = inr data
    /\ (exists old,
           Store.getAgent id db = Some old
           /\ Store.getAgent id db'
              = Some {| card := set_agent_id id data;
                        registered_at := registered_at old;
                        expires_at := toISOString (now + 2592000000);
                        token_hash := token_hash old |}
           /\ resp = respond (BUpdated id (toISOString (now + 2592000000))) 200
           /\ (forall id', id' <> id ->
                 Store.getAgent id' db' = Store.getAgent id' db)
           /\ Store.messages_table db' = Store.messages_table db)
    /\ (exists old,
           AgentStore.get id store = Some old
           /\ AgentStore.get id store'
              = Some {| card := set_agent_id id data;
                        registered_at := registered_at old;
                        expires_at := toISOString (now + 2592000000);
                        token_hash := token_hash old |}
           /\ mresp = respond (BUpdated id (toISOString (now + 2592000000))) 200
           /\ (forall id', id' <> id ->
                 AgentStore.get id' store' = AgentStore.get id' store))
    /\ agent_id (set_agent_id id data) = id.
Proof.
  unfold Server.put_agent, MemServer.put_agent.
  destruct (bearer authHeader) as [token|];
    [|intros [= <- _] Hs; discriminate Hs].
  destruct (Store.getAgent id db) as [old|] eqn:Hget;
    [|intros [= <- _] Hs; discriminate Hs].
  destruct (negb (String.eqb (token_hash old) (Server.hashToken token)));
    [intros [= <- _] Hs; discriminate Hs|].
  destruct body as [b|]; [|intros [= <- _] Hs; discriminate Hs].
  destruct (AgentCardSchema b) as [issues|data] eqn:Hschema;
    [intros [= <- _] Hs; discriminate Hs|].
  intros [= <- <-] _.
  destruct (AgentStore.get id store) as [mold|] eqn:Hmget;
    [|intros [= <- _] Hs; discriminate Hs].
  destruct (negb (String.eqb (token_hash mold) (MemServer.hashToken token)));
    [intros [= <- _] Hs; discriminate Hs|].
  intros [= <- <-] _.
  exists b, data. split; [reflexivity|]. split; [exact Hschema|].
  split; [|split; [|reflexivity]].
  - exists old. split; [reflexivity|]. split; [|split; [reflexivity|split]].
    + apply (getAgent_putAgent_same
               {| card := set_agent_id id data;
                  registered_at := registered_at old;
                  expires_at := toISOString (now + thirty_days);
                  token_hash := token_hash old |}).
    + intros id' Hid. now apply getAgent_putAgent_other.
    + reflexivity.
  - exists mold. split; [reflexivity|]. split; [|split; [reflexivity|]].
    + apply map_get_set_same.
    + intros id' Hid. now apply map_get_set_other.
Qed.

(** C8.  A registration with a bearer credential and a card the schema
    accepts is answered 201 and stores one record under a server-generated
    identifier (the agent prefix and the random characters drawn for the
    request): the card with that identifier in place of the caller's, the
    digest of the credential, the time of registration and an expiry
    exactly 30 days later.  The record is read back under its identifier,
    the store holds one record for it and stays one-record-per-identifier;
    the outcome does not depend on the [agent_id] in the submitted card,
    and depends on the credential through its digest only.  Both
    servers. *)
Theorem register_issues_record
        (authHeader : option string) (token : string) (b : json)
        (data : AgentCard) (rand : string) (now : Z)
        (db : Store.Db) (store : AgentStore.t) :
  bearer authHeader = Some token ->
  AgentCardSchema b = inr data ->
  let id := ("sk_" ++ rand)%string in
  let record := {| card := set_agent_id id data;
                   registered_at := toISOString now;
                   expires_at := toISOString (now + 2592000000);
                   token_hash := sha256_hex token |} in
  let created :=
    respond (BRegistered id (toISOString now) (toISOString (now + 2592000000)))
            201 in
  (Server.post_agents authHeader (Some b) rand now db
   = (created, Store.putAgent record db)
   /\ Store.getAgent id (Store.putAgent record db) = Some record
   /\ length (filter (fun r => String.eqb (Store.row_agent_id r) id)
                     (Store.agents_table (Store.putAgent record db))) = 1%nat
   /\ (db_ok db -> db_ok (Store.putAgent record db)))
  /\ (MemServer.post_agents authHeader (Some b) rand now store
      = (created, AgentStore.put record store)
      /\ AgentStore.get id (AgentStore.put record store) = Some record
      /\ (mem_ok store -> mem_ok (AgentStore.put record store)))
  /\ agent_id (card record) = id
  /\ (forall b2 data2,
        AgentCardSchema b2 = inr data2 ->
        set_agent_id id data2 = set_agent_id id data ->
        Server.post_agents authHeader (Some b2) rand now db
        = Server.post_agents authHeader (Some b) rand now db
        /\ MemServer.post_agents authHeader (Some b2) rand now store
           = MemServer.post_agents authHeader (Some b) rand now store)
  /\ (forall authHeader2 token2,
        bearer authHeader2 = Some token2 ->
        sha256_hex token2 = sha256_hex token ->
        Server.post_agents authHeader2 (Some b) rand now db
        = Server.post_agents authHeader (Some b) rand now db
        /\ MemServer.post_agents authHeader2 (Some b) rand now store
           = MemServer.post_agents authHeader (Some b) rand now store).
Proof.
  intros Hb Hs id record created.
  assert (Hid : agent_id (card record) = id) by reflexivity.
  split; [|split; [|split; [exact Hid|split]]].
  - split; [|split; [|split]].
    + unfold Server.post_agents. now rewrite Hb, Hs.
    + rewrite <- Hid at 1. apply getAgent_putAgent_same.
    + rewrite <- Hid. apply putAgent_one_row.
    + intros Hok. apply putAgent_ok; [exact Hok|discriminate].
  - split; [|split].
    + unfold MemServer.post_agents. now rewrite Hb, Hs.
    + apply map_get_set_same.
    + intros Hok. apply put_ok; [exact Hok|discriminate].
  - intros b2 data2 Hs2 E.
    unfold Server.post_agents, MemServer.post_agents.
    rewrite Hb, Hs, Hs2. unfold agentId, generateId. fold id.
    now rewrite E.
  - intros authHeader2 token2 Hb2 E.
    unfold Server.post_agents, MemServer.post_agents,
      Server.hashToken, MemServer.hashToken.
    now rewrite Hb, Hb2, Hs, E.
Qed.

End RegistrationClaims.

(** ** C6, C7, C8 on the two small directories *)

Section RegistrationWitnesses.
Import Json Model Js Http Invariant Demo Scenario Records.
Local Open Scope Z_scope.

Lemma mismatched_credential_is_unauthorized_witness :
  bearer (Some "Bearer not-bobs-token") = Some "not-bobs-token"
  /\ Store.getAgent bob_id db_two = Some bob_record
  /\ token_hash bob_record <> Server.hashToken "not-bobs-token"
  /\ AgentStore.get bob_id mem_two = Some bob_record
  /\ token_hash bob_record <> MemServer.hashToken "not-bobs-token"
  /\ Server.put_agent bob_id (Some "Bearer not-bobs-token") (Some bob_renamed)
                      day db_two
     = (json_error UNAUTHORIZED "Invalid token" 403, db_two)
  /\ Server.delete_agent bob_id (Some "Bearer not-bobs-token") db_two
     = (json_error UNAUTHORIZED "Invalid token" 403, db_two).
Proof.
  assert (H1 : bearer (Some "Bearer not-bobs-token") = Some "not-bobs-token")
    by reflexivity.
  assert (H2 : Store.getAgent bob_id db_two = Some bob_record) by reflexivity.
  assert (H3 : token_hash bob_record <> Server.hashToken "not-bobs-token")
    by (vm_compute; discriminate).
  assert (H4 : AgentStore.get bob_id mem_two = Some bob_record) by reflexivity.
  assert (H5 : token_hash bob_record <> MemServer.hashToken "not-bobs-token")
    by (vm_compute; discriminate).
  pose proof (mismatched_credential_is_unauthorized
                bob_id (Some "Bearer not-bobs-token") "not-bobs-token"
                (Some bob_renamed) day db_two bob_record mem_two bob_record
                H1 H2 H3 H4 H5) as [[Hput [Hdel _]] _].
  repeat split; assumption.
Defined.

Lemma update_preserves_identity_witness :
  let db_run := Server.put_agent bob_id (Some "Bearer bob-token")
                                 (Some bob_renamed) day db_two in
  let mem_run := MemServer.put_agent bob_id (Some "Bearer bob-token")
                                     (Some bob_renamed) day mem_two in
  status (fst db_run) = 200 /\ status (fst mem_run) = 200
  /\ exists b data,
      Some bob_renamed = Some b /\ AgentCardSchema b = inr data
      /\ (exists old,
             Store.getAgent bob_id db_two = Some old
             /\ Store.getAgent bob_id (snd db_run)
                = Some {| card := set_agent_id bob_id data;
                          registered_at := registered_at old;
                          expires_at := toISOString (day + 2592000000);
                          token_hash := token_hash old |}
             /\ fst db_run
                = respond (BUpdated bob_id (toISOString (day + 2592000000))) 200
             /\ (forall id', id' <> bob_id ->
                   Store.getAgent id' (snd db_run) = Store.getAgent id' db_two)
             /\ Store.messages_table (snd db_run) = Store.messages_table db_two)
      /\ (exists old,
             AgentStore.get bob_id mem_two = Some old
             /\ AgentStore.get bob_id (snd mem_run)
                = Some {| card := set_agent_id bob_id data;
                          registered_at := registered_at old;
                          expires_at := toISOString (day + 2592000000);
                          token_hash := token_hash old |}
             /\ fst mem_run
                = respond (BUpdated bob_id (toISOString (day + 2592000000))) 200
             /\ (forall id', id' <> bob_id ->
                   AgentStore.get id' (snd mem_run) = AgentStore.get id' mem_two))
      /\ agent_id (set_agent_id bob_id data) = bob_id.
Proof.
  intros db_run mem_run.
  split; [reflexivity|]. split; [reflexivity|].
  exact (update_preserves_identity
           bob_id (Some "Bearer bob-token") (Some bob_renamed) day
           db_two (snd db_run) (fst db_run) mem_two (snd mem_run) (fst mem_run)
           (surjective_pairing db_run) eq_refl
           (surjective_pairing mem_run) eq_refl).
Defined.

(** The updated record: Bob's identifier and registration date, the new
    name, a new expiry. *)
Example update_reads_back :
  let db' := snd (Server.put_agent bob_id (Some "Bearer bob-token")
                                   (Some bob_renamed) day db_two) in
  option_map (fun r => (agent_id (card r), name (card r), registered_at r,
                        expires_at r, token_hash r))
             (Store.getAgent bob_id db')
  = Some (bob_id, "Robert", "1970-01-01T00:00:00.000Z",
          "1970-02-01T00:00:00.000Z", token_hash bob_record)
  /\ Store.getAgent "sk_another_identifier" db' = None.
Proof. vm_compute. split; reflexivity. Qed.

Lemma register_issues_record_witness :
  bearer (Some "Bearer bob-token") = Some "bob-token"
  /\ AgentCardSchema bob_body = inr (set_agent_id "sk_chosen_by_bob" bob_card)
  /\ Server.post_agents (Some "Bearer bob-token") (Some bob_body) bob_rand 0
                        Store.empty
     = (respond (BRegistered bob_id "1970-01-01T00:00:00.000Z"
                             "1970-01-31T00:00:00.000Z") 201,
        Store.putAgent bob_record Store.empty).
Proof.
  assert (H1 : bearer (Some "Bearer bob-token") = Some "bob-token")
    by reflexivity.
  assert (H2 : AgentCardSchema bob_body
               = inr (set_agent_id "sk_chosen_by_bob" bob_card))
    by reflexivity.
  split; [exact H1|]. split; [exact H2|].
  exact (proj1 (proj1 (register_issues_record
                         (Some "Bearer bob-token") "bob-token" bob_body
                         (set_agent_id "sk_chosen_by_bob" bob_card)
                         bob_rand 0 Store.empty AgentStore.empty H1 H2))).
Defined.

End RegistrationWitnesses.

(** ** C2: relay submission *)

Section RelayClaims.
Import Json Model Js Http Invariant.
Context {P : Platform}.
Local Open Scope Z_scope.

Lemma storeMessage_appends msg now_text db db' :
  Store.storeMessage msg now_text db = Some db' ->
  Store.agents_table db' = Store.agents_table db
  /\ Store.messages_table db'
     = (Store.messages_table db
        ++ [{| Store.id := Store.new_id msg;
               Store.conversation_id := Store.new_conversation_id msg;
               Store.from_agent := Store.new_from_agent msg;
               Store.to_agent := Store.new_to_agent msg;
               Store.intent := Store.new_intent msg;
               Store.message_json := Store.new_message_json msg;
               Store.created_at := now_text;
               Store.delivered := 0 |}])%list.
Proof.
  unfold Store.storeMessage. destruct (existsb _ _); [discriminate|].
  intros [= <-]. split; reflexivity.
Qed.

(** C2, as the code has it.  A relay submission is answered 201 only when
    the bearer token resolves to a registered agent, the body is a message
    the schema accepts, that agent's identifier is the message's [from],
    and a record exists under the message's [to] (its expiry date is not
    looked at).  Then the response carries the server-generated relay
    identifier and the queue has one more entry, with that identifier, the
    body as submitted and [delivered] 0; the agents are as before.  With
    another sender the answer is 403 UNAUTHORIZED, without a record for the
    recipient 404 AGENT_UNAVAILABLE, and every answer other than 201 leaves
    the database as it was. *)
Theorem enqueue_checks_sender_and_recipient
        (authHeader : option string) (body : option json) (rand : string)
        (now : Z) (db db' : Store.Db) (resp : Response) :
  Server.post_relay authHeader body rand now db = (resp, db') ->
  (status resp = 201 ->
   exists token sender b msg recipient,
     bearer authHeader = Some token
     /\ Store.getAgentByTokenHash (sha256_hex token) db = Some sender
     /\ body = Some b /\ MessageSchema b = inr msg
     /\ msg_from msg = agent_id (card sender)
     /\ Store.getAgent (msg_to msg) db = Some recipient
     /\ resp = respond (BQueued ("relay_" ++ rand)) 201
     /\ Store.agents_table db' = Store.agents_table db
     /\ Store.messages_table db'
        = (Store.messages_table db
           ++ [{| Store.id := ("relay_" ++ rand)%string;
                  Store.conversation_id := msg_conversation_id msg;
                  Store.from_agent := msg_from msg;
                  Store.to_agent := msg_to msg;
                  Store.intent := msg_intent msg;
                  Store.message_json := stringify b;
                  Store.created_at := sqlite_datetime now;
                  Store.delivered := 0 |}])%list)
  /\ (status resp <> 201 -> db' = db)
  /\ (forall token sender b msg,
        bearer authHeader = Some token ->
        Store.getAgentByTokenHash (sha256_hex token) db = Some sender ->
        body = Some b -> MessageSchema b = inr msg ->
        (msg_from msg <> agent_id (card sender) ->
         resp = json_error UNAUTHORIZED "Token does not match sender" 403)
        /\ (msg_from msg = agent_id (card sender) ->
            Store.getAgent (msg_to msg) db = None ->
            resp = json_error AGENT_UNAVAILABLE "Recipient agent not found" 404)).
Proof.
  unfold Server.post_relay, Server.resolveAgent, Server.hashToken.
  intros Hrun. split; [|split].
  - (* the answer is 201 *)
    intros Hst.
    destruct (bearer authHeader) as [token|] eqn:Hb;
      [|injection Hrun as <- <-; discriminate Hst].
    destruct (Store.getAgentByTokenHash (sha256_hex token) db)
      as [sender|] eqn:Hs; [|injection Hrun as <- <-; discriminate Hst].
    destruct body as [b|]; [|injection Hrun as <- <-; discriminate Hst].
    destruct (MessageSchema b) as [issues|msg] eqn:Hm;
      [injection Hrun as <- <-; discriminate Hst|].
    destruct (String.eqb_spec (msg_from msg) (agent_id (card sender)))
      as [Hfrom|Hfrom]; cbn [negb] in Hrun;
      [|injection Hrun as <- <-; discriminate Hst].
    destruct (Store.getAgent (msg_to msg) db) as [recipient|] eqn:Hto;
      [|injection Hrun as <- <-; discriminate Hst].
    destruct (Store.storeMessage _ _ db) as [db1|] eqn:Hstore;
      [|injection Hrun as <- <-; discriminate Hst].
    injection Hrun as <- <-.
    apply storeMessage_appends in Hstore as [Hagents Hmsgs].
    exists token, sender, b, msg, recipient. repeat split; auto.
  - (* any other answer *)
    intros Hst.
    destruct (bearer authHeader) as [token|]; [|congruence].
    destruct (Store.getAgentByTokenHash (sha256_hex token) db) as [sender|];
      [|congruence].
    destruct body as [b|]; [|congruence].
    destruct (MessageSchema b) as [issues|msg]; [congruence|].
    destruct (negb _); [congruence|].
    destruct (Store.getAgent (msg_to msg) db); [|congruence].
    destruct (Store.storeMessage _ _ db); [|congruence].
    injection Hrun as <- <-. exfalso. now apply Hst.
  - (* the two refusals *)
    intros token sender b msg Hb Hs -> Hm.
    rewrite Hb, Hs, Hm in Hrun.
    destruct (String.eqb_spec (msg_from msg) (agent_id (card sender)))
      as [Hfrom|Hfrom]; cbn [negb] in Hrun.
    + split; [congruence|]. intros _ Hto. rewrite Hto in Hrun. congruence.
    + split; [congruence|contradiction].
Qed.

End RelayClaims.

Section RelayWitnesses.
Import Json Model Js Http Invariant Demo Scenario Records.
Local Open Scope Z_scope.

(** C2 as stated fails: on day 60 Bob's registration, expired since day 30,
    still makes him a valid recipient; Alice's message to him is queued. *)
Lemma enqueue_accepts_expired_recipient :
  option_map expires_at (Store.getAgent bob_id db_day45)
  = Some (toISOString (30 * day))
  /\ 30 * day < 60 * day
  /\ String.ltb (toISOString (30 * day)) (toISOString (60 * day)) = true
  /\ fst (Server.post_relay (Some "Bearer alice-token") (Some to_bob)
                            "0123456789abcdef" (60 * day) db_day45)
     = respond (BQueued queued_id) 201
  /\ map (fun m => (Store.id m, Store.to_agent m, Store.delivered m))
         (Store.messages_table db_queued)
     = [(queued_id, bob_id, 0)].
Proof. vm_compute. repeat split. Qed.

Lemma enqueue_checks_sender_and_recipient_witness :
  let run := Server.post_relay (Some "Bearer alice-token") (Some to_bob)
                               "0123456789abcdef" (60 * day) db_day45 in
  status (fst run) = 201
  /\ Store.agents_table (snd run) = Store.agents_table db_day45
  /\ exists recipient,
      Store.getAgent bob_id db_day45 = Some recipient
      /\ expires_at recipient = "1970-01-31T00:00:00.000Z".
Proof.
  intros run.
  destruct (enqueue_checks_sender_and_recipient
              (Some "Bearer alice-token") (Some to_bob) "0123456789abcdef"
              (60 * day) db_day45 (snd run) (fst run) (surjective_pairing run))
    as [Hok _].
  destruct (Hok eq_refl)
    as (token & sender & b & msg & recipient & _ & _ & _ & _ & _ & _ & _ & Ha & _).
  split; [reflexivity|]. split; [exact Ha|].
  exists bob_record. split; reflexivity.
Defined.

End RelayWitnesses.

(** ** C3: acknowledgment *)

Section AckFacts.
Import Model Js Http.
Local Open Scope list_scope.

Lemma filter_length_existsb {A} (p : A -> bool) l :
  Nat.ltb 0 (length (filter p l)) = existsb p l.
Proof.
  induction l as [|x l IH]; [reflexivity|].
  simpl. destruct (p x); [reflexivity|exact IH].
Qed.

(** [ackMessage] answers whether some entry has that identifier and that
    recipient; whether the entry was delivered before plays no part. *)
Lemma ackMessage_result messageId agentId db :
  fst (Store.ackMessage messageId agentId db)
  = existsb (fun r => String.eqb (Store.id r) messageId
                      && String.eqb (Store.to_agent r) agentId)
            (Store.messages_table db).
Proof. unfold Store.ackMessage, Store.sql_update. apply filter_length_existsb. Qed.

Lemma existsb_map_same {A} (p : A -> bool) (g : A -> A) l :
  (forall x, p (g x) = p x) -> existsb p (map g l) = existsb p l.
Proof.
  intros H. induction l as [|x l IH]; [reflexivity|].
  simpl. now rewrite H, IH.
Qed.

(** With no such entry nothing is written. *)
Lemma ackMessage_not_found messageId agentId db :
  existsb (fun r => String.eqb (Store.id r) messageId
                    && String.eqb (Store.to_agent r) agentId)
          (Store.messages_table db) = false ->
  Store.ackMessage messageId agentId db = (false, db).
Proof.
  intros H. rewrite (surjective_pairing (Store.ackMessage _ _ _)).
  rewrite ackMessage_result, H. f_equal.
  unfold Store.ackMessage, Store.sql_update. cbn [snd].
  destruct db as [ags msgs]. unfold Store.with_messages.
  cbn [Store.agents_table Store.messages_table] in *. f_equal.
  induction msgs as [|r msgs IH]; [reflexivity|].
  simpl in H. apply orb_false_iff in H as [Hr Hrest].
  simpl. rewrite Hr. f_equal. now apply IH.
Qed.

(** Whatever [ackMessage] answered once, it answers again. *)
Lemma ackMessage_again messageId agentId db :
  fst (Store.ackMessage messageId agentId
                        (snd (Store.ackMessage messageId agentId db)))
  = fst (Store.ackMessage messageId agentId db).
Proof.
  rewrite !ackMessage_result.
  unfold Store.ackMessage, Store.sql_update.
  cbn [snd Store.messages_table Store.with_messages].
  apply existsb_map_same. intros r. cbv beta.
  destruct (String.eqb (Store.id r) messageId
            && String.eqb (Store.to_agent r) agentId) eqn:E;
    cbn [Store.set_delivered Store.id Store.to_agent]; now rewrite ?E.
Qed.

End AckFacts.

Section AckClaim.
Import Json Model Js Http Demo Scenario Records.
Local Open Scope Z_scope.

(** C3, at the failing input.  Alice's message to Bob is queued.  Alice
    cannot acknowledge it and an unknown identifier is not found: 404 both
    times, the queue untouched.  Bob acknowledges it: 200, the entry is
    delivered and no longer polled.  Bob acknowledges it a second time: the
    answer is 200 acknowledged again, not 404, although the 404 message
    reads not found or already acknowledged; [ackAllMessages], which
    selects on [delivered = 0], counts nothing. *)
Theorem second_acknowledgment_succeeds :
  let '(by_alice, db1) :=
    Server.post_relay_ack queued_id (Some "Bearer alice-token") db_queued in
  let '(unknown, db2) :=
    Server.post_relay_ack "relay_unknown" (Some "Bearer bob-token") db1 in
  let '(first, db3) :=
    Server.post_relay_ack queued_id (Some "Bearer bob-token") db2 in
  let '(second, db4) :=
    Server.post_relay_ack queued_id (Some "Bearer bob-token") db3 in
  (by_alice = json_error INVALID_MESSAGE
                         "Message not found or already acknowledged" 404
   /\ db1 = db_queued)
  /\ (unknown = json_error INVALID_MESSAGE
                           "Message not found or already acknowledged" 404
      /\ db2 = db_queued)
  /\ (map Store.id (Store.getMessagesFor bob_id 50 db2) = [queued_id]
      /\ first = respond BAcknowledged 200
      /\ map Store.delivered (Store.messages_table db3) = [1]
      /\ Store.getMessagesFor bob_id 50 db3 = [])
  /\ (second = respond BAcknowledged 200 /\ db4 = db3)
  /\ fst (Store.ackAllMessages bob_id db3) = 0%nat.
Proof. vm_compute. repeat split. Qed.

End AckClaim.

(** * Part III: the rest of the stores and handlers *)

(** ** Lookup, removal and counting in the two agent stores *)

Section AgentStoreFacts.
Import Model Js Invariant.
Local Open Scope list_scope.

Lemma existsb_find {A} (p : A -> bool) l :
  existsb p l = true <-> find p l <> None.
Proof.
  induction l as [|x l IH]; simpl; [split; [discriminate|congruence]|].
  destruct (p x); [split; [discriminate|reflexivity]|exact IH].
Qed.

Lemma find_filter_negb {A} (p : A -> bool) l :
  find p (filter (fun x => negb (p x)) l) = None.
Proof.
  induction l as [|x l IH]; [reflexivity|].
  simpl. destruct (p x) eqn:E; simpl; [exact IH|]. now rewrite E.
Qed.

Lemma find_unique {A} (key : A -> string) l r :
  NoDup (map key l) -> In r l ->
  find (fun x => String.eqb (key x) (key r)) l = Some r.
Proof.
  induction l as [|h t IH]; simpl; [tauto|].
  intros Hnd Hin. inversion Hnd as [|? ? Hnotin Hnd']; subst.
  destruct Hin as [->|Hin]; [now rewrite String.eqb_refl|].
  destruct (String.eqb_spec (key h) (key r)) as [E|_]; [|now apply IH].
  exfalso. apply Hnotin. rewrite E. now apply in_map.
Qed.

Lemma filter_absent {A} (key : A -> string) k l :
  ~ In k (map key l) -> filter (fun r => negb (String.eqb (key r) k)) l = l.
Proof.
  induction l as [|h t IH]; [reflexivity|].
  simpl. intros Hnot.
  destruct (String.eqb_spec (key h) k) as [E|_]; [exfalso; auto|].
  simpl. rewrite IH; auto.
Qed.

Lemma filter_out_length {A} (key : A -> string) k l :
  NoDup (map key l) ->
  length (filter (fun r => negb (String.eqb (key r) k)) l)
  + (if existsb (fun r => String.eqb (key r) k) l then 1 else 0)
  = length l.
Proof.
  induction l as [|h t IH]; [reflexivity|].
  simpl. intros Hnd. inversion Hnd as [|? ? Hnotin Hnd']; subst.
  destruct (String.eqb_spec (key h) k) as [E|_]; simpl.
  - subst k. rewrite filter_absent by assumption. lia.
  - specialize (IH Hnd'). lia.
Qed.

Lemma map_get_find {V} k (m : JsMap V) :
  map_get k m = option_map snd (find (fun kv => String.eqb (fst kv) k) m).
Proof.
  induction m as [|[k' v'] r IH]; [reflexivity|].
  simpl. destruct (String.eqb k' k); [reflexivity|exact IH].
Qed.

Lemma map_has_get {V} k (m : JsMap V) :
  map_has k m = true <-> map_get k m <> None.
Proof.
  unfold map_has. rewrite existsb_find, map_get_find.
  destruct (find _ m); simpl; split; congruence.
Qed.

Lemma map_set_length {V} k (v : V) m :
  length (map_set k v m) = if map_has k m then length m else S (length m).
Proof.
  unfold map_has. induction m as [|[k' v'] r IH]; [reflexivity|].
  simpl. destruct (String.eqb k' k); simpl; [reflexivity|].
  rewrite IH. now destruct (existsb _ r).
Qed.

(** X1.  Removing an agent: [deleteAgent] and [AgentStore.delete] answer
    true exactly when a record was stored under the identifier; afterwards
    no record is found under it, every other identifier reads as before,
    and the message queue is untouched. *)
Theorem delete_removes_that_record
        (id id' : string) (db : Store.Db) (store : AgentStore.t) :
  id' <> id ->
  ((fst (Store.deleteAgent id db) = true <-> Store.getAgent id db <> None)
   /\ Store.getAgent id (snd (Store.deleteAgent id db)) = None
   /\ Store.getAgent id' (snd (Store.deleteAgent id db)) = Store.getAgent id' db
   /\ Store.messages_table (snd (Store.deleteAgent id db))
      = Store.messages_table db)
  /\ ((fst (AgentStore.delete id store) = true
       <-> AgentStore.get id store <> None)
      /\ AgentStore.get id (snd (AgentStore.delete id store)) = None
      /\ AgentStore.get id' (snd (AgentStore.delete id store))
         = AgentStore.get id' store).
Proof.
  intros Hne. split.
  - unfold Store.deleteAgent, Store.getAgent.
    cbn [fst snd Store.agents_table Store.with_agents Store.messages_table].
    split; [|split; [|split; [|reflexivity]]].
    + rewrite existsb_find.
      destruct (find _ (Store.agents_table db)); simpl; split; congruence.
    + now rewrite (find_filter_negb
                     (fun r => String.eqb (Store.row_agent_id r) id)).
    + f_equal. apply find_filter_other. intros r Hr.
      apply String.eqb_eq in Hr. apply negb_true_iff, String.eqb_neq. congruence.
  - unfold AgentStore.delete, AgentStore.get, map_delete. cbn [fst snd].
    split; [apply map_has_get|]. rewrite !map_get_find. split.
    + now rewrite (find_filter_negb (fun kv => String.eqb (fst kv) id)).
    + f_equal. apply find_filter_other. intros r Hr.
      apply String.eqb_eq in Hr. apply negb_true_iff, String.eqb_neq. congruence.
Qed.

(** X2.  One record per identifier, counted: storing a record under an
    identifier already present leaves the count, under a new one raises it
    by one; removing lowers it by one exactly when there was a record.
    Both stores. *)
Theorem count_follows_identifiers
        (a : StoredAgent) (id : string) (db : Store.Db) (store : AgentStore.t) :
  db_ok db -> mem_ok store ->
  Store.countAgents (Store.putAgent a db)
  = match Store.getAgent (agent_id (card a)) db with
    | Some _ => Store.countAgents db
    | None => S (Store.countAgents db)
    end
  /\ S (Store.countAgents (snd (Store.deleteAgent id db)))
     = match Store.getAgent id db with
       | Some _ => Store.countAgents db
       | None => S (Store.countAgents db)
       end
  /\ AgentStore.count (AgentStore.put a store)
     = match AgentStore.get (agent_id (card a)) store with
       | Some _ => AgentStore.count store
       | None => S (AgentStore.count store)
       end
  /\ S (AgentStore.count (snd (AgentStore.delete id store)))
     = match AgentStore.get id store with
       | Some _ => AgentStore.count store
       | None => S (AgentStore.count store)
       end.
Proof.
  intros [Hnd _] [Hmnd _].
  assert (Hdb : forall k,
             S (length (filter (fun r => negb (String.eqb (Store.row_agent_id r) k))
                               (Store.agents_table db)))
             = match Store.getAgent k db with
               | Some _ => length (Store.agents_table db)
               | None => S (length (Store.agents_table db))
               end).
  { intros k. pose proof (filter_out_length Store.row_agent_id k _ Hnd) as H.
    unfold Store.getAgent.
    destruct (existsb _ _) eqn:E.
    - apply existsb_find in E. destruct (find _ _); [simpl; lia|congruence].
    - destruct (find _ _) eqn:F; simpl; [|lia].
      assert (existsb (fun r => String.eqb (Store.row_agent_id r) k)
                      (Store.agents_table db) = true)
        by (apply existsb_find; congruence).
      congruence. }
  assert (Hmem : forall k,
             S (length (filter (fun kv : string * StoredAgent =>
                                  negb (String.eqb (fst kv) k)) store))
             = match AgentStore.get k store with
               | Some _ => length store
               | None => S (length store)
               end).
  { intros k. pose proof (filter_out_length fst k _ Hmnd) as H.
    unfold AgentStore.get.
    destruct (existsb _ _) eqn:E.
    - apply map_has_get in E. destruct (map_get k store); [lia|congruence].
    - destruct (map_get k store) eqn:F; [|lia].
      assert (map_has k store = true) by (apply map_has_get; congruence).
      unfold map_has in *. congruence. }
  split; [|split; [|split]].
  - unfold Store.countAgents, Store.putAgent.
    cbn [Store.agents_table Store.with_agents].
    rewrite length_app, Nat.add_1_r. apply Hdb.
  - unfold Store.countAgents, Store.deleteAgent.
    cbn [snd Store.agents_table Store.with_agents]. apply Hdb.
  - unfold AgentStore.count, AgentStore.put, AgentStore.get.
    rewrite map_set_length.
    destruct (map_has _ store) eqn:E.
    + apply map_has_get in E. now destruct (map_get _ store).
    + destruct (map_get _ store) eqn:F; [|reflexivity].
      assert (map_has (agent_id (card a)) store = true)
        by (apply map_has_get; congruence).
      congruence.
  - unfold AgentStore.count, AgentStore.delete, map_delete. cbn [snd].
    apply Hmem.
Qed.

(** X3.  The lookup by token hash answers with a stored record that holds
    this hash, readable under its own identifier; it answers nothing only
    when no stored record holds the hash. *)
Theorem token_lookup_finds_a_holder (h : string) (db : Store.Db) :
  db_ok db ->
  match Store.getAgentByTokenHash h db with
  | Some a =>
      token_hash a = h /\ Store.getAgent (agent_id (card a)) db = Some a
  | None => forall id a, Store.getAgent id db = Some a -> token_hash a <> h
  end.
Proof.
  intros [Hnd Hall]. unfold Store.getAgentByTokenHash.
  destruct (find _ _) as [r|] eqn:F; simpl.
  - apply find_some in F as [Hin Hh]. apply String.eqb_eq in Hh.
    split; [exact Hh|].
    rewrite Forall_forall in Hall. destruct (Hall r Hin) as [<- _].
    unfold Store.getAgent. now rewrite (find_unique Store.row_agent_id).
  - intros id a Hget Hh. apply getAgent_id in Hget as [r [Hin [_ ->]]].
    pose proof (find_none _ _ F r Hin) as Hr. simpl in Hr, Hh.
    apply String.eqb_neq in Hr. contradiction.
Qed.

End AgentStoreFacts.

(** ** The message queue *)

Section QueueFacts.
Import Model Js QueueInvariant.
Local Open Scope list_scope.
Local Open Scope Z_scope.

Lemma sql_limit_In {A} limit (l : list A) x :
  In x (Store.sql_limit limit l) -> In x l.
Proof.
  unfold Store.sql_limit. destruct (limit <? 0); [auto|].
  intros H. rewrite <- (firstn_skipn (Z.to_nat limit) l).
  apply in_or_app. now left.
Qed.

Lemma sql_limit_Forall {A} (Q : A -> Prop) limit (l : list A) :
  Forall Q l -> Forall Q (Store.sql_limit limit l).
Proof.
  rewrite !Forall_forall. intros H x Hx. apply H. eapply sql_limit_In, Hx.
Qed.

Lemma sql_limit_length {A} limit (l : list A) :
  (length (Store.sql_limit limit l)
   <= if (limit <? 0)%Z then length l else Z.to_nat limit)%nat.
Proof.
  unfold Store.sql_limit. destruct (limit <? 0); [apply le_n|].
  apply firstn_le_length.
Qed.

Lemma waiting_rows agentId db :
  Store.getMessagesFor agentId (-1) db
  = sort_by Store.created_at
            (filter (waiting_for agentId) (Store.messages_table db)).
Proof. reflexivity. Qed.

(** X4.  Polling: every entry [getMessagesFor] returns is in the queue, is
    addressed to the polling agent and is undelivered; the entries come
    oldest first; a limit that is not negative bounds their number, a
    negative one bounds nothing; and without a bound the answer holds every
    waiting entry, each as often as the queue does. *)
Theorem inbox_lists_waiting_entries
        (agentId : string) (limit : Z) (db : Store.Db) :
  Forall (fun r => In r (Store.messages_table db)
                   /\ Store.to_agent r = agentId /\ Store.delivered r = 0)
         (Store.getMessagesFor agentId limit db)
  /\ StronglySorted (fun a b => String.leb a b = true)
                    (map Store.created_at (Store.getMessagesFor agentId limit db))
  /\ (length (Store.getMessagesFor agentId limit db)
      <= if (limit <? 0)%Z then length (Store.messages_table db)
         else Z.to_nat limit)%nat
  /\ Permutation (Store.getMessagesFor agentId (-1) db)
                 (filter (waiting_for agentId) (Store.messages_table db))
  /\ Store.getMessagesFor agentId limit db
     = Store.sql_limit limit (Store.getMessagesFor agentId (-1) db).
Proof.
  split; [|split; [|split; [|split]]].
  - unfold Store.getMessagesFor. apply sql_limit_Forall.
    apply Forall_forall. intros r Hr.
    apply sort_by_In, filter_In in Hr as [Hin Hw].
    apply andb_prop in Hw as [Hto Hd].
    apply String.eqb_eq in Hto. apply Z.eqb_eq in Hd. auto.
  - unfold Store.getMessagesFor, Store.sql_limit.
    destruct (limit <? 0); [apply sort_by_keys_sorted|].
    rewrite <- firstn_map. apply StronglySorted_firstn, sort_by_keys_sorted.
  - unfold Store.getMessagesFor.
    etransitivity; [apply sql_limit_length|].
    destruct (limit <? 0); [|apply le_n].
    rewrite sort_by_length. apply filter_length_le.
  - rewrite waiting_rows. apply sort_by_perm.
  - reflexivity.
Qed.

(** X5.  Polling one conversation: every entry returned is an entry the
    agent's unbounded poll returns, and belongs to the conversation; and
    without a bound the answer holds exactly the entries of that
    conversation in the agent's inbox. *)
Theorem conversation_poll_selects_from_inbox
        (conversationId agentId : string) (limit : Z) (db : Store.Db) :
  Forall (fun r => In r (Store.getMessagesFor agentId (-1) db)
                   /\ Store.conversation_id r = conversationId)
         (Store.getMessagesInConversation conversationId agentId limit db)
  /\ Permutation
       (Store.getMessagesInConversation conversationId agentId (-1) db)
       (filter (fun r => String.eqb (Store.conversation_id r) conversationId)
               (Store.getMessagesFor agentId (-1) db)).
Proof.
  assert (E : Store.getMessagesInConversation conversationId agentId (-1) db
              = filter (fun r => String.eqb (Store.conversation_id r)
                                            conversationId)
                       (Store.getMessagesFor agentId (-1) db)).
  { unfold Store.getMessagesInConversation. cbn [Store.sql_limit Z.ltb Z.compare].
    rewrite waiting_rows, <- sort_by_filter, filter_filter. f_equal.
    apply filter_ext. intros r. unfold waiting_for.
    destruct (String.eqb (Store.conversation_id r) conversationId),
      (String.eqb (Store.to_agent r) agentId), (Store.delivered r =? 0);
      reflexivity. }
  split; [|now rewrite E].
  change (Store.getMessagesInConversation conversationId agentId limit db)
    with (Store.sql_limit limit
            (Store.getMessagesInConversation conversationId agentId (-1) db)).
  apply sql_limit_Forall. rewrite E. apply Forall_forall. intros r Hr.
  apply filter_In in Hr as [Hin Hc]. now apply String.eqb_eq in Hc.
Qed.

Lemma filter_map_update {A} (p q cond : A -> bool) (g : A -> A) l :
  (forall r, p (if cond r then g r else r) = q r) ->
  filter p (map (fun r => if cond r then g r else r) l)
  = map (fun r => if cond r then g r else r) (filter q l).
Proof.
  intros H. induction l as [|x l IH]; [reflexivity|].
  simpl. rewrite H. destruct (q x); simpl; now rewrite IH.
Qed.

Lemma map_update_never {A} (cond : A -> bool) (g : A -> A) l :
  Forall (fun r => cond r = false) l ->
  map (fun r => if cond r then g r else r) l = l.
Proof.
  induction 1 as [|x l Hx _ IH]; [reflexivity|].
  simpl. now rewrite Hx, IH.
Qed.

Lemma waiting_after_update (cond : Store.StoredMessage -> bool) q agentId rows :
  (forall r, waiting_for agentId (if cond r then Store.set_delivered r else r)
             = q r) ->
  (forall r, q r = true -> cond r = false) ->
  filter (waiting_for agentId)
         (map (fun r => if cond r then Store.set_delivered r else r) rows)
  = filter q rows.
Proof.
  intros H1 H2. rewrite (filter_map_update _ q) by assumption.
  apply map_update_never. apply Forall_forall. intros r Hr.
  apply filter_In in Hr as [_ Hr]. now apply H2.
Qed.

(** X6.  After [ackMessage] for an agent, that agent's poll is its poll
    from before without the acknowledged identifier, in the same order;
    whatever the limit, the identifier is not polled again; another agent's
    poll and the agents table are as before. *)
Theorem acknowledged_entry_leaves_the_inbox
        (messageId agentId other : string) (limit : Z) (db : Store.Db) :
  other <> agentId ->
  Store.getMessagesFor agentId (-1) (snd (Store.ackMessage messageId agentId db))
  = filter (fun r => negb (String.eqb (Store.id r) messageId))
           (Store.getMessagesFor agentId (-1) db)
  /\ Forall (fun r => Store.id r <> messageId)
            (Store.getMessagesFor agentId limit
                                  (snd (Store.ackMessage messageId agentId db)))
  /\ Store.getMessagesFor other limit
                          (snd (Store.ackMessage messageId agentId db))
     = Store.getMessagesFor other limit db
  /\ Store.agents_table (snd (Store.ackMessage messageId agentId db))
     = Store.agents_table db.
Proof.
  intros Hother.
  assert (Hmine :
    filter (waiting_for agentId)
           (Store.messages_table (snd (Store.ackMessage messageId agentId db)))
    = filter (fun r => waiting_for agentId r
                       && negb (String.eqb (Store.id r) messageId))
             (Store.messages_table db)).
  { unfold Store.ackMessage, Store.sql_update.
    cbn [snd Store.messages_table Store.with_messages].
    apply waiting_after_update.
    - intros r. unfold waiting_for.
      destruct (String.eqb (Store.id r) messageId) eqn:Ei,
        (String.eqb (Store.to_agent r) agentId) eqn:Et; simpl;
        rewrite ?Et, ?andb_true_r, ?andb_false_r; reflexivity.
    - intros r Hq. apply andb_prop in Hq as [_ Hq].
      apply negb_true_iff in Hq. now rewrite Hq. }
  assert (Hfirst :
    Store.getMessagesFor agentId (-1) (snd (Store.ackMessage messageId agentId db))
    = filter (fun r => negb (String.eqb (Store.id r) messageId))
             (Store.getMessagesFor agentId (-1) db)).
  { rewrite !waiting_rows, Hmine, <- sort_by_filter. now rewrite filter_filter. }
  split; [exact Hfirst|]. split; [|split; [|reflexivity]].
  - change (Store.getMessagesFor agentId limit
              (snd (Store.ackMessage messageId agentId db)))
      with (Store.sql_limit limit
              (Store.getMessagesFor agentId (-1)
                 (snd (Store.ackMessage messageId agentId db)))).
    apply sql_limit_Forall. rewrite Hfirst.
    apply Forall_forall. intros r Hr. apply filter_In in Hr as [_ Hr].
    now apply negb_true_iff, String.eqb_neq in Hr.
  - unfold Store.getMessagesFor. do 2 f_equal.
    unfold Store.ackMessage, Store.sql_update.
    cbn [snd Store.messages_table Store.with_messages].
    fold (waiting_for other).
    rewrite (filter_map_update _ (waiting_for other)).
    + apply map_update_never. apply Forall_forall. intros r Hr.
      apply filter_In in Hr as [_ Hr]. unfold waiting_for in Hr.
      apply andb_prop in Hr as [Hr _]. apply String.eqb_eq in Hr.
      destruct (String.eqb_spec (Store.to_agent r) agentId) as [E|_];
        [congruence|]. now rewrite andb_false_r.
    + intros r. unfold waiting_for.
      destruct (String.eqb (Store.id r) messageId),
        (String.eqb_spec (Store.to_agent r) agentId) as [E|E]; simpl;
        try reflexivity.
      destruct (String.eqb_spec (Store.to_agent r) other) as [E'|_];
        [congruence|reflexivity].
Qed.

(** X7.  [ackAllMessages] answers the number of entries waiting for the
    agent and leaves none waiting, so a second call answers 0; another
    agent's poll is as before. *)
Theorem acknowledge_all_empties_the_inbox
        (agentId other : string) (limit : Z) (db : Store.Db) :
  other <> agentId ->
  fst (Store.ackAllMessages agentId db)
  = length (Store.getMessagesFor agentId (-1) db)
  /\ Store.getMessagesFor agentId limit (snd (Store.ackAllMessages agentId db))
     = []
  /\ fst (Store.ackAllMessages agentId (snd (Store.ackAllMessages agentId db)))
     = 0%nat
  /\ Store.getMessagesFor other limit (snd (Store.ackAllMessages agentId db))
     = Store.getMessagesFor other limit db.
Proof.
  intros Hother.
  assert (Hnone :
    filter (waiting_for agentId)
           (Store.messages_table (snd (Store.ackAllMessages agentId db))) = []).
  { unfold Store.ackAllMessages, Store.sql_update.
    cbn [snd Store.messages_table Store.with_messages].
    fold (waiting_for agentId).
    rewrite (waiting_after_update (waiting_for agentId) (fun _ => false)).
    - apply filter_false.
    - intros r. destruct (waiting_for agentId r) eqn:E; [|exact E].
      unfold waiting_for. simpl. apply andb_false_r.
    - discriminate. }
  split; [|split; [|split]].
  - unfold Store.ackAllMessages, Store.sql_update. cbn [fst].
    now rewrite waiting_rows, sort_by_length.
  - unfold Store.getMessagesFor. fold (waiting_for agentId).
    rewrite Hnone. unfold Store.sql_limit. simpl.
    destruct (limit <? 0); [reflexivity|apply firstn_nil].
  - unfold Store.ackAllMessages at 1, Store.sql_update. cbn [fst].
    fold (waiting_for agentId). now rewrite Hnone.
  - unfold Store.getMessagesFor. do 2 f_equal.
    unfold Store.ackAllMessages, Store.sql_update.
    cbn [snd Store.messages_table Store.with_messages].
    fold (waiting_for agentId) (waiting_for other).
    rewrite (filter_map_update _ (waiting_for other)).
    + apply map_update_never. apply Forall_forall. intros r Hr.
      apply filter_In in Hr as [_ Hr]. unfold waiting_for in *.
      apply andb_prop in Hr as [Hr _]. apply String.eqb_eq in Hr.
      destruct (String.eqb_spec (Store.to_agent r) agentId) as [E|_];
        [congruence|reflexivity].
    + intros r. unfold waiting_for at 1.
      destruct (String.eqb_spec (Store.to_agent r) agentId) as [E|E]; simpl;
        [|reflexivity].
      destruct (Store.delivered r =? 0); [|reflexivity].
      unfold waiting_for. simpl.
      destruct (String.eqb_spec (Store.to_agent r) other) as [E'|_];
        [congruence|reflexivity].
Qed.

End QueueFacts.

(** ** The relay handlers *)

Section RelayHandlerFacts.
Import Json Model Js Http QueueInvariant.
Context {P : Platform}.
Local Open Scope list_scope.
Local Open Scope Z_scope.

Lemma post_relay_parsed authHeader b msg rand now db authAgentId h :
  Server.resolveAgent authHeader db = Some (authAgentId, h) ->
  MessageSchema b = inr msg ->
  Server.post_relay authHeader (Some b) rand now db
  = if negb (String.eqb (msg_from msg) authAgentId)
    then (json_error UNAUTHORIZED "Token does not match sender" 403, db)
    else match Store.getAgent (msg_to msg) db with
         | None =>
             (json_error AGENT_UNAVAILABLE "Recipient agent not found" 404, db)
         | Some _ =>
             if existsb (fun r => String.eqb (Store.id r) (generateId "relay_" rand))
                        (Store.messages_table db)
             then (uncaught, db)
             else (respond (BQueued (generateId "relay_" rand)) 201,
                   Store.with_messages
                     (Store.messages_table db ++ [queued_entry rand now b msg])
                     db)
         end.
Proof.
  intros Hr Hm. unfold Server.post_relay. rewrite Hr, Hm.
  destruct (negb _); [reflexivity|].
  destruct (Store.getAgent (msg_to msg) db); [|reflexivity].
  unfold Store.storeMessage. cbn [Store.new_id].
  now destruct (existsb _ _).
Qed.

Lemma post_relay_created authHeader body rand now db resp db' :
  Server.post_relay authHeader body rand now db = (resp, db') ->
  status resp = 201 ->
  exists b msg,
    body = Some b /\ MessageSchema b = inr msg
    /\ ~ In (generateId "relay_" rand) (map Store.id (Store.messages_table db))
    /\ db' = Store.with_messages
               (Store.messages_table db ++ [queued_entry rand now b msg]) db.
Proof.
  intros Hrun Hst.
  destruct (Server.resolveAgent authHeader db) as [[authAgentId h]|] eqn:Hr.
  2:{ unfold Server.post_relay in Hrun. rewrite Hr in Hrun.
      injection Hrun as <- <-. discriminate Hst. }
  destruct body as [b|].
  2:{ unfold Server.post_relay in Hrun. rewrite Hr in Hrun.
      injection Hrun as <- <-. discriminate Hst. }
  destruct (MessageSchema b) as [issues|msg] eqn:Hm.
  { unfold Server.post_relay in Hrun. rewrite Hr, Hm in Hrun.
    injection Hrun as <- <-. discriminate Hst. }
  rewrite (post_relay_parsed _ _ _ _ _ _ _ _ Hr Hm) in Hrun.
  destruct (negb _); [injection Hrun as <- <-; discriminate Hst|].
  destruct (Store.getAgent (msg_to msg) db);
    [|injection Hrun as <- <-; discriminate Hst].
  destruct (existsb _ _) eqn:E; [injection Hrun as <- <-; discriminate Hst|].
  injection Hrun as <- <-. exists b, msg. repeat split; auto.
  intros Hin. apply in_map_iff in Hin as [r [Er Hin]].
  assert (existsb (fun r => String.eqb (Store.id r) (generateId "relay_" rand))
                  (Store.messages_table db) = true).
  { apply existsb_exists. exists r. split; [exact Hin|]. now apply String.eqb_eq. }
  congruence.
Qed.

Lemma post_relay_unchanged authHeader body rand now db resp db' :
  Server.post_relay authHeader body rand now db = (resp, db') ->
  status resp <> 201 -> db' = db.
Proof.
  unfold Server.post_relay. intros Hrun Hst.
  destruct (Server.resolveAgent authHeader db) as [[authAgentId h]|];
    [|congruence].
  destruct body as [b|]; [|congruence].
  destruct (MessageSchema b) as [issues|msg]; [congruence|].
  destruct (negb _); [congruence|].
  destruct (Store.getAgent (msg_to msg) db); [|congruence].
  destruct (Store.storeMessage _ _ db); [|congruence].
  injection Hrun as <- <-. exfalso. now apply Hst.
Qed.

Lemma sql_update_ids cond db :
  map Store.id (Store.messages_table (snd (Store.sql_update cond db)))
  = map Store.id (Store.messages_table db).
Proof.
  unfold Store.sql_update. cbn [snd Store.messages_table Store.with_messages].
  rewrite map_map. apply map_ext. intros r. now destruct (cond r).
Qed.

Lemma ackMessage_snd messageId agentId db :
  snd (Store.ackMessage messageId agentId db)
  = snd (Store.sql_update
           (fun r => String.eqb (Store.id r) messageId
                     && String.eqb (Store.to_agent r) agentId) db).
Proof. reflexivity. Qed.

(** X8.  Relay identifiers stay unique: each of POST /v1/relay and POST
    /v1/relay/:id/ack takes a queue with one entry per identifier to such a
    queue; [storeMessage] throws exactly when the identifier is taken, and
    then POST /v1/relay answers with an uncaught error or an earlier
    refusal, never 201. *)
Theorem relay_identifiers_stay_unique
        (authHeader : option string) (body : option json) (rand : string)
        (now : Z) (relayId : string) (msg : Store.NewMessage)
        (now_text : string) (db : Store.Db) :
  queue_ok db ->
  queue_ok (snd (Server.post_relay authHeader body rand now db))
  /\ queue_ok (snd (Server.post_relay_ack relayId authHeader db))
  /\ (Store.storeMessage msg now_text db = None
      <-> In (Store.new_id msg) (map Store.id (Store.messages_table db)))
  /\ (In (generateId "relay_" rand) (map Store.id (Store.messages_table db)) ->
      status (fst (Server.post_relay authHeader body rand now db)) <> 201).
Proof.
  intros Hok. split; [|split; [|split]].
  - destruct (Server.post_relay authHeader body rand now db) as [resp db'] eqn:Hrun.
    cbn [snd]. destruct (Z.eq_dec (status resp) 201) as [Hst|Hst].
    + destruct (post_relay_created _ _ _ _ _ _ _ Hrun Hst)
        as (b & m & _ & _ & Hfresh & ->).
      unfold queue_ok. cbn [Store.messages_table Store.with_messages].
      rewrite map_app. apply NoDup_app; [exact Hok| |].
      * repeat constructor. intros [].
      * intros x Hx [<-|[]]. contradiction.
    + now rewrite (post_relay_unchanged _ _ _ _ _ _ _ Hrun Hst).
  - unfold Server.post_relay_ack.
    destruct (Server.resolveAgent authHeader db) as [[a h]|]; [|exact Hok].
    destruct (Store.ackMessage relayId a db) as [acked db'] eqn:Hack.
    assert (Hdb' : db' = snd (Store.ackMessage relayId a db)) by now rewrite Hack.
    assert (queue_ok db').
    { unfold queue_ok. rewrite Hdb', ackMessage_snd, sql_update_ids. exact Hok. }
    now destruct (negb acked).
  - unfold Store.storeMessage. destruct (existsb _ _) eqn:E.
    + split; [intros _|reflexivity].
      apply existsb_exists in E as [r [Hin Er]]. apply String.eqb_eq in Er.
      rewrite <- Er. now apply in_map.
    + split; [discriminate|]. intros Hin.
      apply in_map_iff in Hin as [r [Er Hin]].
      assert (existsb (fun r => String.eqb (Store.id r) (Store.new_id msg))
                      (Store.messages_table db) = true).
      { apply existsb_exists. exists r. split; [exact Hin|]. now apply String.eqb_eq. }
      congruence.
  - intros Htaken Hst.
    destruct (post_relay_created _ _ _ _ _ _ _
                (surjective_pairing (Server.post_relay authHeader body rand now db))
                Hst) as (b & m & _ & _ & Hfresh & _).
    contradiction.
Qed.

(** X9.  At-least-once, first half: when POST /v1/relay answers 201, the
    recipient's poll is its poll from before plus the new entry, which
    carries the relay identifier of the response and the body as
    submitted. *)
Theorem queued_message_is_polled
        (authHeader : option string) (body : option json) (rand : string)
        (now : Z) (db db' : Store.Db) (resp : Response) :
  Server.post_relay authHeader body rand now db = (resp, db') ->
  status resp = 201 ->
  exists b msg,
    body = Some b /\ MessageSchema b = inr msg
    /\ resp = respond (BQueued (Store.id (queued_entry rand now b msg))) 201
    /\ Permutation (Store.getMessagesFor (msg_to msg) (-1) db')
                   (queued_entry rand now b msg
                    :: Store.getMessagesFor (msg_to msg) (-1) db)
    /\ Store.message_json (queued_entry rand now b msg) = stringify b.
Proof.
  intros Hrun Hst.
  destruct (post_relay_created _ _ _ _ _ _ _ Hrun Hst)
    as (b & msg & -> & Hm & Hfresh & ->).
  exists b, msg. split; [reflexivity|]. split; [exact Hm|].
  split; [|split; [|reflexivity]].
  - apply (f_equal fst) in Hrun. cbn [fst] in Hrun. subst resp.
    destruct (Server.resolveAgent authHeader db) as [[a h]|] eqn:Hr.
    + rewrite (post_relay_parsed _ _ _ _ _ _ _ _ Hr Hm) in *.
      destruct (negb _); [discriminate Hst|].
      destruct (Store.getAgent (msg_to msg) db); [|discriminate Hst].
      destruct (existsb _ _); [discriminate Hst|reflexivity].
    + unfold Server.post_relay in Hst. rewrite Hr in Hst. discriminate Hst.
  - rewrite !waiting_rows.
    cbn [Store.messages_table Store.with_messages].
    rewrite filter_app. cbn [filter].
    assert (Hw : waiting_for (msg_to msg) (queued_entry rand now b msg) = true).
    { unfold waiting_for, queued_entry. cbn. now rewrite String.eqb_refl. }
    rewrite Hw, !sort_by_perm. symmetry. apply Permutation_cons_append.
Qed.

(** X10.  Acknowledging over HTTP: for an authenticated agent the answer
    depends on one thing, whether the queue holds an entry with that
    identifier addressed to this agent.  If not (unknown identifier, or
    somebody else's entry) the answer is 404 and the database is as before;
    if so the answer is 200 and afterwards every such entry is delivered
    and all entries keep their identifiers, recipients and texts. *)
Theorem only_the_recipient_acknowledges
        (relayId : string) (authHeader : option string) (db : Store.Db)
        (agentId h : string) :
  Server.resolveAgent authHeader db = Some (agentId, h) ->
  let mine := fun r => String.eqb (Store.id r) relayId
                       && String.eqb (Store.to_agent r) agentId in
  let run := Server.post_relay_ack relayId authHeader db in
  (if existsb mine (Store.messages_table db)
   then fst run = respond BAcknowledged 200
   else run = (json_error INVALID_MESSAGE
                          "Message not found or already acknowledged" 404, db))
  /\ Forall (fun r => mine r = true -> Store.delivered r = 1)
            (Store.messages_table (snd run))
  /\ map (fun r => (Store.id r, Store.to_agent r, Store.message_json r))
         (Store.messages_table (snd run))
     = map (fun r => (Store.id r, Store.to_agent r, Store.message_json r))
           (Store.messages_table db)
  /\ Store.agents_table (snd run) = Store.agents_table db.
Proof.
  intros Hr mine run. subst run. unfold Server.post_relay_ack. rewrite Hr.
  rewrite (surjective_pairing (Store.ackMessage relayId agentId db)).
  rewrite ackMessage_result. fold mine.
  destruct (existsb mine (Store.messages_table db)) eqn:E; cbn [negb fst snd].
  - split; [reflexivity|].
    unfold Store.ackMessage, Store.sql_update.
    cbn [snd Store.messages_table Store.with_messages Store.agents_table].
    split; [|split; [|reflexivity]].
    + rewrite Forall_map. apply Forall_forall. intros r _. fold (mine r).
      destruct (mine r) eqn:Er; [reflexivity|]. congruence.
    + rewrite map_map. apply map_ext. intros r. now destruct (_ && _).
  - rewrite (ackMessage_not_found _ _ _ E). cbn [snd].
    split; [reflexivity|]. split; [|split; reflexivity].
    apply Forall_forall. intros r Hin Hm.
    assert (existsb mine (Store.messages_table db) = true)
      by (apply existsb_exists; eauto).
    congruence.
Qed.

(** X11.  One token, one sender: in a given database a bearer token is
    accepted as the sender of at most one [from].  Of two messages with
    different senders submitted under the same Authorization header, at
    least one is refused. *)
Theorem one_sender_per_token
        (authHeader : option string) (b1 b2 : json) (m1 m2 : Message)
        (rand1 rand2 : string) (now1 now2 : Z) (db : Store.Db) :
  MessageSchema b1 = inr m1 -> MessageSchema b2 = inr m2 ->
  msg_from m1 <> msg_from m2 ->
  status (fst (Server.post_relay authHeader (Some b1) rand1 now1 db)) <> 201
  \/ status (fst (Server.post_relay authHeader (Some b2) rand2 now2 db)) <> 201.
Proof.
  intros H1 H2 Hne.
  destruct (Server.resolveAgent authHeader db) as [[a h]|] eqn:Hr.
  - rewrite (post_relay_parsed _ _ _ _ _ _ _ _ Hr H1).
    rewrite (post_relay_parsed _ _ _ _ _ _ _ _ Hr H2).
    destruct (String.eqb_spec (msg_from m1) a) as [E1|_];
      [|left; discriminate].
    destruct (String.eqb_spec (msg_from m2) a) as [E2|_];
      [congruence|right; discriminate].
  - left. unfold Server.post_relay. rewrite Hr. discriminate.
Qed.

(** X12.  The relay reads no signature, payload or timestamp: two bodies
    the schema accepts, with the same [from] and [to], get the same
    response under the same header, identifier draw and database. *)
Theorem relay_reads_sender_and_recipient_only
        (authHeader : option string) (b1 b2 : json) (m1 m2 : Message)
        (rand : string) (now : Z) (db : Store.Db) :
  MessageSchema b1 = inr m1 -> MessageSchema b2 = inr m2 ->
  msg_from m1 = msg_from m2 -> msg_to m1 = msg_to m2 ->
  fst (Server.post_relay authHeader (Some b1) rand now db)
  = fst (Server.post_relay authHeader (Some b2) rand now db).
Proof.
  intros H1 H2 Hf Ht.
  destruct (Server.resolveAgent authHeader db) as [[a h]|] eqn:Hr.
  - rewrite (post_relay_parsed _ _ _ _ _ _ _ _ Hr H1).
    rewrite (post_relay_parsed _ _ _ _ _ _ _ _ Hr H2).
    rewrite Hf, Ht. destruct (negb _); [reflexivity|].
    destruct (Store.getAgent (msg_to m2) db); [|reflexivity].
    now destruct (existsb _ _).
  - unfold Server.post_relay. now rewrite Hr.
Qed.

End RelayHandlerFacts.

(** ** The relay and the cards; polling over HTTP *)

Section RelayReadFacts.
Import Json Model Js Http QueueInvariant Reads.
Context {P : Platform}.
Local Open Scope list_scope.
Local Open Scope Z_scope.

Lemma resolveAgent_recard f authHeader db :
  (forall c, agent_id (f c) = agent_id c) ->
  Server.resolveAgent authHeader (recard f db)
  = Server.resolveAgent authHeader db.
Proof.
  intros Hf. unfold Server.resolveAgent.
  destruct (bearer authHeader) as [token|]; [|reflexivity].
  unfold Store.getAgentByTokenHash, recard.
  cbn [Store.agents_table Store.with_agents].
  rewrite find_map by reflexivity.
  destruct (find _ (Store.agents_table db)); simpl; [|reflexivity].
  now rewrite Hf.
Qed.

Lemma getAgent_recard f id db :
  Store.getAgent id (recard f db) = None <-> Store.getAgent id db = None.
Proof.
  unfold Store.getAgent, recard. cbn [Store.agents_table Store.with_agents].
  rewrite find_map by reflexivity.
  destruct (find _ (Store.agents_table db)); simpl; split; congruence.
Qed.

(** X13.  The relay looks at no card content: rewrite the cards of the
    database in any way that keeps each [agent_id] (other access-control
    modes, allow and block lists, endpoints, keys), and POST /v1/relay
    gives the same response and writes the same queue. *)
Theorem relay_ignores_card_contents
        (f : AgentCard -> AgentCard) (authHeader : option string)
        (body : option json) (rand : string) (now : Z) (db : Store.Db) :
  (forall c, agent_id (f c) = agent_id c) ->
  Server.post_relay authHeader body rand now (recard f db)
  = (fst (Server.post_relay authHeader body rand now db),
     recard f (snd (Server.post_relay authHeader body rand now db))).
Proof.
  intros Hf. unfold Server.post_relay.
  rewrite (resolveAgent_recard f authHeader db Hf).
  destruct (Server.resolveAgent authHeader db) as [[a h]|]; [|reflexivity].
  destruct body as [b|]; [|reflexivity].
  destruct (MessageSchema b) as [issues|msg]; [reflexivity|].
  destruct (negb _); [reflexivity|].
  pose proof (getAgent_recard f (msg_to msg) db) as Hg.
  destruct (Store.getAgent (msg_to msg) db) as [r|],
    (Store.getAgent (msg_to msg) (recard f db)) as [r'|];
    try reflexivity;
    try (exfalso; destruct Hg as [H1 H2];
         (discriminate (H1 eq_refl) || discriminate (H2 eq_refl))).
  unfold Store.storeMessage.
  cbn [recard Store.messages_table Store.with_agents].
  now destruct (existsb _ _).
Qed.

Lemma conversation_rows c agentId limit db :
  Forall (fun r => In r (Store.messages_table db)
                   /\ Store.to_agent r = agentId /\ Store.delivered r = 0
                   /\ Store.conversation_id r = c)
         (Store.getMessagesInConversation c agentId limit db)
  /\ StronglySorted (fun a b => String.leb a b = true)
       (map Store.created_at (Store.getMessagesInConversation c agentId limit db)).
Proof.
  unfold Store.getMessagesInConversation. split.
  - apply sql_limit_Forall, Forall_forall. intros r Hr.
    apply sort_by_In, filter_In in Hr as [Hin Hw].
    apply andb_prop in Hw as [Hw Hd]. apply andb_prop in Hw as [Hc Hto].
    apply String.eqb_eq in Hto, Hc. apply Z.eqb_eq in Hd. auto.
  - unfold Store.sql_limit.
    destruct (limit <? 0); [apply sort_by_keys_sorted|].
    rewrite <- firstn_map. apply StronglySorted_firstn, sort_by_keys_sorted.
Qed.

Lemma inbox_rows agentId limit db :
  Forall (fun r => In r (Store.messages_table db)
                   /\ Store.to_agent r = agentId /\ Store.delivered r = 0)
         (Store.getMessagesFor agentId limit db)
  /\ StronglySorted (fun a b => String.leb a b = true)
       (map Store.created_at (Store.getMessagesFor agentId limit db)).
Proof.
  unfold Store.getMessagesFor. split.
  - apply sql_limit_Forall, Forall_forall. intros r Hr.
    apply sort_by_In, filter_In in Hr as [Hin Hw].
    apply andb_prop in Hw as [Hto Hd].
    apply String.eqb_eq in Hto. apply Z.eqb_eq in Hd. auto.
  - unfold Store.sql_limit.
    destruct (limit <? 0); [apply sort_by_keys_sorted|].
    rewrite <- firstn_map. apply StronglySorted_firstn, sort_by_keys_sorted.
Qed.

(** X14.  GET /v1/relay for an authenticated agent.  When the [limit]
    parameter (50 when absent) parses to a number above [lowest_limit], the
    answer is 200 with entries that are all in the queue, undelivered and
    addressed to that agent (and of the conversation asked for, if one
    is), oldest first.  A limit that is not negative yields at most 100
    entries; a negative one passes [Math.min] unchanged and lifts the
    bound: the whole inbox is returned.  When the parameter parses to no
    number, or to one at or below [lowest_limit], SQLite refuses the bound
    value and the exception is not caught: the answer is 500. *)
Theorem poll_shows_only_own_messages
        (authHeader conversation limit_param : option string) (db : Store.Db)
        (agentId h : string) :
  Server.resolveAgent authHeader db = Some (agentId, h) ->
  let parsed :=
    parseInt10 (match limit_param with Some s => s | None => "50" end) in
  (forall n,
      parsed = Some n -> lowest_limit < n ->
      exists rows,
        get_relay authHeader conversation limit_param db
        = (200, LMessages (map polled_of rows))
        /\ Forall (fun r => In r (Store.messages_table db)
                            /\ Store.to_agent r = agentId
                            /\ Store.delivered r = 0
                            /\ match truthy conversation with
                               | Some c => Store.conversation_id r = c
                               | None => True
                               end) rows
        /\ StronglySorted (fun a b => String.leb a b = true)
                          (map Store.created_at rows)
        /\ (0 <= n -> (length rows <= 100)%nat)
        /\ (n < 0 -> truthy conversation = None ->
            rows = Store.getMessagesFor agentId (-1) db))
  /\ (parsed = None \/ (exists n, parsed = Some n /\ n <= lowest_limit) ->
      get_relay authHeader conversation limit_param db = (500, LUncaught)).
Proof.
  intros Hr parsed. split.
  - intros n Hn Hlow. unfold get_relay. rewrite Hr. fold parsed. rewrite Hn.
    unfold bound_limit. cbv zeta.
    assert (Hmin : lowest_limit < Z.min n 100)
      by (unfold lowest_limit in *; lia).
    destruct (Z.leb_spec (Z.min n 100) lowest_limit) as [Hle|_]; [lia|].
    assert (Hcap : forall {A} (l : list A),
               0 <= n -> (length (Store.sql_limit (Z.min n 100) l) <= 100)%nat).
    { intros A l H0. unfold Store.sql_limit.
      destruct (Z.ltb_spec (Z.min n 100) 0); [lia|].
      etransitivity; [apply firstn_le_length|]. lia. }
    destruct (truthy conversation) as [c|] eqn:Hc.
    + exists (Store.getMessagesInConversation c agentId (Z.min n 100) db).
      split; [reflexivity|].
      destruct (conversation_rows c agentId (Z.min n 100) db) as [Hall Hs].
      split; [|split; [exact Hs|split]].
      * eapply Forall_impl; [|exact Hall]. intros r (H1 & H2 & H3 & H4). auto.
      * intros H0. unfold Store.getMessagesInConversation. now apply Hcap.
      * discriminate.
    + exists (Store.getMessagesFor agentId (Z.min n 100) db).
      split; [reflexivity|].
      destruct (inbox_rows agentId (Z.min n 100) db) as [Hall Hs].
      split; [|split; [exact Hs|split]].
      * eapply Forall_impl; [|exact Hall]. intros r (H1 & H2 & H3). auto.
      * intros H0. unfold Store.getMessagesFor. now apply Hcap.
      * intros Hneg _. unfold Store.getMessagesFor, Store.sql_limit.
        destruct (Z.ltb_spec (Z.min n 100) 0); [reflexivity|lia].
  - intros H. unfold get_relay. rewrite Hr. fold parsed.
    destruct H as [->|[n [-> Hle]]]; [reflexivity|].
    unfold bound_limit. cbv zeta.
    destruct (Z.leb_spec (Z.min n 100) lowest_limit) as [_|Hgt];
      [reflexivity|].
    unfold lowest_limit in *. lia.
Qed.

End RelayReadFacts.

(** ** What search returns *)

Section SearchMeaningFacts.
Import Model Js Search Paging Invariant Meaning.
Context {C : Casing}.
Local Open Scope list_scope.

(** X15.  What is on a page: every agent a search returns is stored and
    meets each filter that was supplied and is not empty (capability
    listed, intent listed, text found in the lower-cased name or
    description); a page never holds more than [limit] agents.  Both
    stores. *)
Theorem search_answers_within_filters
        (store : AgentStore.t) (db : Store.Db) (query : Query)
        (rm rd : Result) :
  AgentStore.search store query = Some rm ->
  Store.searchAgents db query = Some rd ->
  (Forall (fun a => meets query a /\ In a (map card (map_values store)))
          (agents rm)
   /\ length (agents rm) <= q_limit query)
  /\ (Forall (fun a => meets query a
                       /\ In a (map Store.card_json (Store.agents_table db)))
             (agents rd)
      /\ length (agents rd) <= q_limit query).
Proof.
  intros Hm Hd. split.
  - now apply search_from_sound.
  - apply search_from_sound in Hd as [Hall Hlen]. split; [|exact Hlen].
    eapply Forall_impl; [|exact Hall]. intros a [H1 H2]. split; [exact H1|].
    apply in_map_iff in H2 as [r [<- Hr]]. apply in_map.
    now apply sort_by_In in Hr.
Qed.

(** X16.  The unpaginated search is exact: an agent is in its answer if
    and only if it is stored and meets the filters.  Both stores. *)
Theorem unpaginated_search_is_exact
        (store : AgentStore.t) (db : Store.Db) (query : Query) (a : AgentCard) :
  exists rm rd,
    AgentStore.search store (unpaginated (AgentStore.count store) query)
    = Some rm
    /\ Store.searchAgents db (unpaginated (Store.countAgents db) query)
       = Some rd
    /\ (In a (agents rm)
        <-> In a (map card (map_values store)) /\ meets query a)
    /\ (In a (agents rd)
        <-> In a (map Store.card_json (Store.agents_table db)) /\ meets query a).
Proof.
  exists {| agents := filtered query (map card (map_values store));
            cursor := None |},
         {| agents := filtered query
                        (map Store.card_json
                             (sort_by Store.row_agent_id (Store.agents_table db)));
            cursor := None |}.
  split; [|split; [|split]].
  - unfold AgentStore.search, AgentStore.count.
    rewrite <- (unpaginated_all (map card (map_values store)) query).
    unfold map_values. now rewrite !length_map.
  - unfold Store.searchAgents, Store.countAgents.
    rewrite <- (unpaginated_all _ query).
    now rewrite length_map, sort_by_length.
  - cbn [agents]. rewrite filtered_filter, filter_In, matches_meets. tauto.
  - cbn [agents]. rewrite filtered_filter, filter_In, matches_meets.
    rewrite !in_map_iff. split.
    + intros [[r [E Hr]] Hm]. split; [|exact Hm].
      exists r. split; [exact E|]. now apply sort_by_In in Hr.
    + intros [[r [E Hr]] Hm]. split; [|exact Hm].
      exists r. split; [exact E|]. now apply sort_by_In.
Qed.

Lemma page_of_throws query l : page_of query l = None <-> q_limit query = 0.
Proof.
  split.
  - intros H. destruct (q_limit query) as [|n] eqn:E; [reflexivity|].
    destruct (page_of_total query l) as [r Hr]; [lia|]. congruence.
  - intros E. unfold page_of. now rewrite E.
Qed.

(** X17.  A search throws (reading the [agent_id] of the last element of an
    empty page) exactly when [limit] is 0, whatever the store holds and
    whatever else the query says.  Both stores. *)
Theorem search_throws_only_for_limit_zero
        (store : AgentStore.t) (db : Store.Db) (query : Query) :
  (AgentStore.search store query = None <-> q_limit query = 0)
  /\ (Store.searchAgents db query = None <-> q_limit query = 0).
Proof. split; apply page_of_throws. Qed.

Lemma search_from_same_text all query s1 s2 :
  s1 <> "" -> s2 <> "" -> toLowerCase s1 = toLowerCase s2 ->
  search_from all (with_q (Some s1) query)
  = search_from all (with_q (Some s2) query).
Proof.
  intros H1 H2 E. unfold search_from.
  assert (Hf : forall l, filtered (with_q (Some s1) query) l
                         = filtered (with_q (Some s2) query) l).
  { intros l. unfold filtered, by_text, by_intent, by_capability.
    cbn [with_q q_q q_intent q_capability]. unfold truthy.
    apply String.eqb_neq in H1, H2. rewrite H1, H2. now rewrite E. }
  rewrite Hf. reflexivity.
Qed.

(** X18.  The text filter sees the query text through [toLowerCase] only,
    so it ignores letter case: two texts that are not empty and have the
    same lower-case form select the same pages.  Both stores. *)
Theorem text_filter_ignores_case
        (store : AgentStore.t) (db : Store.Db) (query : Query)
        (s1 s2 : string) :
  s1 <> "" -> s2 <> "" ->
  toLowerCase s1 = toLowerCase s2 ->
  AgentStore.search store (with_q (Some s1) query)
  = AgentStore.search store (with_q (Some s2) query)
  /\ Store.searchAgents db (with_q (Some s1) query)
     = Store.searchAgents db (with_q (Some s2) query).
Proof. intros H1 H2 E. split; now apply search_from_same_text. Qed.

(** X19.  The SQLite search does not depend on the order the rows were
    written in: two tables with the same rows, one per identifier, answer
    every query alike. *)
Theorem sqlite_search_ignores_row_order
        (db1 db2 : Store.Db) (query : Query) :
  NoDup (map Store.row_agent_id (Store.agents_table db1)) ->
  Permutation (Store.agents_table db1) (Store.agents_table db2) ->
  Store.searchAgents db1 query = Store.searchAgents db2 query.
Proof.
  intros Hnd Hp. unfold Store.searchAgents.
  now rewrite (sort_by_order_irrelevant Store.row_agent_id _ _ Hp Hnd).
Qed.

End SearchMeaningFacts.

(** ** The Authorization header *)

Section BearerFacts.
Import Json Model Js Http Invariant.
Context {P : Platform}.

Lemma prefix_split p : forall s,
  String.prefix p s = true <-> exists r, s = p ++ r.
Proof.
  induction p as [|a p IH]; intros s; simpl.
  - destruct s; split; eauto.
  - destruct s as [|b s]; simpl.
    + split; [discriminate|]. intros [r Hr]. discriminate Hr.
    + destruct (ascii_dec a b) as [->|Hne].
      * rewrite IH. split; intros [r Hr]; exists r; simpl in *; congruence.
      * split; [discriminate|]. intros [r Hr]. simpl in Hr. congruence.
Qed.

Lemma substring_whole s : String.substring 0 (String.length s) s = s.
Proof. induction s as [|c s IH]; simpl; congruence. Qed.

Lemma slice_after_prefix p r : slice_str (String.length p) (p ++ r) = r.
Proof.
  unfold slice_str. induction p as [|a p IH]; simpl.
  - rewrite Nat.sub_0_r. apply substring_whole.
  - exact IH.
Qed.

(** X20.  The token is what follows the seven characters [Bearer ] (the
    scheme in this exact case, one space): the header yields a token
    exactly when it is that prefix followed by the token. *)
Theorem bearer_reads_the_token (authHeader : option string) (token : string) :
  bearer authHeader = Some token <-> authHeader = Some ("Bearer " ++ token).
Proof.
  unfold bearer, startsWith. destruct authHeader as [h|].
  - destruct (String.prefix "Bearer " h) eqn:E.
    + apply prefix_split in E as [r ->].
      change 7%nat with (String.length "Bearer ").
      rewrite slice_after_prefix.
      split; [intros [= ->]; reflexivity|cbn; intros [= ->]; reflexivity].
    + split; [discriminate|]. intros Hh.
      assert (H : String.prefix "Bearer " ("Bearer " ++ token) = true)
        by (apply prefix_split; eauto).
      assert (Eh : h = "Bearer " ++ token) by congruence.
      rewrite Eh, H in E. discriminate E.
  - split; discriminate.
Qed.

End BearerFacts.

(** ** Registration, discovery, deregistration *)

Section DiscoveryFacts.
Import Json Model Js Search Paging Http Invariant Meaning.
Context {P : Platform} {C : Casing}.
Local Open Scope list_scope.

Lemma able_to_meets c a :
  c <> "" -> In c (capabilities a) -> meets (able_to c) a.
Proof.
  intros Hc Hin. unfold meets, able_to, truthy. cbn.
  apply String.eqb_neq in Hc. rewrite Hc.
  repeat split; try discriminate. now intros c' [= <-].
Qed.

Lemma unpaginated_In all query a :
  In a all -> meets query a ->
  exists r, search_from all (unpaginated (length all) query) = Some r
            /\ In a (agents r).
Proof.
  intros Hin Hm. rewrite unpaginated_all. eexists. split; [reflexivity|].
  cbn [agents]. rewrite filtered_filter. apply filter_In.
  split; [exact Hin|]. now apply matches_meets.
Qed.

Lemma db_cards_without id db query res :
  db_ok db -> Store.getAgent id db = None ->
  Store.searchAgents db query = Some res ->
  Forall (fun a => agent_id a <> id) (agents res).
Proof.
  intros [_ Hall] Hnone Hres.
  apply search_from_sound in Hres as [Hin _].
  eapply Forall_impl; [|exact Hin]. intros a [_ Ha] E.
  apply in_map_iff in Ha as [row [<- Hrow]]. apply sort_by_In in Hrow.
  rewrite Forall_forall in Hall. destruct (Hall row Hrow) as [Hk _].
  unfold Store.getAgent in Hnone.
  destruct (find _ (Store.agents_table db)) eqn:F; [discriminate|].
  pose proof (find_none _ _ F row Hrow) as Hf. simpl in Hf.
  apply String.eqb_neq in Hf. congruence.
Qed.

Lemma mem_cards_without id store query res :
  mem_ok store -> AgentStore.get id store = None ->
  AgentStore.search store query = Some res ->
  Forall (fun a => agent_id a <> id) (agents res).
Proof.
  intros [_ Hall] Hnone Hres.
  apply search_from_sound in Hres as [Hin _].
  eapply Forall_impl; [|exact Hin]. intros a [_ Ha] E.
  unfold map_values in Ha. rewrite map_map in Ha.
  apply in_map_iff in Ha as [[k v] [<- Hkv]].
  rewrite Forall_forall in Hall. destruct (Hall _ Hkv) as [Hk _].
  cbn [fst snd] in *. unfold AgentStore.get in Hnone.
  rewrite map_get_find in Hnone.
  destruct (find _ store) eqn:F; [discriminate|].
  pose proof (find_none _ _ F _ Hkv) as Hf. cbn [fst] in Hf.
  apply String.eqb_neq in Hf. congruence.
Qed.

(** X21.  Registration, discovery, deregistration: after a registration
    with a card that lists a capability, the unpaginated search for that
    capability returns the stored card; the owner's DELETE is answered
    204, and after it no search result carries that identifier.  Both
    servers. *)
Theorem registered_agent_is_discoverable
        (authHeader : option string) (token : string) (b : json)
        (data : AgentCard) (rand : string) (now : Z) (c : string)
        (query : Query) (db : Store.Db) (store : AgentStore.t) :
  bearer authHeader = Some token ->
  AgentCardSchema b = inr data ->
  c <> "" -> In c (capabilities data) ->
  db_ok db -> mem_ok store -> 1 <= q_limit query ->
  let id := agentId rand in
  let db1 := snd (Server.post_agents authHeader (Some b) rand now db) in
  let gone := Server.delete_agent id authHeader db1 in
  let store1 := snd (MemServer.post_agents authHeader (Some b) rand now store) in
  let mgone := MemServer.delete_agent id authHeader store1 in
  ((exists r, Store.searchAgents db1 (unpaginated (Store.countAgents db1)
                                                  (able_to c)) = Some r
              /\ In (set_agent_id id data) (agents r))
   /\ status (fst gone) = 204%Z
   /\ (exists r, Store.searchAgents (snd gone) query = Some r
                 /\ Forall (fun a => agent_id a <> id) (agents r)))
  /\ ((exists r, AgentStore.search store1 (unpaginated (AgentStore.count store1)
                                                       (able_to c)) = Some r
                 /\ In (set_agent_id id data) (agents r))
      /\ status (fst mgone) = 204%Z
      /\ (exists r, AgentStore.search (snd mgone) query = Some r
                    /\ Forall (fun a => agent_id a <> id) (agents r))).
Proof.
  intros Hb Hs Hc Hin Hdb Hmem Hlim id db1 gone store1 mgone.
  set (record := {| card := set_agent_id id data;
                    registered_at := toISOString now;
                    expires_at := toISOString (now + thirty_days);
                    token_hash := sha256_hex token |}).
  assert (Hid : agent_id (card record) = id) by reflexivity.
  assert (Hmeets : meets (able_to c) (set_agent_id id data))
    by now apply able_to_meets.
  split.
  - assert (Hdb1 : db1 = Store.putAgent record db).
    { subst db1. unfold Server.post_agents. now rewrite Hb, Hs. }
    assert (Hget : Store.getAgent id db1 = Some record).
    { rewrite Hdb1, <- Hid. apply getAgent_putAgent_same. }
    assert (Hok1 : db_ok db1).
    { rewrite Hdb1. apply putAgent_ok; [exact Hdb|discriminate]. }
    assert (Hgone : gone = (respond BEmpty 204, snd (Store.deleteAgent id db1))).
    { subst gone. unfold Server.delete_agent. rewrite Hb, Hget.
      cbn [token_hash record]. unfold Server.hashToken.
      now rewrite String.eqb_refl. }
    split; [|split].
    + unfold Store.searchAgents, Store.countAgents.
      rewrite <- (sort_by_length Store.row_agent_id),
        <- (length_map Store.card_json).
      apply unpaginated_In; [|exact Hmeets].
      apply in_map_iff. exists (Store.row_of_stored record).
      split; [reflexivity|]. apply sort_by_In.
      rewrite Hdb1. unfold Store.putAgent.
      cbn [Store.agents_table Store.with_agents].
      apply in_or_app. right. now left.
    + now rewrite Hgone.
    + rewrite Hgone. cbn [snd].
      destruct (page_of_total query
                  (after_cursor query
                     (filtered query
                        (map Store.card_json
                             (sort_by Store.row_agent_id
                                (Store.agents_table
                                   (snd (Store.deleteAgent id db1)))))))
                  Hlim) as [r Hr].
      exists r. split; [exact Hr|].
      eapply (db_cards_without id); try exact Hr.
      * now apply deleteAgent_ok.
      * unfold Store.deleteAgent, Store.getAgent.
        cbn [snd Store.agents_table Store.with_agents].
        now rewrite (find_filter_negb
                       (fun r => String.eqb (Store.row_agent_id r) id)).
  - assert (Hs1 : store1 = AgentStore.put record store).
    { subst store1. unfold MemServer.post_agents. now rewrite Hb, Hs. }
    assert (Hget : AgentStore.get id store1 = Some record).
    { rewrite Hs1. apply map_get_set_same. }
    assert (Hok1 : mem_ok store1).
    { rewrite Hs1. apply put_ok; [exact Hmem|discriminate]. }
    assert (Hgone : mgone
                    = (respond BEmpty 204, snd (AgentStore.delete id store1))).
    { subst mgone. unfold MemServer.delete_agent. rewrite Hb, Hget.
      cbn [token_hash record]. unfold MemServer.hashToken.
      now rewrite String.eqb_refl. }
    split; [|split].
    + unfold AgentStore.search, AgentStore.count.
      replace (length store1) with (length (map card (map_values store1)))
        by (unfold map_values; now rewrite !length_map).
      apply unpaginated_In; [|exact Hmeets].
      unfold map_values. rewrite map_map.
      apply in_map_iff. exists (id, record). split; [reflexivity|].
      now apply map_get_In.
    + now rewrite Hgone.
    + rewrite Hgone. cbn [snd].
      destruct (page_of_total query
                  (after_cursor query
                     (filtered query
                        (map card
                             (map_values (snd (AgentStore.delete id store1))))))
                  Hlim) as [r Hr].
      exists r. split; [exact Hr|].
      eapply (mem_cards_without id); try exact Hr.
      * now apply delete_ok.
      * unfold AgentStore.delete, AgentStore.get, map_delete. cbn [snd].
        rewrite map_get_find.
        now rewrite (find_filter_negb (fun kv => String.eqb (fst kv) id)).
Qed.

End DiscoveryFacts.

(** ** An update does not move an agent in the listing *)

Section ListingOrderFacts.
Import Json Model Js Search Paging Http Invariant Scenario.
Context {P : Platform} {C : Casing}.
Local Open Scope list_scope.

Lemma insert_by_map2 {A B} (k1 : A -> string) (k2 : B -> string) (f : A -> B)
      x l :
  (forall y, k2 (f y) = k1 y) ->
  insert_by k2 (f x) (map f l) = map f (insert_by k1 x l).
Proof.
  intros Hk. induction l as [|h t IH]; [reflexivity|].
  simpl. rewrite !Hk. destruct (String.leb (k1 x) (k1 h)); [reflexivity|].
  simpl. now rewrite IH.
Qed.

Lemma sort_by_map2 {A B} (k1 : A -> string) (k2 : B -> string) (f : A -> B) l :
  (forall y, k2 (f y) = k1 y) ->
  sort_by k2 (map f l) = map f (sort_by k1 l).
Proof.
  intros Hk. induction l as [|h t IH]; [reflexivity|].
  simpl. rewrite IH. now apply insert_by_map2.
Qed.

Lemma extract_by_key {A} (key : A -> string) r0 l :
  NoDup (map key l) -> In r0 l ->
  Permutation l (r0 :: filter (fun r => negb (String.eqb (key r) (key r0))) l).
Proof.
  induction l as [|h t IH]; simpl; [tauto|].
  intros Hnd Hin. inversion Hnd as [|? ? Hnotin Hnd']; subst.
  destruct Hin as [->|Hin].
  - rewrite String.eqb_refl. simpl. now rewrite filter_absent.
  - destruct (String.eqb_spec (key h) (key r0)) as [E|_]; simpl.
    + exfalso. apply Hnotin. rewrite E. now apply in_map.
    + rewrite (IH Hnd' Hin) at 1. apply perm_swap.
Qed.

Lemma last_elt_none {A} (l : list A) : last_elt l = None <-> l = [].
Proof.
  split; [|now intros ->].
  destruct l as [|x l]; [reflexivity|]. intros H.
  destruct (last_elt_nonempty (x :: l)) as [a Ha]; [discriminate|congruence].
Qed.

Lemma ids_of_page query l l' :
  map agent_id l = map agent_id l' ->
  ids_of (page_of query l) = ids_of (page_of query l').
Proof.
  intros E. unfold page_of.
  assert (Hpage : map agent_id (firstn (q_limit query) l)
                  = map agent_id (firstn (q_limit query) l'))
    by (now rewrite <- !firstn_map, E).
  assert (Hlen : length (firstn (q_limit query) l)
                 = length (firstn (q_limit query) l'))
    by (rewrite <- (length_map agent_id), Hpage; apply length_map).
  rewrite Hlen. destruct (Nat.eqb _ (q_limit query)).
  - destruct (last_elt (firstn (q_limit query) l)) as [a|] eqn:La,
      (last_elt (firstn (q_limit query) l')) as [a'|] eqn:La'; simpl.
    + now rewrite Hpage.
    + apply last_elt_none in La'. rewrite La' in Hlen.
      destruct (firstn (q_limit query) l); [discriminate La|discriminate Hlen].
    + apply last_elt_none in La. rewrite La in Hlen.
      destruct (firstn (q_limit query) l'); [discriminate La'|discriminate Hlen].
    + reflexivity.
  - simpl. now rewrite Hpage.
Qed.

Lemma put_agent_updated id authHeader body now db :
  status (fst (Server.put_agent id authHeader body now db)) = 200%Z ->
  exists old record,
    Store.getAgent id db = Some old /\ agent_id (card record) = id
    /\ snd (Server.put_agent id authHeader body now db)
       = Store.putAgent record db.
Proof.
  unfold Server.put_agent.
  destruct (bearer authHeader); [|discriminate].
  destruct (Store.getAgent id db) as [old|]; [|discriminate].
  destruct (negb _); [discriminate|].
  destruct body as [b|]; [|discriminate].
  destruct (AgentCardSchema b) as [issues|data]; [discriminate|].
  intros _. eexists old, _. split; [reflexivity|]. split; [|reflexivity].
  reflexivity.
Qed.

Lemma mem_put_agent_updated id authHeader body now store :
  status (fst (MemServer.put_agent id authHeader body now store)) = 200%Z ->
  exists old record,
    AgentStore.get id store = Some old /\ agent_id (card record) = id
    /\ snd (MemServer.put_agent id authHeader body now store)
       = AgentStore.put record store.
Proof.
  unfold MemServer.put_agent.
  destruct (bearer authHeader); [|discriminate].
  destruct (AgentStore.get id store) as [old|]; [|discriminate].
  destruct (negb _); [discriminate|].
  destruct body as [b|]; [|discriminate].
  destruct (AgentCardSchema b) as [issues|data]; [discriminate|].
  intros _. eexists old, _. split; [reflexivity|]. split; [|reflexivity].
  reflexivity.
Qed.

Lemma sorted_ids rows :
  map Store.row_agent_id (sort_by Store.row_agent_id rows)
  = sort_by (fun s => s) (map Store.row_agent_id rows).
Proof. symmetry. now apply sort_by_map2. Qed.

(** X22.  A successful PUT does not move the agent in the listing: the
    sequence of identifiers that the search without filters returns is the
    same before and after the update, for every page size.  Both
    servers. *)
Theorem update_keeps_listing_order
        (id : string) (authHeader : option string) (body : option json)
        (now : Z) (limit : nat) (db : Store.Db) (store : AgentStore.t) :
  db_ok db -> mem_ok store ->
  status (fst (Server.put_agent id authHeader body now db)) = 200%Z ->
  status (fst (MemServer.put_agent id authHeader body now store)) = 200%Z ->
  ids_of (Store.searchAgents (snd (Server.put_agent id authHeader body now db))
                             (everyone limit None))
  = ids_of (Store.searchAgents db (everyone limit None))
  /\ ids_of (AgentStore.search
               (snd (MemServer.put_agent id authHeader body now store))
               (everyone limit None))
     = ids_of (AgentStore.search store (everyone limit None)).
Proof.
  intros Hdb Hmem Hst Hmst. split.
  - destruct (put_agent_updated _ _ _ _ _ Hst) as (old & record & Hget & Hid & ->).
    assert (Hne : agent_id (card record) <> "")
      by (rewrite Hid; eapply getAgent_nonempty; eassumption).
    pose proof (putAgent_ok record db Hdb Hne) as Hdb'.
    unfold Store.searchAgents.
    change (search_from ?all (everyone limit None))
      with (page_of (everyone limit None) all).
    apply ids_of_page.
    rewrite !db_cards_ids by now apply db_sorted_rows_ok.
    rewrite !sorted_ids.
    apply sort_by_order_irrelevant; [|rewrite map_id; apply Hdb'].
    unfold Store.putAgent. cbn [Store.agents_table Store.with_agents].
    apply getAgent_id in Hget as (r0 & Hin & Hr0 & _).
    destruct Hdb as [Hnd _].
    rewrite (extract_by_key Store.row_agent_id r0 (Store.agents_table db) Hnd Hin)
      at 2.
    rewrite map_app. cbn [map Store.row_of_stored Store.row_agent_id].
    rewrite Hid, Hr0. symmetry. apply Permutation_cons_append.
  - destruct (mem_put_agent_updated _ _ _ _ _ Hmst)
      as (old & record & Hget & Hid & ->).
    assert (Hne : agent_id (card record) <> "")
      by (rewrite Hid; eapply get_nonempty; eassumption).
    pose proof (put_ok record store Hmem Hne) as Hmem'.
    unfold AgentStore.search.
    change (search_from ?all (everyone limit None))
      with (page_of (everyone limit None) all).
    apply ids_of_page.
    rewrite !mem_cards_ids by (apply Hmem' || apply Hmem).
    unfold AgentStore.put. rewrite map_set_keys, Hid.
    assert (Hhas : map_has id store = true)
      by (apply map_has_get; unfold AgentStore.get in Hget; congruence).
    now rewrite Hhas.
Qed.

End ListingOrderFacts.

(** ** Discovery over HTTP, tokens after registration, and which table a
    handler writes *)

Section HandlerFrameFacts.
Import Json Model Js Search Http Invariant Reads.
Context {P : Platform} {C : Casing}.
Local Open Scope list_scope.

(** X23.  Discovery over HTTP, with a query schema that lets through only
    limits from 1 to 100: GET /v1/agents answers either 400 with code
    INVALID_MESSAGE, when the schema rejects the parameters, or 200 with
    the page the store returns for the parsed query, which holds at most
    [limit] and so at most 100 agents; it never answers 500.  Both
    servers. *)
Theorem discovery_pages_are_bounded
        (schema : RawQuery -> list string + Query) (raw : RawQuery)
        (db : Store.Db) (store : AgentStore.t) :
  (forall raw q, schema raw = inr q -> 1 <= q_limit q <= 100) ->
  (exists issues,
      schema raw = inl issues
      /\ get_agents schema raw db
         = (400%Z, LError INVALID_MESSAGE
                          ("Invalid query: " ++ Str.join ", " issues)%string
                          false)
      /\ mem_get_agents schema raw store
         = (400%Z, LError INVALID_MESSAGE
                          ("Invalid query: " ++ Str.join ", " issues)%string
                          false))
  \/ (exists q rd rm,
         schema raw = inr q
         /\ Store.searchAgents db q = Some rd
         /\ get_agents schema raw db = (200%Z, LAgents rd)
         /\ length (agents rd) <= q_limit q <= 100
         /\ AgentStore.search store q = Some rm
         /\ mem_get_agents schema raw store = (200%Z, LAgents rm)
         /\ length (agents rm) <= q_limit q <= 100).
Proof.
  intros Hschema. unfold get_agents, mem_get_agents.
  destruct (schema raw) as [issues|q] eqn:E.
  - left. exists issues. repeat split.
  - right. destruct (Hschema raw q E) as [Hlo Hhi].
    destruct (page_of_total q
                (after_cursor q
                   (filtered q
                      (map Store.card_json
                           (sort_by Store.row_agent_id (Store.agents_table db)))))
                Hlo) as [rd Hrd].
    destruct (page_of_total q
                (after_cursor q (filtered q (map card (map_values store))))
                Hlo) as [rm Hrm].
    exists q, rd, rm.
    assert (Hd : Store.searchAgents db q = Some rd) by exact Hrd.
    assert (Hm : AgentStore.search store q = Some rm) by exact Hrm.
    rewrite Hd, Hm.
    pose proof (proj2 (search_from_sound _ _ _ Hrd)).
    pose proof (proj2 (search_from_sound _ _ _ Hrm)).
    repeat split; auto.
Qed.

Lemma getAgentByTokenHash_holder h db a :
  db_ok db -> Store.getAgentByTokenHash h db = Some a ->
  token_hash a = h /\ Store.getAgent (agent_id (card a)) db = Some a.
Proof.
  intros [Hnd Hall]. unfold Store.getAgentByTokenHash.
  destruct (find _ _) as [r|] eqn:F; [|discriminate].
  intros [= <-]. apply find_some in F as [Hin Hh]. apply String.eqb_eq in Hh.
  split; [exact Hh|]. cbn [Store.stored_of_row card].
  rewrite Forall_forall in Hall. destruct (Hall r Hin) as [<- _].
  unfold Store.getAgent. now rewrite (find_unique Store.row_agent_id).
Qed.

Lemma row_is_read db r :
  db_ok db -> In r (Store.agents_table db) ->
  Store.getAgent (Store.row_agent_id r) db = Some (Store.stored_of_row r).
Proof.
  intros [Hnd _] Hin. unfold Store.getAgent.
  now rewrite (find_unique Store.row_agent_id).
Qed.

(** X24.  A registered agent can authenticate to the relay: after a
    registration under a token, that Authorization header resolves to an
    agent whose stored record holds the digest of the token; when no record
    held that digest before, it resolves to the agent just registered. *)
Theorem registered_token_resolves
        (authHeader : option string) (token : string) (b : json)
        (data : AgentCard) (rand : string) (now : Z) (db : Store.Db) :
  bearer authHeader = Some token ->
  AgentCardSchema b = inr data ->
  db_ok db ->
  let db1 := snd (Server.post_agents authHeader (Some b) rand now db) in
  exists who,
    Server.resolveAgent authHeader db1 = Some (who, sha256_hex token)
    /\ (exists a, Store.getAgent who db1 = Some a
                  /\ token_hash a = sha256_hex token)
    /\ ((forall id a, Store.getAgent id db = Some a ->
                      token_hash a <> sha256_hex token) ->
        who = agentId rand).
Proof.
  intros Hb Hs Hdb db1.
  set (record := {| card := set_agent_id (agentId rand) data;
                    registered_at := toISOString now;
                    expires_at := toISOString (now + thirty_days);
                    token_hash := sha256_hex token |}).
  assert (Hdb1 : db1 = Store.putAgent record db).
  { subst db1. unfold Server.post_agents. now rewrite Hb, Hs. }
  assert (Hok1 : db_ok db1).
  { rewrite Hdb1. apply putAgent_ok; [exact Hdb|discriminate]. }
  assert (Hnew : In (Store.row_of_stored record) (Store.agents_table db1)).
  { rewrite Hdb1. unfold Store.putAgent.
    cbn [Store.agents_table Store.with_agents]. apply in_or_app. right. now left. }
  unfold Server.resolveAgent, Server.hashToken. rewrite Hb.
  destruct (Store.getAgentByTokenHash (sha256_hex token) db1) as [a|] eqn:F.
  - destruct (getAgentByTokenHash_holder _ _ _ Hok1 F) as [Hh Hget].
    exists (agent_id (card a)). split; [reflexivity|]. split; [eauto|].
    intros Hfree.
    unfold Store.getAgentByTokenHash in F.
    rewrite Hdb1 in F. unfold Store.putAgent in F.
    cbn [Store.agents_table Store.with_agents] in F.
    rewrite find_app_none in F.
    + cbn [Store.row_of_stored Store.row_token_hash token_hash record] in F.
      rewrite String.eqb_refl in F. cbn [option_map] in F.
      injection F as <-. reflexivity.
    + intros r Hr. apply filter_In in Hr as [Hr _].
      apply String.eqb_neq.
      apply (Hfree (Store.row_agent_id r) (Store.stored_of_row r)).
      now apply row_is_read.
  - exfalso. unfold Store.getAgentByTokenHash in F.
    destruct (find _ (Store.agents_table db1)) eqn:F'; [discriminate|].
    pose proof (find_none _ _ F' _ Hnew) as Hf.
    cbn [Store.row_of_stored Store.row_token_hash token_hash record] in Hf.
    now rewrite String.eqb_refl in Hf.
Qed.

(** X25.  Each handler writes one table: registration, update and
    deregistration leave the message queue as it is (deregistering an
    agent does not purge the messages queued for it), and relay submission
    and acknowledgment leave the agents as they are. *)
Theorem handlers_keep_to_their_table
        (id relayId rand : string) (authHeader : option string)
        (body : option json) (now : Z) (db : Store.Db) :
  Store.messages_table (snd (Server.post_agents authHeader body rand now db))
  = Store.messages_table db
  /\ Store.messages_table (snd (Server.put_agent id authHeader body now db))
     = Store.messages_table db
  /\ Store.messages_table (snd (Server.delete_agent id authHeader db))
     = Store.messages_table db
  /\ Store.agents_table (snd (Server.post_relay authHeader body rand now db))
     = Store.agents_table db
  /\ Store.agents_table (snd (Server.post_relay_ack relayId authHeader db))
     = Store.agents_table db.
Proof.
  split; [|split; [|split; [|split]]].
  - unfold Server.post_agents.
    destruct (bearer authHeader); [|reflexivity].
    destruct body as [b|]; [|reflexivity].
    now destruct (AgentCardSchema b).
  - unfold Server.put_agent.
    destruct (bearer authHeader); [|reflexivity].
    destruct (Store.getAgent id db); [|reflexivity].
    destruct (negb _); [reflexivity|].
    destruct body as [b|]; [|reflexivity].
    now destruct (AgentCardSchema b).
  - unfold Server.delete_agent.
    destruct (bearer authHeader); [|reflexivity].
    destruct (Store.getAgent id db); [|reflexivity].
    now destruct (negb _).
  - unfold Server.post_relay.
    destruct (Server.resolveAgent authHeader db) as [[a h]|]; [|reflexivity].
    destruct body as [b|]; [|reflexivity].
    destruct (MessageSchema b) as [issues|msg]; [reflexivity|].
    destruct (negb _); [reflexivity|].
    destruct (Store.getAgent (msg_to msg) db); [|reflexivity].
    unfold Store.storeMessage. now destruct (existsb _ _).
  - unfold Server.post_relay_ack.
    destruct (Server.resolveAgent authHeader db) as [[a h]|]; [|reflexivity].
    rewrite (surjective_pairing (Store.ackMessage relayId a db)).
    now destruct (negb _).
Qed.

End HandlerFrameFacts.

(** ** The further properties on the two small directories *)

Section FurtherWitnesses.
Import Json Model Js Search Paging Http Invariant QueueInvariant Reads Meaning.
Import Demo Scenario Records MoreScenario DemoQuery.
Local Open Scope Z_scope.

Lemma alice_is_not_bob : alice_id <> bob_id.
Proof. discriminate. Qed.

Lemma db_queued_unique : queue_ok db_queued.
Proof. unfold queue_ok. vm_compute. repeat constructor. intros []. Qed.

Lemma delete_removes_that_record_witness :
  alice_id <> bob_id
  /\ Store.getAgent bob_id (snd (Store.deleteAgent bob_id db_two)) = None
  /\ Store.getAgent alice_id (snd (Store.deleteAgent bob_id db_two))
     = Store.getAgent alice_id db_two.
Proof.
  split; [exact alice_is_not_bob|].
  destruct (delete_removes_that_record bob_id alice_id db_two mem_two
              alice_is_not_bob) as [(_ & H1 & H2 & _) _].
  split; assumption.
Defined.

Lemma count_follows_identifiers_witness :
  db_ok db_two /\ mem_ok mem_two
  /\ Store.countAgents (Store.putAgent bob_record db_two)
     = Store.countAgents db_two
  /\ S (Store.countAgents (snd (Store.deleteAgent carol_id db_two)))
     = S (Store.countAgents db_two).
Proof.
  split; [exact db_two_ok|]. split; [exact mem_two_ok|].
  destruct (count_follows_identifiers bob_record carol_id db_two mem_two
              db_two_ok mem_two_ok) as (H1 & H2 & _).
  split; [exact H1|exact H2].
Defined.

Lemma token_lookup_finds_a_holder_witness :
  db_ok db_two
  /\ token_hash bob_record = digest "bob-token"
  /\ Store.getAgent (agent_id (card bob_record)) db_two = Some bob_record.
Proof.
  split; [exact db_two_ok|].
  exact (token_lookup_finds_a_holder (digest "bob-token") db_two db_two_ok).
Defined.

Lemma acknowledged_entry_leaves_the_inbox_witness :
  alice_id <> bob_id
  /\ Store.getMessagesFor bob_id (-1)
                          (snd (Store.ackMessage queued_id bob_id db_queued))
     = filter (fun r => negb (String.eqb (Store.id r) queued_id))
              (Store.getMessagesFor bob_id (-1) db_queued).
Proof.
  split; [exact alice_is_not_bob|].
  exact (proj1 (acknowledged_entry_leaves_the_inbox
                  queued_id bob_id alice_id 50 db_queued alice_is_not_bob)).
Defined.

Lemma acknowledge_all_empties_the_inbox_witness :
  alice_id <> bob_id
  /\ fst (Store.ackAllMessages bob_id db_queued) = 1%nat
  /\ Store.getMessagesFor bob_id 50 (snd (Store.ackAllMessages bob_id db_queued))
     = [].
Proof.
  split; [exact alice_is_not_bob|].
  destruct (acknowledge_all_empties_the_inbox bob_id alice_id 50 db_queued
              alice_is_not_bob) as (H1 & H2 & _).
  split; [exact H1|exact H2].
Defined.

Lemma relay_identifiers_stay_unique_witness :
  queue_ok db_queued
  /\ queue_ok (snd (Server.post_relay (Some "Bearer alice-token")
                                      (Some to_bob_again) "fedcba9876543210"
                                      (61 * day) db_queued))
  /\ queue_ok (snd (Server.post_relay_ack queued_id (Some "Bearer bob-token")
                                          db_queued)).
Proof.
  split; [exact db_queued_unique|].
  destruct (relay_identifiers_stay_unique
              (Some "Bearer alice-token") (Some to_bob_again) "fedcba9876543210"
              (61 * day) queued_id
              {| Store.new_id := queued_id; Store.new_conversation_id := "";
                 Store.new_from_agent := ""; Store.new_to_agent := "";
                 Store.new_intent := ""; Store.new_message_json := "" |}
              "" db_queued db_queued_unique) as (H1 & H2 & _).
  split; [exact H1|exact H2].
Defined.

Lemma queued_message_is_polled_witness :
  let run := Server.post_relay (Some "Bearer alice-token") (Some to_bob)
                               "0123456789abcdef" (60 * day) db_day45 in
  status (fst run) = 201
  /\ exists b msg,
      Some to_bob = Some b /\ MessageSchema b = inr msg
      /\ fst run
         = respond (BQueued (Store.id (queued_entry "0123456789abcdef"
                                                    (60 * day) b msg))) 201
      /\ Permutation (Store.getMessagesFor (msg_to msg) (-1) (snd run))
                     (queued_entry "0123456789abcdef" (60 * day) b msg
                      :: Store.getMessagesFor (msg_to msg) (-1) db_day45)
      /\ Store.message_json (queued_entry "0123456789abcdef" (60 * day) b msg)
         = stringify b.
Proof.
  intros run. split; [reflexivity|].
  exact (queued_message_is_polled
           (Some "Bearer alice-token") (Some to_bob) "0123456789abcdef"
           (60 * day) db_day45 (snd run) (fst run)
           (surjective_pairing run) eq_refl).
Defined.

Lemma only_the_recipient_acknowledges_witness :
  Server.resolveAgent (Some "Bearer bob-token") db_queued
  = Some (bob_id, digest "bob-token")
  /\ Server.resolveAgent (Some "Bearer alice-token") db_queued
     = Some (alice_id, digest "alice-token")
  /\ fst (Server.post_relay_ack queued_id (Some "Bearer bob-token") db_queued)
     = respond BAcknowledged 200
  /\ Server.post_relay_ack queued_id (Some "Bearer alice-token") db_queued
     = (json_error INVALID_MESSAGE
                   "Message not found or already acknowledged" 404, db_queued).
Proof.
  assert (Hb : Server.resolveAgent (Some "Bearer bob-token") db_queued
               = Some (bob_id, digest "bob-token")) by reflexivity.
  assert (Ha : Server.resolveAgent (Some "Bearer alice-token") db_queued
               = Some (alice_id, digest "alice-token")) by reflexivity.
  split; [exact Hb|]. split; [exact Ha|]. split.
  - exact (proj1 (only_the_recipient_acknowledges
                    queued_id (Some "Bearer bob-token") db_queued
                    bob_id (digest "bob-token") Hb)).
  - exact (proj1 (only_the_recipient_acknowledges
                    queued_id (Some "Bearer alice-token") db_queued
                    alice_id (digest "alice-token") Ha)).
Defined.

Lemma one_sender_per_token_witness :
  (exists m1 m2,
      MessageSchema to_bob = inr m1 /\ MessageSchema to_alice = inr m2
      /\ msg_from m1 <> msg_from m2)
  /\ (status (fst (Server.post_relay (Some "Bearer alice-token") (Some to_bob)
                                     "0123456789abcdef" (60 * day) db_day45))
      <> 201
      \/ status (fst (Server.post_relay (Some "Bearer alice-token")
                                        (Some to_alice) "0123456789abcdee"
                                        (60 * day) db_day45))
         <> 201).
Proof.
  destruct (MessageSchema to_bob) as [i1|m1] eqn:E1; [discriminate E1|].
  destruct (MessageSchema to_alice) as [i2|m2] eqn:E2; [discriminate E2|].
  assert (Hne : msg_from m1 <> msg_from m2).
  { vm_compute in E1, E2. injection E1 as <-. injection E2 as <-.
    discriminate. }
  split; [exists m1, m2; auto|].
  exact (one_sender_per_token (Some "Bearer alice-token") to_bob to_alice
           m1 m2 "0123456789abcdef" "0123456789abcdee" (60 * day) (60 * day)
           db_day45 E1 E2 Hne).
Defined.

Lemma relay_reads_sender_and_recipient_only_witness :
  (exists m1 m2,
      MessageSchema to_bob = inr m1 /\ MessageSchema to_bob_again = inr m2
      /\ msg_from m1 = msg_from m2 /\ msg_to m1 = msg_to m2
      /\ msg_signature m1 <> msg_signature m2)
  /\ fst (Server.post_relay (Some "Bearer alice-token") (Some to_bob)
                            "0123456789abcdef" (60 * day) db_day45)
     = fst (Server.post_relay (Some "Bearer alice-token") (Some to_bob_again)
                              "0123456789abcdef" (60 * day) db_day45).
Proof.
  destruct (MessageSchema to_bob) as [i1|m1] eqn:E1; [discriminate E1|].
  destruct (MessageSchema to_bob_again) as [i2|m2] eqn:E2; [discriminate E2|].
  assert (H : msg_from m1 = msg_from m2 /\ msg_to m1 = msg_to m2
              /\ msg_signature m1 <> msg_signature m2).
  { vm_compute in E1, E2. injection E1 as <-. injection E2 as <-.
    repeat split. discriminate. }
  destruct H as (Hf & Ht & Hs).
  split; [exists m1, m2; auto|].
  exact (relay_reads_sender_and_recipient_only
           (Some "Bearer alice-token") to_bob to_bob_again m1 m2
           "0123456789abcdef" (60 * day) db_day45 E1 E2 Hf Ht).
Defined.

Lemma relay_ignores_card_contents_witness :
  (forall c, agent_id (block_alice c) = agent_id c)
  /\ fst (Server.post_relay (Some "Bearer alice-token") (Some to_bob)
                            "0123456789abcdef" (60 * day)
                            (recard block_alice db_day45))
     = respond (BQueued queued_id) 201.
Proof.
  assert (H : forall c, agent_id (block_alice c) = agent_id c)
    by (intros c; reflexivity).
  split; [exact H|].
  exact (f_equal fst (relay_ignores_card_contents
                        block_alice (Some "Bearer alice-token") (Some to_bob)
                        "0123456789abcdef" (60 * day) db_day45 H)).
Defined.

Lemma poll_shows_only_own_messages_witness :
  Server.resolveAgent (Some "Bearer bob-token") db_queued
  = Some (bob_id, digest "bob-token")
  /\ parseInt10 "-1" = Some (-1)
  /\ lowest_limit < -1
  /\ (exists rows,
         get_relay (Some "Bearer bob-token") None (Some "-1") db_queued
         = (200, LMessages (map polled_of rows))
         /\ rows = Store.getMessagesFor bob_id (-1) db_queued)
  /\ get_relay (Some "Bearer bob-token") None (Some "abc") db_queued
     = (500, LUncaught)
  /\ get_relay (Some "Bearer bob-token") None
               (Some "-100000000000000000000000") db_queued
     = (500, LUncaught).
Proof.
  assert (Hb : Server.resolveAgent (Some "Bearer bob-token") db_queued
               = Some (bob_id, digest "bob-token")) by reflexivity.
  assert (Hn : parseInt10 "-1" = Some (-1)) by reflexivity.
  assert (Hl : lowest_limit < -1) by reflexivity.
  split; [exact Hb|]. split; [exact Hn|]. split; [exact Hl|].
  split; [|split].
  - destruct (proj1 (poll_shows_only_own_messages
                       (Some "Bearer bob-token") None (Some "-1") db_queued
                       bob_id (digest "bob-token") Hb) (-1) Hn Hl)
      as (rows & H1 & _ & _ & _ & H5).
    exists rows. split; [exact H1|]. apply H5; reflexivity.
  - apply (proj2 (poll_shows_only_own_messages
                    (Some "Bearer bob-token") None (Some "abc") db_queued
                    bob_id (digest "bob-token") Hb)).
    left. reflexivity.
  - apply (proj2 (poll_shows_only_own_messages
                    (Some "Bearer bob-token") None
                    (Some "-100000000000000000000000") db_queued
                    bob_id (digest "bob-token") Hb)).
    right. exists (-100000000000000000000000). split; [reflexivity|].
    discriminate.
Defined.

Lemma search_answers_within_filters_witness :
  let rm := the_page (AgentStore.search mem_two one_by_one) in
  let rd := the_page (Store.searchAgents db_two one_by_one) in
  AgentStore.search mem_two one_by_one = Some rm
  /\ Store.searchAgents db_two one_by_one = Some rd
  /\ (length (agents rm) <= q_limit one_by_one)%nat
  /\ (length (agents rd) <= q_limit one_by_one)%nat.
Proof.
  intros rm rd.
  assert (Hm : AgentStore.search mem_two one_by_one = Some rm) by reflexivity.
  assert (Hd : Store.searchAgents db_two one_by_one = Some rd) by reflexivity.
  split; [exact Hm|]. split; [exact Hd|].
  destruct (search_answers_within_filters mem_two db_two one_by_one rm rd Hm Hd)
    as [[_ H1] [_ H2]].
  split; [exact H1|exact H2].
Defined.

Lemma text_filter_ignores_case_witness :
  "BOB" <> "" /\ "bob" <> ""
  /\ toLowerCase "BOB" = toLowerCase "bob"
  /\ Store.searchAgents db_two (with_q (Some "BOB") (everyone 20 None))
     = Store.searchAgents db_two (with_q (Some "bob") (everyone 20 None)).
Proof.
  assert (H1 : "BOB" <> "") by discriminate.
  assert (H2 : "bob" <> "") by discriminate.
  split; [exact H1|]. split; [exact H2|]. split; [reflexivity|].
  exact (proj2 (text_filter_ignores_case mem_two db_two (everyone 20 None)
                  "BOB" "bob" H1 H2 eq_refl)).
Defined.

Lemma sqlite_search_ignores_row_order_witness :
  NoDup (map Store.row_agent_id (Store.agents_table db_two))
  /\ Permutation (Store.agents_table db_two) (Store.agents_table db_two_reversed)
  /\ Store.searchAgents db_two one_by_one
     = Store.searchAgents db_two_reversed one_by_one.
Proof.
  assert (H1 : NoDup (map Store.row_agent_id (Store.agents_table db_two)))
    by exact (proj1 db_two_ok).
  assert (H2 : Permutation (Store.agents_table db_two)
                           (Store.agents_table db_two_reversed))
    by exact (Permutation_rev (Store.agents_table db_two)).
  split; [exact H1|]. split; [exact H2|].
  exact (sqlite_search_ignores_row_order db_two db_two_reversed one_by_one H1 H2).
Defined.

Lemma carol_parses : AgentCardSchema carol_body = inr carol_card.
Proof. reflexivity. Qed.

Lemma registered_agent_is_discoverable_witness :
  bearer (Some "Bearer carol-token") = Some "carol-token"
  /\ AgentCardSchema carol_body = inr carol_card
  /\ "research" <> "" /\ In "research" (capabilities carol_card)
  /\ db_ok db_two /\ mem_ok mem_two /\ (1 <= q_limit one_by_one)%nat
  /\ status (fst (Server.delete_agent
                    carol_id (Some "Bearer carol-token")
                    (snd (Server.post_agents (Some "Bearer carol-token")
                                             (Some carol_body) carol_rand
                                             (2 * day) db_two))))
     = 204.
Proof.
  assert (H1 : bearer (Some "Bearer carol-token") = Some "carol-token")
    by reflexivity.
  assert (H3 : "research" <> "") by discriminate.
  assert (H4 : In "research" (capabilities carol_card))
    by (right; left; reflexivity).
  assert (H7 : (1 <= q_limit one_by_one)%nat) by apply le_n.
  repeat (split; [first [exact H1|exact carol_parses|exact H3|exact H4
                         |exact db_two_ok|exact mem_two_ok|exact H7]|]).
  exact (proj1 (proj2 (proj1 (registered_agent_is_discoverable
                                (Some "Bearer carol-token") "carol-token"
                                carol_body carol_card carol_rand (2 * day)
                                "research" one_by_one db_two mem_two
                                H1 carol_parses H3 H4 db_two_ok mem_two_ok H7)))).
Defined.

Lemma update_keeps_listing_order_witness :
  db_ok db_two /\ mem_ok mem_two
  /\ status (fst (Server.put_agent bob_id (Some "Bearer bob-token")
                                   (Some bob_renamed) day db_two)) = 200
  /\ status (fst (MemServer.put_agent bob_id (Some "Bearer bob-token")
                                      (Some bob_renamed) day mem_two)) = 200
  /\ ids_of (Store.searchAgents
               (snd (Server.put_agent bob_id (Some "Bearer bob-token")
                                      (Some bob_renamed) day db_two))
               (everyone 20 None))
     = ids_of (Store.searchAgents db_two (everyone 20 None)).
Proof.
  split; [exact db_two_ok|]. split; [exact mem_two_ok|].
  split; [reflexivity|]. split; [reflexivity|].
  exact (proj1 (update_keeps_listing_order
                  bob_id (Some "Bearer bob-token") (Some bob_renamed) day 20
                  db_two mem_two db_two_ok mem_two_ok eq_refl eq_refl)).
Defined.

Lemma query_schema_bounds raw q :
  query_schema raw = inr q -> (1 <= q_limit q <= 100)%nat.
Proof.
  unfold query_schema.
  destruct (match raw_limit raw with
            | Some s => if all_digits s then read_digits s 0 false else None
            | None => Some 20
            end) as [n|]; [|discriminate].
  destruct (Z.leb_spec 1 n), (Z.leb_spec n 100); try discriminate.
  intros [= <-]. cbn [q_limit]. lia.
Qed.

Lemma discovery_pages_are_bounded_witness :
  (forall raw q, query_schema raw = inr q -> (1 <= q_limit q <= 100)%nat)
  /\ fst (get_agents query_schema (raw_everyone (Some "200")) db_two) = 400
  /\ fst (get_agents query_schema (raw_everyone (Some "0")) db_two) = 400
  /\ fst (get_agents query_schema (raw_everyone None) db_two) = 200.
Proof.
  split; [exact query_schema_bounds|].
  destruct (discovery_pages_are_bounded
              query_schema (raw_everyone None) db_two mem_two
              query_schema_bounds)
    as [(issues & E & _)|(q & rd & rm & _ & _ & H & _)];
    [discriminate E|].
  split; [reflexivity|]. split; [reflexivity|]. now rewrite H.
Defined.

Lemma registered_token_resolves_witness :
  bearer (Some "Bearer carol-token") = Some "carol-token"
  /\ AgentCardSchema carol_body = inr carol_card
  /\ db_ok db_two
  /\ exists who,
      Server.resolveAgent
        (Some "Bearer carol-token")
        (snd (Server.post_agents (Some "Bearer carol-token") (Some carol_body)
                                 carol_rand (2 * day) db_two))
      = Some (who, sha256_hex "carol-token").
Proof.
  assert (H1 : bearer (Some "Bearer carol-token") = Some "carol-token")
    by reflexivity.
  split; [exact H1|]. split; [exact carol_parses|]. split; [exact db_two_ok|].
  destruct (registered_token_resolves
              (Some "Bearer carol-token") "carol-token" carol_body carol_card
              carol_rand (2 * day) db_two H1 carol_parses db_two_ok)
    as (who & H & _).
  exists who. exact H.
Defined.

End FurtherWitnesses.
